(** * Route optimiser: schedule evaluation and permutation search

    A shallow embedding of the Python package (models.py, distance_matrix.py,
    constraints.py, genetic_algorithm.py, simulated_annealing.py) and the
    properties of its specification.

    Conventions of the embedding.
    - Python floats are idealised as exact rationals [Q]; equality of computed
      numbers is [==].  The literal [float('inf')] is the constructor [Inf] of
      [xfloat].
    - A route is a list of location indices, [list nat]: the negative indices
      that Python would count from the end of a list are outside the model.
    - A call that raises an exception has no value: [None].
    - The process-wide generator of the [random] module is an explicit
      generator state threaded through every search procedure. *)

From Stdlib Require Import ZArith QArith Qabs Qround Lia Lqa Sorted.
From stdpp Require Import base option strings list gmap.

Open Scope Q_scope.

(** ** Numbers *)

(** A float that may be [float('inf')]. *)
Inductive xfloat : Type :=
| Fin (q : Q)
| Inf.

Definition Qltb (x y : Q) : bool := negb (Qle_bool y x).

(** [a < b] on floats, the second possibly infinite. *)
Definition xlt (a b : xfloat) : bool :=
  match a, b with
  | Fin x, Fin y => Qltb x y
  | Fin _, Inf => true
  | Inf, _ => false
  end.

(** [a <= b], as [sorted] needs it. *)
Definition xle (a b : xfloat) : bool := negb (xlt b a).

(** Python's [x % m] on a float [x] and a positive [m]: the result has the
    sign of [m]. *)
Definition fmod (x : Q) (m : Z) : Q :=
  x - inject_Z m * inject_Z (Qfloor (x / inject_Z m)).

(** ** models.py *)

(** [datetime.time], naive: the constructor admits exactly the values of
    [time_ok]. *)
Record time : Type := mk_time {
  hour : Z;
  minute : Z;
  second : Z;
  microsecond : Z
}.

Definition time_ok (t : time) : Prop :=
  (0 <= hour t < 24)%Z /\ (0 <= minute t < 60)%Z /\
  (0 <= second t < 60)%Z /\ (0 <= microsecond t < 1000000)%Z.

(** Comparison of two times: that of the tuples
    (hour, minute, second, microsecond). *)
Definition time_compare (a b : time) : comparison :=
  match (hour a ?= hour b)%Z with
  | Eq =>
    match (minute a ?= minute b)%Z with
    | Eq =>
      match (second a ?= second b)%Z with
      | Eq => (microsecond a ?= microsecond b)%Z
      | c => c
      end
    | c => c
    end
  | c => c
  end.

Definition time_lt (a b : time) : Prop := time_compare a b = Lt.

Definition time_geb (a b : time) : bool :=
  match time_compare a b with
  | Lt => false
  | _ => true
  end.

Record Location : Type := mk_Location {
  id : Z;
  name : string;
  latitude : Q;
  longitude : Q;
  open_time : option time;
  close_time : option time;
  stay_duration : Z;
  priority : Q
}.

(** [Location.__post_init__]: [true] when the ValueError is raised.  A time
    object is always truthy, so [self.open_time and self.close_time] tests
    that both are present. *)
Definition post_init_raises (self : Location) : bool :=
  match open_time self, close_time self with
  | Some ot, Some ct => time_geb ot ct
  | _, _ => false
  end.

(** The constructor of the dataclass: fields are stored, then
    [__post_init__] runs. *)
Definition new_Location (id : Z) (name : string) (latitude longitude : Q)
    (open_time close_time : option time) (stay_duration : Z) (priority : Q)
  : option Location :=
  let self := mk_Location id name latitude longitude open_time close_time
                          stay_duration priority in
  if post_init_raises self then None else Some self.

Record RouteSolution : Type := mk_RouteSolution {
  route : list nat;
  total_distance : Q;
  total_time : Q;
  fitness : xfloat;
  violations : nat;
  arrival_times : list Q
}.

Global Instance Location_inhabited : Inhabited Location :=
  populate (mk_Location 0 EmptyString 0 0 None None 0 1).

(** ** distance_matrix.py *)

Section Manhattan.

(** [math.radians] and [math.cos]. *)
Variable radians : Q -> Q.
Variable cos : Q -> Q.

Definition manhattan_distance (lat1 lon1 lat2 lon2 : Q) : Q :=
  let avg_lat := (lat1 + lat2) / 2 in
  let lat_distance := Qabs (lat1 - lat2) * 111 in
  let lon_distance := Qabs (lon1 - lon2) * 111 * cos (radians avg_lat) in
  lat_distance + lon_distance.

End Manhattan.

Module DistanceMatrix.
Section DistanceMatrix.

(** The locations and the formula of the chosen [distance_type]
    (haversine or manhattan), a function of two coordinate pairs. *)
Variable locations : list Location.
Variable formula : Q -> Q -> Q -> Q -> Q.

Definition entry (i j : nat) : Q :=
  if decide (i = j) then 0
  else
    let loc1 := locations !!! i in
    let loc2 := locations !!! j in
    formula (latitude loc1) (longitude loc1) (latitude loc2) (longitude loc2).

(** [_compute_matrix]: the dict filled for i, j in [range(n)]. *)
Definition compute_matrix : gmap (nat * nat) Q :=
  let n := length locations in
  foldl (fun matrix i =>
           foldl (fun matrix j => <[(i, j) := entry i j]> matrix)
                 matrix (seq 0 n))
        ∅ (seq 0 n).

(** [get_distance]: [self.matrix.get((from_idx, to_idx), float('inf'))]. *)
Definition get_distance (from_idx to_idx : nat) : xfloat :=
  match compute_matrix !! (from_idx, to_idx) with
  | Some d => Fin d
  | None => Inf
  end.

(** [get_travel_time]: [(distance / avg_speed) * 60].  Division by a zero
    speed raises.  For a pair absent from the table the distance is
    infinite and there is no finite travel time; the one caller reaches
    that case only with an index outside [locations], on which it raises. *)
Definition get_travel_time (from_idx to_idx : nat) (avg_speed : Q)
  : option Q :=
  match get_distance from_idx to_idx with
  | Fin distance =>
    if Qeq_bool avg_speed 0 then None
    else Some ((distance / avg_speed) * 60)
  | Inf => None
  end.

End DistanceMatrix.
End DistanceMatrix.

(** ** constraints.py *)

Definition time_to_minutes (t : time) : Z := (hour t * 60 + minute t)%Z.

(** [minutes_to_time]: [//] and [%] round towards minus infinity, as
    [Z.div] and [Z.modulo] do for a positive divisor; the seconds and
    microseconds of [time(hour=..., minute=...)] are 0. *)
Definition minutes_to_time (minutes : Z) : time :=
  let hours := (minutes / 60)%Z in
  let mins := (minutes mod 60)%Z in
  mk_time (hours mod 24) mins 0 0.

(** The three ways [check_time_window] treats a location: the tests of
    lines 55, 66 and 73, with the minutes the chosen branch works on. *)
Inductive window_case : Type :=
| NoWindow
| NormalWindow (open_minutes close_minutes : Z)
| CrossMidnight (open_minutes close_minutes : Z).

Definition window_of (location : Location) : window_case :=
  match open_time location, close_time location with
  | Some ot, Some ct =>
    let open_minutes := time_to_minutes ot in
    let close_minutes := time_to_minutes ct in
    let close_minutes :=
      if (close_minutes <? open_minutes)%Z then (close_minutes + 24 * 60)%Z
      else close_minutes in
    if (open_minutes <=? close_minutes)%Z
    then NormalWindow open_minutes close_minutes
    else CrossMidnight open_minutes close_minutes
  | _, _ => NoWindow
  end.

Module ConstraintChecker.
Section ConstraintChecker.

(** The fields set by [__init__]; the distance matrix is the one the
    optimiser builds from the same locations. *)
Variable locations : list Location.
Variable formula : Q -> Q -> Q -> Q -> Q.
Variable avg_speed : Q.
Variable start_time : time.

Definition start_time_minutes : Z := time_to_minutes start_time.

Definition normalized (arrival_time : Q) : Q :=
  fmod (inject_Z start_time_minutes + arrival_time) (24 * 60).

(** The body of [check_time_window] once the location is fetched. *)
Definition check_window (location : Location) (arrival_time : Q)
  : bool * Q :=
  let actual_time_normalized := normalized arrival_time in
  match window_of location with
  | NoWindow => (true, arrival_time)
  | NormalWindow open_minutes close_minutes =>
    if Qle_bool (inject_Z open_minutes) actual_time_normalized
       && Qle_bool actual_time_normalized (inject_Z close_minutes)
    then (true, arrival_time)
    else
      let wait_time :=
        if Qltb actual_time_normalized (inject_Z open_minutes)
        then inject_Z open_minutes - actual_time_normalized
        else (inject_Z (24 * 60) - actual_time_normalized)
             + inject_Z open_minutes in
      (false, arrival_time + wait_time)
  | CrossMidnight open_minutes close_minutes =>
    if Qle_bool (inject_Z open_minutes) actual_time_normalized
       || Qle_bool actual_time_normalized (inject_Z close_minutes)
    then (true, arrival_time)
    else
      let wait_time := inject_Z open_minutes - actual_time_normalized in
      (false, arrival_time + wait_time)
  end.

Definition check_time_window (location_idx : nat) (arrival_time : Q)
  : option (bool * Q) :=
  location ← locations !! location_idx;
  Some (check_window location arrival_time).

(** The variables of the loop of [evaluate_route]. *)
Record sim : Type := mk_sim {
  sim_distance : Q;
  sim_time : Q;
  sim_arrivals : list Q;
  sim_violations : nat
}.

(** The loop [for i in range(len(route))], on the part of the route still
    to visit; [i < len(route) - 1] holds when a location follows. *)
Fixpoint simulate (rest : list nat) (s : sim) : option sim :=
  match rest with
  | [] => Some s
  | location_idx :: rest' =>
    location ← locations !! location_idx;
    let arrival_times := sim_arrivals s ++ [sim_time s] in
    '(is_valid, actual_arrival) ← check_time_window location_idx (sim_time s);
    let violations :=
      if (is_valid : bool) then sim_violations s else S (sim_violations s) in
    let current_time := actual_arrival + inject_Z (stay_duration location) in
    match rest' with
    | [] =>
      simulate rest'
        (mk_sim (sim_distance s) current_time arrival_times violations)
    | next_idx :: _ =>
      match DistanceMatrix.get_distance locations formula
              location_idx next_idx with
      | Fin distance =>
        travel_time ← DistanceMatrix.get_travel_time locations formula
                        location_idx next_idx avg_speed;
        simulate rest'
          (mk_sim (sim_distance s + distance) (current_time + travel_time)
                  arrival_times violations)
      | Inf => None
      end
    end
  end.

Definition evaluate_route (route : list nat) : option RouteSolution :=
  match route with
  | [] => Some (mk_RouteSolution [] 0 0 Inf 0%nat [])
  | _ =>
    s ← simulate route (mk_sim 0 0 [] 0);
    let total_time := sim_time s in
    let penalty := inject_Z (Z.of_nat (sim_violations s)) * 1000 in
    let fitness := sim_distance s + penalty in
    Some (mk_RouteSolution route (sim_distance s) total_time (Fin fitness)
                           (sim_violations s) (sim_arrivals s))
  end.

End ConstraintChecker.
End ConstraintChecker.

(** ** The [random] module *)

(** The calls the search procedures make, as functions of the generator
    state.  [rand_int a b] is [random.randint(a, b)] on a non-empty range,
    [rand_pair n] is [random.sample(range(n), 2)] for [n >= 2],
    [rand_shuffle] is [random.shuffle]. *)
Class Random (gen : Type) : Type := {
  rand_float : gen -> Q * gen;
  rand_int : nat -> nat -> gen -> nat * gen;
  rand_pair : nat -> gen -> (nat * nat) * gen;
  rand_shuffle : list nat -> gen -> list nat * gen
}.

(** What the library promises of these calls. *)
Class RandomSpec (gen : Type) `{Random gen} : Prop := {
  rand_float_range : forall g, 0 <= (rand_float g).1 /\ (rand_float g).1 < 1;
  rand_int_range : forall a b g,
    (a <= b)%nat -> (a <= (rand_int a b g).1 <= b)%nat;
  rand_pair_range : forall n g,
    (2 <= n)%nat ->
    let '(i, j) := (rand_pair n g).1 in (i < n)%nat /\ (j < n)%nat /\ i <> j;
  rand_shuffle_perm : forall l g, (rand_shuffle l g).1 ≡ₚ l
}.

(** Computations that draw random numbers and may raise. *)
Definition M (gen A : Type) : Type := gen -> option (A * gen).

Global Instance M_ret {gen} : MRet (M gen) := fun A a g => Some (a, g).
Global Instance M_bind {gen} : MBind (M gen) := fun A B f c g =>
  match c g with
  | Some (a, g') => f a g'
  | None => None
  end.

(** A computation without random draws. *)
Definition lift {gen A} (o : option A) : M gen A := fun g =>
  match o with
  | Some a => Some (a, g)
  | None => None
  end.

Section Draws.
Context {gen : Type} `{Random gen}.

(** [random.random()] *)
Definition random : M gen Q := fun g => Some (rand_float g).

(** [random.randint(a, len - 1)] with [a = 0]: ValueError on an empty
    range, that is when [len = 0]. *)
Definition randint_below (len : nat) : M gen nat := fun g =>
  match len with
  | O => None
  | S b => Some (rand_int 0 b g)
  end.

(** [random.sample(range(n), 2)]: ValueError when the sample is larger
    than the population. *)
Definition sample2 (n : nat) : M gen (nat * nat) := fun g =>
  if (n <? 2)%nat then None else Some (rand_pair n g).

(** [route = list(range(n)); random.shuffle(route)] *)
Definition shuffled_range (n : nat) : M gen (list nat) := fun g =>
  Some (rand_shuffle (seq 0 n) g).
End Draws.

(** [a[i], a[j] = a[j], a[i]]: the right-hand side is read first, then the
    two stores are made in order. *)
Definition swap (a : list nat) (i j : nat) : option (list nat) :=
  x ← a !! j;
  y ← a !! i;
  Some (<[j := y]> (<[i := x]> a)).

(** A route that visits each of the [n] locations once. *)
Definition is_permutation (n : nat) (r : list nat) : Prop := r ≡ₚ seq 0 n.

(** ** genetic_algorithm.py *)

Module GeneticAlgorithm.
Section GeneticAlgorithm.
Context {gen : Type} `{Random gen}.

(** The constraint checker and the parameters stored by [__init__]. *)
Variable locations : list Location.
Variable formula : Q -> Q -> Q -> Q -> Q.
Variable avg_speed : Q.
Variable start_time : time.
Variable population_size generations : nat.
Variable mutation_rate crossover_rate : Q.
Variable elite_size : nat.

Definition num_locations : nat := length locations.

Definition evaluate_route : list nat -> option RouteSolution :=
  ConstraintChecker.evaluate_route locations formula avg_speed start_time.

Definition create_individual : M gen (list nat) :=
  shuffled_range num_locations.

(** [[self.create_individual() for _ in range(size)]] *)
Fixpoint create_individuals (size : nat) : M gen (list (list nat)) :=
  match size with
  | O => mret []
  | S size' =>
    individual ← create_individual;
    others ← create_individuals size';
    mret (individual :: others)
  end.

Definition create_population : M gen (list (list nat)) :=
  create_individuals population_size.

Definition fitness_of (route : list nat) : option xfloat :=
  solution ← evaluate_route route;
  Some (fitness solution).

(** [sorted(..., key=lambda x: x[0])] is stable: an entry goes before the
    first one of the sorted rest whose key is not smaller than its own. *)
Fixpoint insert_ranked (x : xfloat * list nat) (l : list (xfloat * list nat))
  : list (xfloat * list nat) :=
  match l with
  | [] => [x]
  | y :: l' => if xle x.1 y.1 then x :: y :: l' else y :: insert_ranked x l'
  end.

Definition sorted_by_fitness (l : list (xfloat * list nat))
  : list (xfloat * list nat) :=
  foldr insert_ranked [] l.

Definition rank_population (population : list (list nat))
  : option (list (xfloat * list nat)) :=
  fitness_results ←
    mapM (fun individual =>
            f ← fitness_of individual; Some (f, individual)) population;
  Some (sorted_by_fitness fitness_results).

(** [1.0 / (1.0 + rank[0])]; an infinite fitness weighs [0.0]. *)
Definition weight (f : xfloat) : option Q :=
  match f with
  | Fin q => if Qeq_bool (1 + q) 0 then None else Some (1 / (1 + q))
  | Inf => Some 0
  end.

Definition sum (l : list Q) : Q := foldl Qplus 0 l.

(** The running sums [cumsum += p; cumulative.append(cumsum)]. *)
Fixpoint cumulate (cumsum : Q) (probabilities : list Q) : list Q :=
  match probabilities with
  | [] => []
  | p :: rest => (cumsum + p) :: cumulate (cumsum + p) rest
  end.

Definition selection (ranked_population : list (xfloat * list nat))
  : M gen (list nat) :=
  fitnesses ← lift (mapM (fun rank => weight rank.1) ranked_population);
  let total_fitness := sum fitnesses in
  probabilities ←
    lift (mapM (fun f => if Qeq_bool total_fitness 0 then None
                         else Some (f / total_fitness)) fitnesses);
  let cumulative := cumulate 0 probabilities in
  r ← random;
  match list_find (fun cum_prob => Qle_bool r cum_prob = true) cumulative with
  | Some (i, _) => lift (snd <$> ranked_population !! i)
  | None => lift (snd <$> last ranked_population)
  end.

(** [child = [-1] * len(donor); child[point1:point2+1] =
    donor[point1:point2+1]].  A slot that holds the sentinel [-1], which
    no location index equals, is [None]. *)
Definition seed_child (donor : list nat) (point1 point2 : nat)
  : list (option nat) :=
  let child := replicate (length donor) None in
  take point1 child
    ++ (Some <$> take (S point2 - point1) (drop point1 donor))
    ++ drop (S point2) child.

(** [while child[pos] != -1: pos += 1]: IndexError past the end. *)
Definition next_free (child : list (option nat)) (pos : nat) : option nat :=
  '(k, _) ← list_find (fun slot => slot = None) (drop pos child);
  Some (pos + k)%nat.

(** [for gene in filler: if gene not in child: ...; child[pos] = gene] *)
Fixpoint fill_child (filler : list nat) (child : list (option nat))
    (pos : nat) : option (list (option nat)) :=
  match filler with
  | [] => Some child
  | gene :: filler' =>
    if decide (Some gene ∈ child) then fill_child filler' child pos
    else
      pos' ← next_free child pos;
      fill_child filler' (<[pos' := Some gene]> child) pos'
  end.

(** One child of the order crossover.  A child that still holds the
    sentinel is not a list of location indices and has no value here. *)
Definition make_child (donor filler : list nat) (point1 point2 : nat)
  : option (list nat) :=
  child ← fill_child filler (seed_child donor point1 point2) 0;
  mapM (fun slot : option nat => slot) child.

(** The part of [crossover] after the two cut points are drawn. *)
Definition crossover_at (parent1 parent2 : list nat) (point1 point2 : nat)
  : option (list nat * list nat) :=
  let '(point1, point2) :=
    if (point2 <? point1)%nat then (point2, point1) else (point1, point2) in
  child1 ← make_child parent1 parent2 point1 point2;
  child2 ← make_child parent2 parent1 point1 point2;
  Some (child1, child2).

Definition crossover (parent1 parent2 : list nat)
  : M gen (list nat * list nat) :=
  r ← random;
  if Qltb crossover_rate r then mret (parent1, parent2)
  else
    point1 ← randint_below (length parent1);
    point2 ← randint_below (length parent1);
    lift (crossover_at parent1 parent2 point1 point2).

Definition mutate (individual : list nat) : M gen (list nat) :=
  r ← random;
  if Qltb mutation_rate r then mret individual
  else
    let mutated := individual in
    '(idx1, idx2) ← sample2 (length mutated);
    lift (swap mutated idx1 idx2).

(** The loop [while len(new_population) < self.population_size], on the
    number of free places [population_size - len(new_population)]. *)
Fixpoint breed (free : nat) (ranked : list (xfloat * list nat))
    (new_population : list (list nat)) : M gen (list (list nat)) :=
  match free with
  | O => mret new_population
  | S free' =>
    parent1 ← selection ranked;
    parent2 ← selection ranked;
    '(child1, child2) ← crossover parent1 parent2;
    child1 ← mutate child1;
    child2 ← mutate child2;
    let new_population := new_population ++ [child1] in
    match free' with
    | O => mret new_population
    | S free'' => breed free'' ranked (new_population ++ [child2])
    end
  end.

Definition evolve (population : list (list nat)) : M gen (list (list nat)) :=
  ranked ← lift (rank_population population);
  let elite := snd <$> take elite_size ranked in
  let new_population := elite in
  breed (population_size - length new_population) ranked new_population.

(** The variables of the loop of [optimize]. *)
Record search : Type := mk_search {
  cur_population : list (list nat);
  best_solution : option RouteSolution;
  best_fitness : xfloat
}.

(** One generation: the body of [for generation in range(...)]. *)
Definition generation_step (s : search) : M gen search :=
  population ← evolve (cur_population s);
  ranked ← lift (rank_population population);
  '(current_best_fitness, current_best_individual) ← lift (head ranked);
  if xlt current_best_fitness (best_fitness s)
  then
    solution ← lift (evaluate_route current_best_individual);
    mret (mk_search population (Some solution) current_best_fitness)
  else mret (mk_search population (best_solution s) (best_fitness s)).

Fixpoint run_generations (count : nat) (s : search) : M gen search :=
  match count with
  | O => mret s
  | S count' => s' ← generation_step s; run_generations count' s'
  end.

Definition optimize : M gen RouteSolution :=
  population ← create_population;
  s ← run_generations generations (mk_search population None Inf);
  match best_solution s with
  | Some solution => mret solution
  | None =>
    first ← lift (head (cur_population s));
    lift (evaluate_route first)
  end.

End GeneticAlgorithm.
End GeneticAlgorithm.

(** ** simulated_annealing.py *)

(** How a run of the annealing loop under a bound on the number of cooling
    steps ends. *)
Inductive run (A : Type) : Type :=
| Returned (a : A)
| Raised
| OutOfFuel.
Arguments Returned {A} a.
Arguments Raised {A}.
Arguments OutOfFuel {A}.

Module SimulatedAnnealing.
Section SimulatedAnnealing.
Context {gen : Type} `{Random gen}.

Variable locations : list Location.
Variable formula : Q -> Q -> Q -> Q -> Q.
Variable avg_speed : Q.
Variable start_time : time.
Variable initial_temperature cooling_rate min_temperature : Q.
Variable iterations_per_temp : nat.

(** [math.exp] on finite arguments. *)
Variable exp : Q -> Q.

Definition num_locations : nat := length locations.

Definition evaluate_route : list nat -> option RouteSolution :=
  ConstraintChecker.evaluate_route locations formula avg_speed start_time.

Definition create_initial_solution : M gen (list nat) :=
  shuffled_range num_locations.

Definition get_neighbor (route : list nat) : M gen (list nat) :=
  let neighbor := route in
  '(idx1, idx2) ← sample2 (length neighbor);
  lift (swap neighbor idx1 idx2).

(** [acceptance_probability].  Division by a zero temperature raises.  With
    an infinite fitness the exponent is infinite or not a number:
    [exp(-inf)] is [0.0], [exp(inf)] is infinite, and a probability that is
    not a number exceeds no draw, as [0.0] does. *)
Definition acceptance_probability (current_fitness new_fitness : xfloat)
    (temperature : Q) : option xfloat :=
  if xlt new_fitness current_fitness then Some (Fin 1)
  else if Qeq_bool temperature 0 then None
  else
    match new_fitness, current_fitness with
    | Fin n, Fin c => Some (Fin (exp (- (n - c) / temperature)))
    | Inf, Fin _ => if Qltb 0 temperature then Some (Fin 0) else Some Inf
    | _, Inf => Some (Fin 0)
    end.

(** The variables of [optimize]. *)
Record state : Type := mk_state {
  current_route : list nat;
  current_solution : RouteSolution;
  best_route : list nat;
  best_solution : RouteSolution;
  temperature : Q;
  iteration : nat
}.

(** The body of [for _ in range(self.iterations_per_temp)]. *)
Definition step (s : state) : M gen state :=
  neighbor_route ← get_neighbor (current_route s);
  neighbor_solution ← lift (evaluate_route neighbor_route);
  p ← lift (acceptance_probability (fitness (current_solution s))
              (fitness neighbor_solution) (temperature s));
  r ← random;
  let s1 :=
    if xlt (Fin r) p
    then mk_state neighbor_route neighbor_solution (best_route s)
                  (best_solution s) (temperature s) (iteration s)
    else s in
  let s2 :=
    if xlt (fitness (current_solution s1)) (fitness (best_solution s1))
    then mk_state (current_route s1) (current_solution s1)
                  (current_route s1) (current_solution s1)
                  (temperature s1) (iteration s1)
    else s1 in
  mret s2.

Fixpoint steps (count : nat) (s : state) : M gen state :=
  match count with
  | O => mret s
  | S count' => s' ← step s; steps count' s'
  end.

(** [temperature *= self.cooling_rate; iteration += 1] *)
Definition cool (s : state) : state :=
  mk_state (current_route s) (current_solution s) (best_route s)
           (best_solution s) (temperature s * cooling_rate)
           (S (iteration s)).

(** The loop [while temperature > self.min_temperature], for at most
    [fuel] cooling steps. *)
Fixpoint anneal (fuel : nat) (s : state) (g : gen) : run (state * gen) :=
  if Qltb min_temperature (temperature s) then
    match fuel with
    | O => OutOfFuel
    | S fuel' =>
      match steps iterations_per_temp s g with
      | Some (s', g') => anneal fuel' (cool s') g'
      | None => Raised
      end
    end
  else Returned (s, g).

Definition initial_state : M gen state :=
  current_route ← create_initial_solution;
  current_solution ← lift (evaluate_route current_route);
  mret (mk_state current_route current_solution current_route
                 current_solution initial_temperature 0).

Definition optimize (fuel : nat) (g : gen) : run (RouteSolution * gen) :=
  match initial_state g with
  | Some (s, g') =>
    match anneal fuel s g' with
    | Returned (s', g'') => Returned (best_solution s', g'')
    | Raised => Raised
    | OutOfFuel => OutOfFuel
    end
  | None => Raised
  end.

End SimulatedAnnealing.
End SimulatedAnnealing.

(** ** Vocabulary of the statements *)

(** Two floats are the same number. *)
Definition same_float (a b : xfloat) : Prop :=
  match a, b with
  | Fin x, Fin y => x == y
  | Inf, Inf => True
  | _, _ => False
  end.

(** The length of a path through the table: the sum of the entries of its
    consecutive pairs of stops. *)
Fixpoint path_length (locations : list Location)
    (formula : Q -> Q -> Q -> Q -> Q) (route : list nat) : Q :=
  match route with
  | from_idx :: (to_idx :: _) as rest =>
    DistanceMatrix.entry locations formula from_idx to_idx
    + path_length locations formula rest
  | _ => 0
  end.

(** The times of a location are values of [datetime.time]. *)
Definition location_ok (location : Location) : Prop :=
  (forall t, open_time location = Some t -> time_ok t) /\
  (forall t, close_time location = Some t -> time_ok t).

(** Every index of the route is an index of [locations]. *)
Definition valid_route (locations : list Location) (route : list nat) : Prop :=
  Forall (fun location_idx => (location_idx < length locations)%nat) route.

(** The visit of a location at a recorded arrival time fails the
    time-window check. *)
Definition missed_window (locations : list Location) (start_time : time)
    (visit : nat * Q) : bool :=
  match locations !! visit.1 with
  | Some location =>
    negb (ConstraintChecker.check_window start_time location visit.2).1
  | None => false
  end.

(** The number of positions of a route whose window is missed on arrival. *)
Definition missed_count (locations : list Location) (start_time : time)
    (route : list nat) (arrivals : list Q) : nat :=
  length (filter (fun visit => missed_window locations start_time visit = true)
                 (zip route arrivals)).

(** The list [a'] is [a] with the entries at the positions [i] and [j],
    two different positions, exchanged. *)
Definition exchanged (a a' : list nat) (i j : nat) : Prop :=
  i <> j /\ a' !! i = a !! j /\ a' !! j = a !! i /\
  (forall k, k <> i -> k <> j -> a' !! k = a !! k).

(** A child whose free slots are filled, from the left, with the indices
    of a list taken in order. *)
Fixpoint fill_free (child : list (option nat)) (genes : list nat)
  : list (option nat) :=
  match child with
  | [] => []
  | Some x :: child' => Some x :: fill_free child' genes
  | None :: child' =>
    match genes with
    | [] => None :: child'
    | gene :: genes' => Some gene :: fill_free child' genes'
    end
  end.

(** The state of a child while it is filled: [n] slots, the indices placed
    so far are below [n] and placed once, and no slot before [pos] is
    free. *)
Definition child_ok (n : nat) (child : list (option nat)) (pos : nat) : Prop :=
  length child = n /\
  (forall i x, child !! i = Some (Some x) -> (x < n)%nat) /\
  (forall i j x,
     child !! i = Some (Some x) -> child !! j = Some (Some x) -> i = j) /\
  (forall k, (k < pos)%nat -> child !! k <> Some None).

(** A ranking of routes over [n] locations: permutations, each with a
    finite fitness that is not negative. *)
Definition ranked_ok (n : nat) (ranked : list (xfloat * list nat)) : Prop :=
  Forall (fun z => is_permutation n z.2 /\ exists q, z.1 = Fin q /\ 0 <= q)
         ranked.

(** The best solution the loop of the genetic search keeps is the
    evaluation of a route that visits every location once. *)
Definition best_is_route (locations : list Location)
    (formula : Q -> Q -> Q -> Q -> Q) (avg_speed : Q) (start_time : time)
    (s : GeneticAlgorithm.search) : Prop :=
  forall solution,
    GeneticAlgorithm.best_solution s = Some solution ->
    exists individual,
      is_permutation (length locations) individual /\
      ConstraintChecker.evaluate_route locations formula avg_speed start_time
        individual = Some solution.

(** The population of generation [k] of a run of the genetic search:
    the initial population evolved [k] times. *)
Section Generations.
Context {gen : Type} `{Random gen}.
Variable locations : list Location.
Variable formula : Q -> Q -> Q -> Q -> Q.
Variable avg_speed : Q.
Variable start_time : time.
Variable population_size : nat.
Variable mutation_rate crossover_rate : Q.
Variable elite_size : nat.

Fixpoint evolved (k : nat) (population : list (list nat))
  : M gen (list (list nat)) :=
  match k with
  | O => mret population
  | S k' =>
    population' ←
      GeneticAlgorithm.evolve locations formula avg_speed start_time
        population_size mutation_rate crossover_rate elite_size population;
    evolved k' population'
  end.

Definition generation (k : nat) : M gen (list (list nat)) :=
  population ← GeneticAlgorithm.create_population locations population_size;
  evolved k population.
End Generations.

(** The routes of a state of the annealing search visit every location
    once, and its solutions are the evaluations of its routes. *)
Definition state_ok (locations : list Location)
    (formula : Q -> Q -> Q -> Q -> Q) (avg_speed : Q) (start_time : time)
    (s : SimulatedAnnealing.state) : Prop :=
  is_permutation (length locations) (SimulatedAnnealing.current_route s) /\
  ConstraintChecker.evaluate_route locations formula avg_speed start_time
    (SimulatedAnnealing.current_route s)
  = Some (SimulatedAnnealing.current_solution s) /\
  is_permutation (length locations) (SimulatedAnnealing.best_route s) /\
  ConstraintChecker.evaluate_route locations formula avg_speed start_time
    (SimulatedAnnealing.best_route s)
  = Some (SimulatedAnnealing.best_solution s).

(** The temperature after [k] cooling steps [temperature *= rate]. *)
Fixpoint cooled (rate : Q) (k : nat) (temperature : Q) : Q :=
  match k with
  | O => temperature
  | S k' => cooled rate k' (temperature * rate)
  end.

(** ** A generator for the examples *)

(** A counter: every call answers from the count and advances it. *)
Global Instance counter_Random : Random nat := {|
  rand_float g := (inject_Z (Z.of_nat (g mod 10)) / 10, S g);
  rand_int a b g := ((a + g mod S (b - a))%nat, S g);
  rand_pair n g := ((g mod n, S (g mod n) mod n)%nat, S g);
  rand_shuffle l g :=
    (drop (g mod S (length l)) l ++ take (g mod S (length l)) l, S g)
|}.

(** Three stops of a day trip, a grid distance in degrees and a stand-in
    for the exponential, for the examples. *)
Definition example_locations : list Location :=
  [ mk_Location 0 "square" 0 0
      (Some (mk_time 6 0 0 0)) (Some (mk_time 22 0 0 0)) 60 1;
    mk_Location 1 "museum" 3 4
      (Some (mk_time 8 30 0 0)) (Some (mk_time 17 0 0 0)) 180 (3 # 2);
    mk_Location 2 "park" 6 0 None None 90 1 ].

Definition example_formula (lat1 lon1 lat2 lon2 : Q) : Q :=
  Qabs (lat1 - lat2) + Qabs (lon1 - lon2).

Definition example_exp (x : Q) : Q := 1 / (1 - x).

(** * Properties *)

(** ** Arithmetic of the clock *)

Lemma Qltb_lt (x y : Q) : Qltb x y = true <-> x < y.
Proof.
  unfold Qltb. rewrite negb_true_iff, <- not_true_iff_false, Qle_bool_iff.
  split; intros Hxy; [apply Qnot_le_lt | apply Qlt_not_le]; exact Hxy.
Qed.

Lemma Qltb_ge (x y : Q) : Qltb x y = false <-> y <= x.
Proof.
  unfold Qltb. rewrite negb_false_iff. apply Qle_bool_iff.
Qed.

Lemma inject_Z_pos (m : Z) : (0 < m)%Z -> 0 < inject_Z m.
Proof. intros Hm. change 0 with (inject_Z 0). rewrite <- Zlt_Qlt. lia. Qed.

Lemma fmod_range (x : Q) (m : Z) :
  (0 < m)%Z -> 0 <= fmod x m /\ fmod x m < inject_Z m.
Proof.
  intros Hm. unfold fmod.
  pose proof (inject_Z_pos m Hm) as Hq.
  pose proof (Qfloor_le (x / inject_Z m)) as Hlo.
  pose proof (Qlt_floor (x / inject_Z m)) as Hhi.
  rewrite inject_Z_plus in Hhi. change (inject_Z 1) with 1 in Hhi.
  set (f := inject_Z (Qfloor (x / inject_Z m))) in *.
  assert (Hx : x == (x / inject_Z m) * inject_Z m) by (field; lra).
  split.
  - assert (f * inject_Z m <= (x / inject_Z m) * inject_Z m)
      by (apply Qmult_le_compat_r; lra).
    lra.
  - assert ((x / inject_Z m) * inject_Z m < (f + 1) * inject_Z m)
      by (apply Qmult_lt_compat_r; lra).
    lra.
Qed.

Lemma fmod_decompose (x : Q) (m : Z) :
  x == inject_Z m * inject_Z (Qfloor (x / inject_Z m)) + fmod x m.
Proof. unfold fmod. ring. Qed.

(** The remainder is the only value of [[0, m)] that differs from [x] by a
    multiple of [m]. *)
Lemma fmod_unique (x : Q) (m k : Z) (r : Q) :
  (0 < m)%Z -> 0 <= r -> r < inject_Z m ->
  x == inject_Z m * inject_Z k + r -> fmod x m == r.
Proof.
  intros Hm Hr0 Hr1 Hx.
  pose proof (inject_Z_pos m Hm) as Hq.
  destruct (fmod_range x m Hm) as [Hf0 Hf1].
  pose proof (fmod_decompose x m) as Hd.
  set (f := Qfloor (x / inject_Z m)) in *.
  assert (Hfk : f = k).
  { destruct (Z.lt_trichotomy f k) as [Hlt | [Heq | Hgt]];
      [| exact Heq |]; exfalso.
    - assert (Hle : (f + 1 <= k)%Z) by lia.
      rewrite Zle_Qle, inject_Z_plus in Hle. change (inject_Z 1) with 1 in Hle.
      assert (inject_Z m * (inject_Z f + 1) <= inject_Z m * inject_Z k)
        by (apply Qmult_le_l; assumption).
      lra.
    - assert (Hle : (k + 1 <= f)%Z) by lia.
      rewrite Zle_Qle, inject_Z_plus in Hle. change (inject_Z 1) with 1 in Hle.
      assert (inject_Z m * (inject_Z k + 1) <= inject_Z m * inject_Z f)
        by (apply Qmult_le_l; assumption).
      lra. }
  rewrite Hfk in Hd. lra.
Qed.

(** Two instants with the same minute of the day are a whole number of days
    apart. *)
Lemma fmod_same_gap (x y : Q) (m : Z) :
  fmod x m == fmod y m ->
  exists k : Z, y - x == inject_Z m * inject_Z k.
Proof.
  intros Hxy.
  exists (Qfloor (y / inject_Z m) - Qfloor (x / inject_Z m))%Z.
  pose proof (fmod_decompose x m) as Hx.
  pose proof (fmod_decompose y m) as Hy.
  unfold Zminus. rewrite inject_Z_plus, inject_Z_opp. lra.
Qed.

(** ** Times of day *)

Lemma time_to_minutes_range (t : time) :
  time_ok t -> (0 <= time_to_minutes t < 24 * 60)%Z.
Proof. unfold time_ok, time_to_minutes. lia. Qed.

Lemma time_geb_lt (a b : time) : time_geb a b = false <-> time_lt a b.
Proof.
  unfold time_geb, time_lt. destruct (time_compare a b); intuition discriminate.
Qed.

(** An earlier time of day has no later minute. *)
Lemma time_lt_minutes (a b : time) :
  time_ok a -> time_ok b -> time_lt a b ->
  (time_to_minutes a <= time_to_minutes b)%Z.
Proof.
  unfold time_ok, time_lt, time_compare, time_to_minutes.
  intros Ha Hb.
  destruct (Z.compare_spec (hour a) (hour b));
    destruct (Z.compare_spec (minute a) (minute b));
    intros Hlt; try discriminate; lia.
Qed.


(** ** The time-window check *)

Section WindowProperties.
Import ConstraintChecker.

Variable start_time : time.

Abbreviation normalized := (normalized start_time).
Abbreviation check_window := (check_window start_time).

Lemma normalized_range (arrival : Q) :
  0 <= normalized arrival /\ normalized arrival < 1440.
Proof. apply (fmod_range _ (24 * 60)). lia. Qed.

(** An instant [gap] later, where [gap] brings the minute of the day to
    [target], possibly over midnight, has minute of the day [target]. *)
Lemma normalized_shift (arrival gap : Q) (target : Z) (days : Z) :
  (0 <= target < 24 * 60)%Z ->
  gap == inject_Z target - normalized arrival + 1440 * inject_Z days ->
  normalized (arrival + gap) == inject_Z target.
Proof.
  intros Ht Hgap. unfold ConstraintChecker.normalized.
  pose proof (fmod_decompose (inject_Z (start_time_minutes start_time) + arrival)
                             (24 * 60)) as Hd.
  fold (ConstraintChecker.normalized start_time arrival) in Hd.
  set (f := Qfloor _) in Hd.
  apply (fmod_unique _ _ (f + days)).
  - lia.
  - change 0 with (inject_Z 0). rewrite <- Zle_Qle. lia.
  - rewrite <- Zlt_Qlt. lia.
  - rewrite inject_Z_plus. change (inject_Z (24 * 60)) with 1440 in *. lra.
Qed.

(** A forward wait that reaches minute [target] of the day is at least the
    gap to the next occurrence of that minute. *)
Lemma wait_at_least (arrival w : Q) (target : Z) :
  (0 <= target < 24 * 60)%Z -> 0 <= w ->
  normalized (arrival + w) == inject_Z target ->
  (normalized arrival <= inject_Z target ->
   inject_Z target - normalized arrival <= w) /\
  (inject_Z target < normalized arrival ->
   1440 - normalized arrival + inject_Z target <= w).
Proof.
  intros Ht Hw Hn.
  destruct (normalized_range arrival) as [Hn0 Hn1].
  assert (Ht0 : 0 <= inject_Z target)
    by (change 0 with (inject_Z 0); rewrite <- Zle_Qle; lia).
  assert (Ht1 : inject_Z target < 1440)
    by (change 1440 with (inject_Z 1440); rewrite <- Zlt_Qlt; lia).
  pose proof (fmod_decompose
                (inject_Z (start_time_minutes start_time) + arrival)
                (24 * 60)) as Ha.
  pose proof (fmod_decompose
                (inject_Z (start_time_minutes start_time) + (arrival + w))
                (24 * 60)) as Hb.
  fold (ConstraintChecker.normalized start_time arrival) in Ha.
  fold (ConstraintChecker.normalized start_time (arrival + w)) in Hb.
  change (inject_Z (24 * 60)) with 1440 in Ha, Hb.
  set (fa := Qfloor _) in Ha. set (fb := Qfloor _) in Hb.
  rewrite Hn in Hb.
  split; intros Hcase.
  - destruct (Z.le_gt_cases fa fb) as [Hle | Hgt].
    + rewrite Zle_Qle in Hle. lra.
    + assert (Hle : (fb + 1 <= fa)%Z) by lia.
      rewrite Zle_Qle, inject_Z_plus in Hle. change (inject_Z 1) with 1 in Hle.
      lra.
  - destruct (Z.le_gt_cases (fa + 1) fb) as [Hle | Hgt].
    + rewrite Zle_Qle, inject_Z_plus in Hle. change (inject_Z 1) with 1 in Hle.
      lra.
    + assert (Hle : (fb <= fa)%Z) by lia.
      rewrite Zle_Qle in Hle. lra.
Qed.

Lemma window_of_normal (location : Location) (o c : Z) :
  window_of location = NormalWindow o c ->
  exists ot ct,
    open_time location = Some ot /\ close_time location = Some ct /\
    o = time_to_minutes ot /\ (o <= c)%Z /\
    (c = time_to_minutes ct \/
     (time_to_minutes ct < o)%Z /\ c = (time_to_minutes ct + 24 * 60)%Z).
Proof.
  unfold window_of.
  destruct (open_time location) as [ot |]; [| discriminate].
  destruct (close_time location) as [ct |]; [| discriminate].
  cbv zeta.
  destruct (Z.ltb_spec (time_to_minutes ct) (time_to_minutes ot));
    destruct (Z.leb_spec (time_to_minutes ot) (time_to_minutes ct + 24 * 60));
    destruct (Z.leb_spec (time_to_minutes ot) (time_to_minutes ct));
    intros Hw; inversion Hw; subst; exists ot, ct; intuition lia.
Qed.

(** What the branch of an ordinary window computes. *)
Lemma normal_window_spec (location : Location) (o c : Z) (arrival : Q) :
  window_of location = NormalWindow o c -> (0 <= o < 24 * 60)%Z ->
  let result := check_window location arrival in
  (result.1 = true <->
   inject_Z o <= normalized arrival /\ normalized arrival <= inject_Z c) /\
  (result.1 = true -> result.2 = arrival) /\
  (result.1 = false ->
   exists wait_time,
     result.2 = arrival + wait_time /\ 0 < wait_time /\
     normalized result.2 == inject_Z o /\
     (forall w, 0 <= w -> normalized (arrival + w) == inject_Z o ->
                wait_time <= w) /\
     (normalized arrival < inject_Z o ->
      wait_time == inject_Z o - normalized arrival) /\
     (inject_Z o <= normalized arrival ->
      wait_time == 1440 - normalized arrival + inject_Z o)).
Proof.
  intros Hw Ho.
  destruct (window_of_normal _ _ _ Hw) as (ot & ct & _ & _ & _ & Hoc & _).
  rewrite Zle_Qle in Hoc.
  destruct (normalized_range arrival) as [Hn0 Hn1].
  assert (Ho0 : 0 <= inject_Z o)
    by (change 0 with (inject_Z 0); rewrite <- Zle_Qle; lia).
  assert (Ho1 : inject_Z o < 1440)
    by (change 1440 with (inject_Z 1440); rewrite <- Zlt_Qlt; lia).
  unfold ConstraintChecker.check_window. rewrite Hw. cbv zeta.
  destruct (Qle_bool (inject_Z o) (normalized arrival)) eqn:Hlo;
    [destruct (Qle_bool (normalized arrival) (inject_Z c)) eqn:Hhi |];
    cbn [andb fst snd].
  - apply Qle_bool_iff in Hlo, Hhi.
    split; [tauto |]. split; [reflexivity | discriminate].
  - apply Qle_bool_iff in Hlo.
    assert (Hc : inject_Z c < normalized arrival).
    { apply Qnot_le_lt. rewrite <- Qle_bool_iff, Hhi. discriminate. }
    destruct (Qltb (normalized arrival) (inject_Z o)) eqn:Hlt;
      [apply Qltb_lt in Hlt; lra |].
    split; [split; [discriminate | intros [_ Hle]; lra] |].
    split; [discriminate |]. intros _.
    eexists. split; [reflexivity |]. split; [change (inject_Z (24 * 60)) with 1440; lra |].
    split; [| split; [| split]].
    + apply (normalized_shift _ _ _ 1 Ho).
      change (inject_Z (24 * 60)) with 1440. change (inject_Z 1) with 1. ring.
    + intros w Hw0 Hwn. change (inject_Z (24 * 60)) with 1440.
      destruct (wait_at_least arrival w o Ho Hw0 Hwn) as [_ Hmin].
      assert (inject_Z o < normalized arrival) by lra.
      specialize (Hmin H). lra.
    + intros Hcontra. lra.
    + intros _. change (inject_Z (24 * 60)) with 1440. ring.
  - assert (Hlt : normalized arrival < inject_Z o).
    { apply Qnot_le_lt. rewrite <- Qle_bool_iff, Hlo. discriminate. }
    assert (Hb : Qltb (normalized arrival) (inject_Z o) = true)
      by (apply Qltb_lt; exact Hlt).
    rewrite Hb.
    split; [split; [discriminate | intros [Hle _]; lra] |].
    split; [discriminate |]. intros _.
    eexists. split; [reflexivity |]. split; [lra |].
    split; [| split; [| split]].
    + apply (normalized_shift _ _ _ 0 Ho). change (inject_Z 0) with 0. ring.
    + intros w Hw0 Hwn.
      destruct (wait_at_least arrival w o Ho Hw0 Hwn) as [Hmin _].
      apply Hmin. lra.
    + intros _. reflexivity.
    + intros Hcontra. lra.
Qed.

Lemma window_of_ordered (location : Location) (ot ct : time) :
  open_time location = Some ot -> close_time location = Some ct ->
  (time_to_minutes ot <= time_to_minutes ct)%Z ->
  window_of location = NormalWindow (time_to_minutes ot) (time_to_minutes ct).
Proof.
  intros Hot Hct Hle. unfold window_of. rewrite Hot, Hct. cbv zeta.
  destruct (Z.ltb_spec (time_to_minutes ct) (time_to_minutes ot)); [lia |].
  destruct (Z.leb_spec (time_to_minutes ot) (time_to_minutes ct)); [| lia].
  reflexivity.
Qed.

(** A window whose close minute is before its open minute is compared with
    the close minute moved to the next day, in the branch of the ordinary
    windows. *)
Lemma window_of_spanning (location : Location) (ot ct : time) :
  open_time location = Some ot -> close_time location = Some ct ->
  time_ok ot -> time_ok ct ->
  (time_to_minutes ct < time_to_minutes ot)%Z ->
  window_of location
  = NormalWindow (time_to_minutes ot) (time_to_minutes ct + 24 * 60).
Proof.
  intros Hot Hct Hoko Hokc Hlt. unfold window_of. rewrite Hot, Hct. cbv zeta.
  pose proof (time_to_minutes_range ot Hoko).
  pose proof (time_to_minutes_range ct Hokc).
  destruct (Z.ltb_spec (time_to_minutes ct) (time_to_minutes ot)); [| lia].
  destruct (Z.leb_spec (time_to_minutes ot) (time_to_minutes ct + 24 * 60));
    [reflexivity | lia].
Qed.

(** The branch of line 85 is taken for no location at all. *)
Lemma window_of_never_cross (location : Location) (o c : Z) :
  (forall t, open_time location = Some t -> time_ok t) ->
  (forall t, close_time location = Some t -> time_ok t) ->
  window_of location <> CrossMidnight o c.
Proof.
  intros Hoko Hokc Hw.
  destruct (open_time location) as [ot |] eqn:Hot;
    [| unfold window_of in Hw; rewrite Hot in Hw; discriminate].
  destruct (close_time location) as [ct |] eqn:Hct;
    [| unfold window_of in Hw; rewrite Hot, Hct in Hw; discriminate].
  specialize (Hoko ot eq_refl). specialize (Hokc ct eq_refl).
  destruct (Z.lt_ge_cases (time_to_minutes ct) (time_to_minutes ot)).
  - rewrite (window_of_spanning location ot ct) in Hw by assumption.
    discriminate.
  - rewrite (window_of_ordered location ot ct) in Hw by (assumption || lia).
    discriminate.
Qed.

(** For a window that spans midnight the check is satisfied exactly from
    the open minute to the end of the day. *)
Lemma spanning_window_satisfied (location : Location) (ot ct : time)
    (arrival : Q) :
  open_time location = Some ot -> close_time location = Some ct ->
  time_ok ot -> time_ok ct ->
  (time_to_minutes ct < time_to_minutes ot)%Z ->
  (check_window location arrival).1 = true
  <-> inject_Z (time_to_minutes ot) <= normalized arrival.
Proof.
  intros Hot Hct Hoko Hokc Hlt.
  pose proof (time_to_minutes_range ot Hoko) as Hro.
  pose proof (time_to_minutes_range ct Hokc) as Hrc.
  destruct (normal_window_spec location _ _ arrival
              (window_of_spanning location ot ct Hot Hct Hoko Hokc Hlt) Hro)
    as [Hsat _].
  rewrite Hsat. split; [tauto |]. intros Hle. split; [exact Hle |].
  destruct (normalized_range arrival) as [_ Hn1].
  rewrite inject_Z_plus. change (inject_Z (24 * 60)) with 1440.
  assert (0 <= inject_Z (time_to_minutes ct))
    by (change 0 with (inject_Z 0); rewrite <- Zle_Qle; lia).
  lra.
Qed.

(** C4.  For a location whose window does not span midnight (both times
    present, the open time before the close time), [check_time_window] is
    satisfied exactly when the arrival, taken as start-of-day minutes plus
    the arrival offset modulo 1440, lies between the open and the close
    minute.  Otherwise the adjusted arrival is the arrival plus the least
    forward wait that reaches the open minute: the gap to the open minute
    when the arrival is before it, and the gap over midnight to the next
    day's open minute when it is past the close minute.  The adjusted
    arrival equals the arrival exactly when the check is satisfied. *)
Theorem check_time_window_non_spanning
    (locations : list Location) (location_idx : nat) (location : Location)
    (ot ct : time) (arrival : Q) :
  locations !! location_idx = Some location ->
  open_time location = Some ot -> close_time location = Some ct ->
  time_ok ot -> time_ok ct -> time_lt ot ct ->
  let open_minute := inject_Z (time_to_minutes ot) in
  let close_minute := inject_Z (time_to_minutes ct) in
  exists satisfied adjusted,
    check_time_window locations start_time location_idx arrival
    = Some (satisfied, adjusted) /\
    (satisfied = true <->
     open_minute <= normalized arrival /\ normalized arrival <= close_minute) /\
    (satisfied = false ->
     exists wait_time,
       adjusted == arrival + wait_time /\ 0 < wait_time /\
       normalized adjusted == open_minute /\
       (forall w, 0 <= w -> normalized (arrival + w) == open_minute ->
                  wait_time <= w) /\
       (normalized arrival < open_minute ->
        wait_time == open_minute - normalized arrival) /\
       (close_minute < normalized arrival ->
        wait_time == (1440 - normalized arrival) + open_minute)) /\
    (adjusted == arrival <-> satisfied = true).
Proof.
  intros Hloc Hot Hct Hoko Hokc Hlt open_minute close_minute.
  pose proof (time_lt_minutes ot ct Hoko Hokc Hlt) as Hle.
  pose proof (time_to_minutes_range ot Hoko) as Hro.
  destruct (normal_window_spec location _ _ arrival
              (window_of_ordered location ot ct Hot Hct Hle) Hro)
    as (Hsat & Hsame & Hwait).
  unfold check_time_window. rewrite Hloc. cbn [mbind option_bind].
  destruct (check_window location arrival) as [satisfied adjusted].
  cbn [fst snd] in *.
  exists satisfied, adjusted. split; [reflexivity |].
  split; [exact Hsat |]. split.
  - intros Hno. destruct (Hwait Hno) as (w & -> & Hpos & Hopen & Hmin & Hlo & Hhi).
    exists w. split; [reflexivity |]. split; [exact Hpos |].
    split; [exact Hopen |]. split; [exact Hmin |]. split; [exact Hlo |].
    intros Hpast. apply Hhi. rewrite Zle_Qle in Hle.
    unfold open_minute, close_minute in *. lra.
  - split.
    + intros Heq. destruct satisfied; [reflexivity |].
      destruct (Hwait eq_refl) as (w & Hadj & Hpos & _).
      rewrite Hadj in Heq. lra.
    + intros Hyes. rewrite (Hsame Hyes). reflexivity.
Qed.

End WindowProperties.

Lemma check_time_window_non_spanning_witness :
  let office := mk_Location 1 "office" 0 0
                  (Some (mk_time 9 0 0 0)) (Some (mk_time 17 0 0 0)) 30 1 in
  exists satisfied adjusted,
    ConstraintChecker.check_time_window [office] (mk_time 9 0 0 0) 0 (-30)
    = Some (satisfied, adjusted) /\
    satisfied = false /\ adjusted == 0.
Proof.
  intros office.
  destruct (check_time_window_non_spanning (mk_time 9 0 0 0) [office] 0%nat office
              (mk_time 9 0 0 0) (mk_time 17 0 0 0) (-30))
    as (satisfied & adjusted & Hrun & _ & _ & _);
    [reflexivity | reflexivity | reflexivity
     | unfold time_ok; simpl; lia | unfold time_ok; simpl; lia
     | reflexivity |].
  exists satisfied, adjusted. split; [exact Hrun |].
  vm_compute in Hrun. inversion Hrun. split; reflexivity.
Defined.


(** C1, at a failing input.  The window 22:00-06:00 spans midnight.  With
    the day starting at 00:00, an arrival at offset 300 has minute of the
    day 05:00, before the close minute 06:00, which the rule for spanning
    windows calls satisfied; [check_time_window] answers not satisfied and waits 1020
    minutes, to 22:00.  The arrival at 23:00 of the same window is
    satisfied without a wait. *)
Theorem check_time_window_spanning_before_close :
  let night := mk_Location 7 "night market" 0 0
                 (Some (mk_time 22 0 0 0)) (Some (mk_time 6 0 0 0)) 0 1 in
  let midnight := mk_time 0 0 0 0 in
  ConstraintChecker.normalized midnight 300
  <= inject_Z (time_to_minutes (mk_time 6 0 0 0)) /\
  (exists adjusted,
     ConstraintChecker.check_time_window [night] midnight 0 300
     = Some (false, adjusted) /\ adjusted == 1320) /\
  ConstraintChecker.check_time_window [night] midnight 0 1380
  = Some (true, 1380).
Proof.
  intros night midnight. split; [| split].
  - vm_compute. discriminate.
  - eexists. split; [vm_compute; reflexivity | reflexivity].
  - vm_compute. reflexivity.
Qed.

(** ** Construction of a location *)

(** C9.  With both times present the constructor raises exactly when the
    open time is not strictly before the close time; with at most one of
    them present, or with the open time strictly before the close time, it
    returns the location. *)
Theorem new_Location_raises_iff
    (id : Z) (name : string) (latitude longitude : Q)
    (stay_duration : Z) (priority : Q) :
  (forall ot ct,
     new_Location id name latitude longitude (Some ot) (Some ct)
                  stay_duration priority = None
     <-> ~ time_lt ot ct) /\
  (forall o c,
     o = None \/ c = None \/
     (exists ot ct, o = Some ot /\ c = Some ct /\ time_lt ot ct) ->
     new_Location id name latitude longitude o c stay_duration priority
     = Some (mk_Location id name latitude longitude o c
                         stay_duration priority)).
Proof.
  split.
  - intros ot ct. unfold new_Location, post_init_raises. cbn.
    destruct (time_geb ot ct) eqn:Hge.
    + split; [| reflexivity]. intros _ Hlt.
      apply time_geb_lt in Hlt. congruence.
    + split; [discriminate |]. intros Hnot. exfalso.
      apply Hnot, time_geb_lt, Hge.
  - intros o c Hcase. unfold new_Location, post_init_raises. cbn.
    destruct Hcase as [-> | [-> | (ot & ct & -> & -> & Hlt)]].
    + reflexivity.
    + destruct o; reflexivity.
    + apply time_geb_lt in Hlt. rewrite Hlt. reflexivity.
Qed.

(** C10.  A location returned by the constructor with both times present
    has its open time before its close time; its close minute is then not
    below its open minute, the check treats it as an ordinary window, and
    the branch for windows that span midnight is not taken. *)
Theorem constructed_location_never_spans
    (id : Z) (name : string) (latitude longitude : Q)
    (o c : option time) (stay_duration : Z) (priority : Q)
    (location : Location) (ot ct : time) :
  new_Location id name latitude longitude o c stay_duration priority
  = Some location ->
  open_time location = Some ot -> close_time location = Some ct ->
  time_ok ot -> time_ok ct ->
  time_lt ot ct /\
  ~ (time_to_minutes ct < time_to_minutes ot)%Z /\
  window_of location
  = NormalWindow (time_to_minutes ot) (time_to_minutes ct) /\
  (forall open_minutes close_minutes,
     window_of location <> CrossMidnight open_minutes close_minutes).
Proof.
  intros Hnew Hot Hct Hoko Hokc.
  unfold new_Location in Hnew.
  destruct (post_init_raises _) eqn:Hraise; [discriminate |].
  inversion Hnew as [Hloc]. rewrite <- Hloc in Hot, Hct. cbn in Hot, Hct.
  subst o c. unfold post_init_raises in Hraise. cbn in Hraise.
  apply time_geb_lt in Hraise.
  pose proof (time_lt_minutes ot ct Hoko Hokc Hraise) as Hle.
  split; [exact Hraise |]. split; [lia |].
  assert (Hw : window_of
                 (mk_Location id name latitude longitude (Some ot) (Some ct)
                              stay_duration priority)
               = NormalWindow (time_to_minutes ot) (time_to_minutes ct))
    by (apply window_of_ordered; [reflexivity | reflexivity | exact Hle]).
  split; [exact Hw |].
  intros open_minutes close_minutes. rewrite Hw. discriminate.
Qed.

Lemma constructed_location_never_spans_witness :
  let museum := mk_Location 1 "museum" 0 0
                  (Some (mk_time 8 30 0 0)) (Some (mk_time 17 0 0 0)) 180 1 in
  window_of museum = NormalWindow 510 1020.
Proof.
  intros museum.
  destruct (constructed_location_never_spans 1 "museum" 0 0
              (Some (mk_time 8 30 0 0)) (Some (mk_time 17 0 0 0)) 180 1
              museum (mk_time 8 30 0 0) (mk_time 17 0 0 0))
    as (_ & _ & Hw & _);
    [reflexivity | reflexivity | reflexivity
     | unfold time_ok; simpl; lia | unfold time_ok; simpl; lia |].
  exact Hw.
Defined.

(** ** The distance table *)

Section MatrixProperties.
Import DistanceMatrix.

Variable locations : list Location.
Variable formula : Q -> Q -> Q -> Q -> Q.

Abbreviation entry := (entry locations formula).

Lemma fill_row_lookup (i : nat) (row : list nat) (matrix : gmap (nat * nat) Q)
    (a b : nat) :
  foldl (fun matrix j => <[(i, j) := entry i j]> matrix) matrix row !! (a, b)
  = if decide (a = i /\ b ∈ row) then Some (entry a b) else matrix !! (a, b).
Proof.
  revert matrix. induction row as [| j row IH]; intros matrix; cbn [foldl].
  - destruct (decide _) as [[_ Hin] |]; [| reflexivity].
    apply elem_of_nil in Hin. contradiction.
  - rewrite IH.
    destruct (decide (a = i /\ b ∈ row)) as [[-> Hin] | Hno].
    + rewrite decide_True; [reflexivity |]. split; [reflexivity |].
      apply elem_of_cons. right. exact Hin.
    + destruct (decide ((i, j) = (a, b))) as [Heq | Hne].
      * inversion Heq; subst. rewrite lookup_insert_eq.
        rewrite decide_True; [reflexivity |]. split; [reflexivity |].
        apply elem_of_cons. left. reflexivity.
      * rewrite lookup_insert_ne by exact Hne.
        destruct (decide (a = i /\ b ∈ j :: row)) as [[-> Hin] |];
          [| reflexivity].
        apply elem_of_cons in Hin. destruct Hin as [-> | Hin].
        -- contradiction Hne. reflexivity.
        -- contradiction Hno. split; [reflexivity | exact Hin].
Qed.

Lemma fill_rows_lookup (rows row : list nat) (matrix : gmap (nat * nat) Q)
    (a b : nat) :
  foldl (fun matrix i =>
           foldl (fun matrix j => <[(i, j) := entry i j]> matrix) matrix row)
        matrix rows !! (a, b)
  = if decide (a ∈ rows /\ b ∈ row) then Some (entry a b)
    else matrix !! (a, b).
Proof.
  revert matrix. induction rows as [| i rows IH]; intros matrix; cbn [foldl].
  - destruct (decide _) as [[Hin _] |]; [| reflexivity].
    apply elem_of_nil in Hin. contradiction.
  - rewrite IH, fill_row_lookup.
    destruct (decide (a ∈ rows /\ b ∈ row)) as [[Ha Hb] | Hno].
    + rewrite decide_True; [reflexivity |]. split; [| exact Hb].
      apply elem_of_cons. right. exact Ha.
    + destruct (decide (a = i /\ b ∈ row)) as [[-> Hb] | Hno'].
      * rewrite decide_True; [reflexivity |]. split; [| exact Hb].
        apply elem_of_cons. left. reflexivity.
      * destruct (decide (a ∈ i :: rows /\ b ∈ row)) as [[Ha Hb] |];
          [| reflexivity].
        apply elem_of_cons in Ha. destruct Ha as [-> | Ha].
        -- contradiction Hno'. split; [reflexivity | exact Hb].
        -- contradiction Hno. split; assumption.
Qed.

(** The table holds exactly the pairs of indices of [locations]. *)
Lemma get_distance_spec (from_idx to_idx : nat) :
  get_distance locations formula from_idx to_idx
  = if decide ((from_idx < length locations)%nat
               /\ (to_idx < length locations)%nat)
    then Fin (entry from_idx to_idx) else Inf.
Proof.
  unfold get_distance, compute_matrix. cbv zeta.
  rewrite fill_rows_lookup, lookup_empty.
  destruct (decide (from_idx ∈ seq 0 (length locations)
                    /\ to_idx ∈ seq 0 (length locations))) as [[Ha Hb] | Hno].
  - apply elem_of_seq in Ha, Hb. rewrite decide_True by lia. reflexivity.
  - rewrite decide_False; [reflexivity |]. intros [Ha Hb]. apply Hno.
    rewrite !elem_of_seq. lia.
Qed.

End MatrixProperties.

(** ** The simulation of a route *)

Section EvaluatorProperties.
Import ConstraintChecker.

Variable locations : list Location.
Variable formula : Q -> Q -> Q -> Q -> Q.
Variable avg_speed : Q.
Variable start_time : time.

Abbreviation simulate := (simulate locations formula avg_speed start_time).
Abbreviation check_window := (check_window start_time).
Abbreviation get_distance := (DistanceMatrix.get_distance locations formula).

(** One turn of the loop. *)
Lemma simulate_cons (location_idx : nat) (rest : list nat) (s s' : sim) :
  simulate (location_idx :: rest) s = Some s' ->
  exists location s1,
    locations !! location_idx = Some location /\
    simulate rest s1 = Some s' /\
    sim_arrivals s1 = sim_arrivals s ++ [sim_time s] /\
    sim_violations s1
    = (if (check_window location (sim_time s)).1
       then sim_violations s else S (sim_violations s)) /\
    (rest = [] ->
     sim_time s1 = (check_window location (sim_time s)).2
                   + inject_Z (stay_duration location)) /\
    (forall next_idx,
       head rest = Some next_idx ->
       exists distance,
         get_distance location_idx next_idx = Fin distance /\
         sim_time s1 = (check_window location (sim_time s)).2
                       + inject_Z (stay_duration location)
                       + (distance / avg_speed) * 60).
Proof.
  cbn [ConstraintChecker.simulate]. unfold check_time_window.
  destruct (locations !! location_idx) as [location |] eqn:Hloc;
    [| discriminate].
  cbn [mbind option_bind].
  destruct (check_window location (sim_time s)) as [is_valid actual] eqn:Hcw.
  cbn [fst snd].
  destruct rest as [| next_idx rest].
  - intros Hrun. exists location. eexists.
    split; [reflexivity |]. split; [exact Hrun |].
    cbn [sim_arrivals sim_violations sim_time]. rewrite Hcw. cbn [fst snd].
    split; [reflexivity |]. split; [reflexivity |].
    split; [reflexivity |]. intros next_idx Hhead. discriminate.
  - unfold DistanceMatrix.get_travel_time.
    destruct (get_distance location_idx next_idx) as [distance |] eqn:Hd;
      [| discriminate].
    destruct (Qeq_bool avg_speed 0); [discriminate |].
    cbn [mbind option_bind].
    intros Hrun. exists location. eexists.
    split; [reflexivity |]. split; [exact Hrun |].
    cbn [sim_arrivals sim_violations sim_time]. rewrite Hcw. cbn [fst snd].
    split; [reflexivity |]. split; [reflexivity |].
    split; [discriminate |].
    intros next Hhead. inversion Hhead; subst next.
    exists distance. split; [exact Hd | reflexivity].
Qed.

(** The loop raises nothing on a route of valid indices at a non-zero
    speed. *)
Lemma simulate_total (rest : list nat) (s : sim) :
  valid_route locations rest -> ~ avg_speed == 0 ->
  exists s', simulate rest s = Some s'.
Proof.
  intros Hvalid Hspeed. revert s.
  induction Hvalid as [| location_idx rest Hidx Hrest IH]; intros s.
  - exists s. reflexivity.
  - cbn [ConstraintChecker.simulate]. unfold check_time_window.
    destruct (lookup_lt_is_Some_2 locations location_idx Hidx)
      as [location Hloc].
    rewrite Hloc. cbn [mbind option_bind].
    destruct (check_window location (sim_time s)) as [is_valid actual].
    destruct rest as [| next_idx rest]; [apply IH |].
    unfold DistanceMatrix.get_travel_time.
    rewrite get_distance_spec.
    apply Forall_cons in Hrest. destruct Hrest as [Hnext _].
    rewrite decide_True by (split; assumption).
    destruct (Qeq_bool avg_speed 0) eqn:Hzero;
      [apply Qeq_bool_iff in Hzero; contradiction |].
    cbn [mbind option_bind]. apply IH.
Qed.

Lemma missed_count_cons (location_idx : nat) (rest : list nat) (a : Q)
    (arrivals : list Q) (location : Location) :
  locations !! location_idx = Some location ->
  missed_count locations start_time (location_idx :: rest) (a :: arrivals)
  = ((if (check_window location a).1 then 0 else 1)
     + missed_count locations start_time rest arrivals)%nat.
Proof.
  intros Hloc. unfold missed_count. cbn [zip zip_with].
  rewrite filter_cons.
  assert (Hm : missed_window locations start_time (location_idx, a)
               = negb (check_window location a).1)
    by (unfold missed_window; cbn [fst snd]; rewrite Hloc; reflexivity).
  destruct (decide _) as [Hd | Hd]; rewrite Hm in Hd;
    destruct (check_window location a).1; cbn [negb] in Hd;
    try discriminate; try reflexivity.
  contradiction Hd. reflexivity.
Qed.

(** What the loop has recorded when it ends. *)
Lemma simulate_spec (rest : list nat) (s s' : sim) :
  simulate rest s = Some s' ->
  exists new,
    sim_arrivals s' = sim_arrivals s ++ new /\
    length new = length rest /\
    sim_violations s'
    = (sim_violations s + missed_count locations start_time rest new)%nat /\
    (rest <> [] -> head new = Some (sim_time s)) /\
    (forall i location_idx next_idx a,
       rest !! i = Some location_idx -> rest !! S i = Some next_idx ->
       new !! i = Some a ->
       exists location distance,
         locations !! location_idx = Some location /\
         get_distance location_idx next_idx = Fin distance /\
         new !! S i
         = Some ((check_window location a).2
                 + inject_Z (stay_duration location)
                 + (distance / avg_speed) * 60)) /\
    (rest = [] -> s' = s) /\
    (forall location_idx,
       last rest = Some location_idx ->
       exists location a,
         locations !! location_idx = Some location /\
         last new = Some a /\
         sim_time s' = (check_window location a).2
                       + inject_Z (stay_duration location)).
Proof.
  revert s. induction rest as [| location_idx rest IH]; intros s Hrun.
  - inversion Hrun; subst s'. exists [].
    split; [rewrite app_nil_r; reflexivity |]. split; [reflexivity |].
    split; [unfold missed_count; cbn; lia |].
    split; [intros Hne; contradiction Hne; reflexivity |].
    split; [intros i location_idx next_idx a Hi; discriminate |].
    split; [reflexivity |]. intros location_idx Hlast. discriminate.
  - destruct (simulate_cons _ _ _ _ Hrun)
      as (location & s1 & Hloc & Hrest & Harr & Hviol & Hlast & Hnext).
    destruct (IH s1 Hrest)
      as (new & Hnew & Hlen & Hcount & Hhead & Hpairs & Hnil & Hend).
    exists (sim_time s :: new).
    split; [rewrite Hnew, Harr, <- app_assoc; reflexivity |].
    split; [cbn; rewrite Hlen; reflexivity |].
    split.
    { rewrite Hcount, Hviol, (missed_count_cons _ _ _ _ location Hloc).
      destruct (check_window location (sim_time s)).1; lia. }
    split; [intros _; reflexivity |].
    split.
    { intros [| i] idx next_idx a Hi Hsi Ha; cbn in Hi, Hsi, Ha.
      - inversion Hi; subst idx. inversion Ha; subst a.
        destruct (Hnext next_idx) as (distance & Hd & Htime).
        { destruct rest; [discriminate | exact Hsi]. }
        exists location, distance.
        split; [exact Hloc |]. split; [exact Hd |].
        change ((sim_time s :: new) !! 1%nat) with (new !! 0%nat).
        rewrite <- head_lookup, Hhead, Htime;
          [reflexivity | destruct rest; discriminate].
      - exact (Hpairs i idx next_idx a Hi Hsi Ha). }
    split; [discriminate |].
    intros last_idx Hlastidx.
    destruct rest as [| next_idx rest'].
    + cbn in Hlastidx. inversion Hlastidx; subst last_idx.
      assert (Hs : s' = s1) by (apply Hnil; reflexivity). subst s'.
      destruct new; [| cbn in Hlen; lia].
      exists location, (sim_time s).
      split; [exact Hloc |]. split; [reflexivity |].
      apply Hlast. reflexivity.
    + rewrite last_cons_cons in Hlastidx.
      destruct (Hend last_idx Hlastidx) as (loc' & a & Hloc' & Hlasta & Htime).
      exists loc', a. split; [exact Hloc' |]. split; [| exact Htime].
      destruct new as [| a' new']; [discriminate |].
      rewrite last_cons_cons. exact Hlasta.
Qed.

(** A missed window moves the clock to the open minute of the location. *)
Lemma check_window_waits_to_open (location : Location) (a : Q) :
  location_ok location ->
  (check_window location a).1 = false ->
  exists ot,
    open_time location = Some ot /\
    a < (check_window location a).2 /\
    normalized start_time (check_window location a).2
    == inject_Z (time_to_minutes ot).
Proof.
  intros [Hoko Hokc] Hmiss.
  destruct (window_of location) as [| o c | o c] eqn:Hw.
  - unfold ConstraintChecker.check_window in Hmiss. rewrite Hw in Hmiss.
    discriminate.
  - destruct (window_of_normal _ _ _ Hw) as (ot & ct & Hot & _ & -> & _).
    pose proof (time_to_minutes_range ot (Hoko ot Hot)) as Hro.
    destruct (normal_window_spec start_time location _ _ a Hw Hro)
      as (_ & _ & Hwait).
    destruct (Hwait Hmiss) as (w & Hadj & Hpos & Hopen & _).
    exists ot. split; [exact Hot |]. split; [rewrite Hadj; lra | exact Hopen].
  - exfalso. exact (window_of_never_cross location o c Hoko Hokc Hw).
Qed.

Lemma evaluate_route_cases (route : list nat) (solution : RouteSolution) :
  route <> [] ->
  evaluate_route locations formula avg_speed start_time route = Some solution ->
  exists s,
    simulate route (mk_sim 0 0 [] 0) = Some s /\
    solution
    = mk_RouteSolution route (sim_distance s) (sim_time s)
        (Fin (sim_distance s
              + inject_Z (Z.of_nat (sim_violations s)) * 1000))
        (sim_violations s) (sim_arrivals s).
Proof.
  intros Hne. destruct route as [| location_idx rest]; [contradiction |].
  unfold evaluate_route.
  destruct (simulate (location_idx :: rest) (mk_sim 0 0 [] 0)) as [s |];
    [| discriminate].
  cbn [mbind option_bind]. intros Hsol. inversion Hsol. exists s.
  split; reflexivity.
Qed.

(** C5.  The empty route evaluates to the solution with distance 0, time 0,
    no violation, infinite fitness and no arrival time. *)
Theorem evaluate_route_empty :
  evaluate_route locations formula avg_speed start_time []
  = Some (mk_RouteSolution [] 0 0 Inf 0 []).
Proof. reflexivity. Qed.

(** C2.  A non-empty route of valid indices, at a non-zero speed, is
    evaluated to a solution; and every solution returned for a non-empty
    route has fitness total_distance + 1000 * violations, and a total time
    equal to the clock after the dwell at the last location: its recorded
    arrival, as adjusted by the time-window check, plus its stay. *)
Theorem evaluate_route_fitness (route : list nat) :
  route <> [] ->
  (valid_route locations route -> ~ avg_speed == 0 ->
   exists solution,
     evaluate_route locations formula avg_speed start_time route
     = Some solution) /\
  (forall solution,
     evaluate_route locations formula avg_speed start_time route
     = Some solution ->
     fitness solution
     = Fin (total_distance solution
            + inject_Z (Z.of_nat (violations solution)) * 1000) /\
     exists last_idx location a,
       last route = Some last_idx /\
       locations !! last_idx = Some location /\
       last (arrival_times solution) = Some a /\
       total_time solution
       = (check_window location a).2 + inject_Z (stay_duration location)).
Proof.
  intros Hne. split.
  - intros Hvalid Hspeed.
    destruct (simulate_total route (mk_sim 0 0 [] 0) Hvalid Hspeed)
      as [s Hs].
    destruct route as [| location_idx rest]; [contradiction |].
    unfold evaluate_route. fold simulate. rewrite Hs.
    eexists. reflexivity.
  - intros solution Hsol.
    destruct (evaluate_route_cases route solution Hne Hsol) as (s & Hs & ->).
    cbn [fitness total_distance violations arrival_times total_time].
    split; [reflexivity |].
    destruct (simulate_spec _ _ _ Hs)
      as (new & Hnew & Hlen & _ & _ & _ & _ & Hend).
    cbn [sim_arrivals app] in Hnew.
    destruct (last route) as [last_idx |] eqn:Hlast.
    + destruct (Hend last_idx eq_refl) as (location & a & Hloc & Hla & Ht).
      exists last_idx, location, a. rewrite Hnew. auto.
    + apply last_None in Hlast. contradiction.
Qed.

(** C3.  On a route of valid indices, at a non-zero speed, [evaluate_route]
    returns a solution for the whole route: one arrival time per position,
    the first one 0 and each next one the previous arrival as adjusted by
    the time-window check, plus the stay and the travel time, so that a
    wait is part of the clock and never of the recorded arrival.  The
    violations are the positions whose check fails at the recorded arrival,
    each counted once, hence at most one per position; and at such a
    position the adjusted arrival is later than the arrival and falls on the
    open minute of the window. *)
Theorem evaluate_route_visits_all (itinerary : list nat) :
  Forall location_ok locations ->
  valid_route locations itinerary -> ~ avg_speed == 0 ->
  exists solution,
    evaluate_route locations formula avg_speed start_time itinerary
    = Some solution /\
    route solution = itinerary /\
    length (arrival_times solution) = length itinerary /\
    violations solution
    = missed_count locations start_time itinerary (arrival_times solution) /\
    (violations solution <= length itinerary)%nat /\
    (itinerary <> [] -> head (arrival_times solution) = Some 0) /\
    (forall i location_idx next_idx a,
       itinerary !! i = Some location_idx ->
       itinerary !! S i = Some next_idx ->
       arrival_times solution !! i = Some a ->
       exists location distance,
         locations !! location_idx = Some location /\
         get_distance location_idx next_idx = Fin distance /\
         arrival_times solution !! S i
         = Some ((check_window location a).2
                 + inject_Z (stay_duration location)
                 + (distance / avg_speed) * 60)) /\
    (forall i location_idx location a,
       itinerary !! i = Some location_idx ->
       locations !! location_idx = Some location ->
       arrival_times solution !! i = Some a ->
       (check_window location a).1 = false ->
       exists ot,
         open_time location = Some ot /\
         a < (check_window location a).2 /\
         normalized start_time (check_window location a).2
         == inject_Z (time_to_minutes ot)).
Proof.
  intros Hok Hvalid Hspeed.
  assert (Hreach : forall location_idx location a,
             locations !! location_idx = Some location ->
             (check_window location a).1 = false ->
             exists ot,
               open_time location = Some ot /\
               a < (check_window location a).2 /\
               normalized start_time (check_window location a).2
               == inject_Z (time_to_minutes ot)).
  { intros location_idx location a Hloc Hmiss.
    apply check_window_waits_to_open; [| exact Hmiss].
    rewrite Forall_forall in Hok. apply Hok.
    apply list_elem_of_lookup. exists location_idx. exact Hloc. }
  destruct itinerary as [| location_idx rest] eqn:Hroute.
  - eexists. split; [reflexivity |]. cbn.
    split; [reflexivity |]. split; [reflexivity |].
    split; [reflexivity |]. split; [lia |].
    split; [intros Hne; contradiction Hne; reflexivity |].
    split; [intros i idx next_idx a Hi; discriminate |].
    intros i idx location a Hi. discriminate.
  - rewrite <- Hroute in *.
    destruct (simulate_total itinerary (mk_sim 0 0 [] 0) Hvalid Hspeed)
      as [s Hs].
    destruct (simulate_spec _ _ _ Hs)
      as (new & Hnew & Hlen & Hcount & Hhead & Hpairs & _ & _).
    cbn [sim_arrivals sim_violations sim_time app] in Hnew, Hcount, Hhead.
    exists (mk_RouteSolution itinerary (sim_distance s) (sim_time s)
              (Fin (sim_distance s
                    + inject_Z (Z.of_nat (sim_violations s)) * 1000))
              (sim_violations s) (sim_arrivals s)).
    split.
    { rewrite Hroute. unfold evaluate_route. fold simulate.
      rewrite <- Hroute, Hs. reflexivity. }
    cbn [route arrival_times violations]. rewrite Hnew.
    split; [reflexivity |]. split; [exact Hlen |].
    split; [rewrite Hcount; reflexivity |].
    split.
    { rewrite Hcount. unfold missed_count. cbn [plus].
      etransitivity; [apply length_filter |]. rewrite length_zip. lia. }
    split; [exact Hhead |]. split; [exact Hpairs |].
    intros i idx location a _ Hloc _. exact (Hreach idx location a Hloc).
Qed.

End EvaluatorProperties.

(** ** Moves on permutations *)

Lemma is_permutation_length (n : nat) (r : list nat) :
  is_permutation n r -> length r = n.
Proof.
  intros Hperm. rewrite (Permutation_length Hperm). apply length_seq.
Qed.

Lemma is_permutation_elem (n : nat) (r : list nat) (x : nat) :
  is_permutation n r -> x ∈ r <-> (x < n)%nat.
Proof.
  intros Hperm. rewrite Hperm, elem_of_seq. lia.
Qed.

(** A list of [n] distinct indices below [n] visits every location once. *)
Lemma pigeonhole_permutation (n : nat) (r : list nat) :
  NoDup r -> (forall x, x ∈ r -> (x < n)%nat) -> length r = n ->
  is_permutation n r.
Proof.
  intros Hnodup Hbound Hlen. unfold is_permutation.
  apply submseteq_length_Permutation.
  - apply NoDup_submseteq; [exact Hnodup |].
    intros x Hx. apply elem_of_seq. specialize (Hbound x Hx). lia.
  - rewrite length_seq. lia.
Qed.

(** A list of [n] indices that holds every index below [n] does too. *)
Lemma cover_permutation (n : nat) (r : list nat) :
  (forall x, (x < n)%nat -> x ∈ r) -> length r = n -> is_permutation n r.
Proof.
  intros Hcover Hlen. unfold is_permutation. symmetry.
  apply submseteq_length_Permutation.
  - apply NoDup_submseteq; [apply NoDup_seq |].
    intros x Hx. apply elem_of_seq in Hx. apply Hcover. lia.
  - rewrite length_seq. lia.
Qed.

Lemma swap_permutation (n : nat) (a a' : list nat) (i j : nat) :
  is_permutation n a -> swap a i j = Some a' -> is_permutation n a'.
Proof.
  unfold swap, is_permutation. intros Hperm Hswap.
  destruct (a !! j) as [x |] eqn:Hj; [| discriminate].
  destruct (a !! i) as [y |] eqn:Hi; [| discriminate].
  cbn in Hswap. inversion Hswap; subst a'.
  rewrite (Permutation_insert_swap a i j y x Hi Hj). exact Hperm.
Qed.

Lemma swap_total (a : list nat) (i j : nat) :
  (i < length a)%nat -> (j < length a)%nat -> is_Some (swap a i j).
Proof.
  intros Hi Hj. unfold swap.
  destruct (lookup_lt_is_Some_2 a i Hi) as [y Hy].
  destruct (lookup_lt_is_Some_2 a j Hj) as [x Hx].
  rewrite Hx, Hy. cbn. eexists. reflexivity.
Qed.

Section CrossoverProperties.
Import GeneticAlgorithm.

(** The slots of a fresh child: the segment of the donor between the cut
    points, and free slots around it. *)
Lemma seed_child_lookup (donor : list nat) (point1 point2 i : nat) :
  (point1 <= point2)%nat -> (point2 < length donor)%nat ->
  (i < length donor)%nat ->
  seed_child donor point1 point2 !! i
  = Some (if decide (point1 <= i <= point2)%nat then donor !! i else None).
Proof.
  intros H12 H2 Hi. unfold seed_child. cbv zeta.
  rewrite lookup_app, lookup_take.
  destruct (decide (i < point1)%nat) as [Hlt | Hge].
  - assert (Hrep : replicate (length donor) (@None nat) !! i = Some None)
      by (apply lookup_replicate; split; [reflexivity | exact Hi]).
    rewrite Hrep, decide_False by lia. reflexivity.
  - rewrite length_take, length_replicate.
    replace (point1 `min` length donor)%nat with point1 by lia.
    rewrite lookup_app, list_lookup_fmap, lookup_take, lookup_drop.
    destruct (decide (i - point1 < S point2 - point1)%nat) as [Hin | Hout].
    + replace (point1 + (i - point1))%nat with i by lia.
      destruct (lookup_lt_is_Some_2 donor i Hi) as [x Hx].
      rewrite Hx, decide_True by lia. reflexivity.
    + cbn [fmap option_fmap option_map].
      rewrite length_fmap, length_take, length_drop, lookup_drop.
      rewrite decide_False by lia.
      apply lookup_replicate. split; [reflexivity | lia].
Qed.

Lemma seed_child_length (donor : list nat) (point1 point2 : nat) :
  (point1 <= point2)%nat -> (point2 < length donor)%nat ->
  length (seed_child donor point1 point2) = length donor.
Proof.
  intros H12 H2. unfold seed_child. cbv zeta.
  rewrite !length_app, length_fmap, !length_take, !length_drop,
    length_replicate.
  lia.
Qed.

Lemma seed_child_ok (n : nat) (donor : list nat) (point1 point2 : nat) :
  is_permutation n donor ->
  (point1 <= point2)%nat -> (point2 < n)%nat ->
  child_ok n (seed_child donor point1 point2) 0.
Proof.
  intros Hperm H12 H2.
  pose proof (is_permutation_length n donor Hperm) as Hlen.
  assert (Hnodup : NoDup donor)
    by (unfold is_permutation in Hperm; rewrite Hperm; apply NoDup_seq).
  assert (Hslot : forall i x,
             seed_child donor point1 point2 !! i = Some (Some x) ->
             donor !! i = Some x).
  { intros i x Hi.
    assert (Hlt : (i < length donor)%nat).
    { rewrite <- (seed_child_length donor point1 point2) by lia.
      apply lookup_lt_is_Some. eexists. exact Hi. }
    rewrite seed_child_lookup in Hi by lia.
    destruct (decide _); inversion Hi as [Heq]. reflexivity. }
  split; [rewrite seed_child_length; lia |].
  split; [| split].
  - intros i x Hi. apply (is_permutation_elem n donor x Hperm).
    apply list_elem_of_lookup. exists i. apply Hslot, Hi.
  - intros i j x Hi Hj.
    exact (NoDup_lookup donor i j x Hnodup (Hslot i x Hi) (Hslot j x Hj)).
  - intros k Hk. lia.
Qed.

Lemma next_free_spec (child : list (option nat)) (pos i : nat) :
  (pos <= i)%nat -> child !! i = Some None ->
  exists pos',
    next_free child pos = Some pos' /\ (pos <= pos')%nat /\
    child !! pos' = Some None /\
    (forall k, (pos <= k < pos')%nat -> child !! k <> Some None).
Proof.
  intros Hle Hfree. unfold next_free.
  destruct (list_find (fun slot => slot = None) (drop pos child))
    as [[k slot] |] eqn:Hfind.
  - apply list_find_Some in Hfind. destruct Hfind as (Hk & -> & Hmin).
    rewrite lookup_drop in Hk.
    exists (pos + k)%nat. cbn. split; [reflexivity |].
    split; [lia |]. split; [exact Hk |].
    intros j Hj Hnone.
    apply (Hmin (j - pos)%nat None); [| lia | reflexivity].
    rewrite lookup_drop. replace (pos + (j - pos))%nat with j by lia.
    exact Hnone.
  - exfalso. apply list_find_None in Hfind.
    rewrite Forall_forall in Hfind. apply (Hfind None); [| reflexivity].
    apply list_elem_of_lookup. exists (i - pos)%nat.
    rewrite lookup_drop. replace (pos + (i - pos))%nat with i by lia.
    exact Hfree.
Qed.

Lemma all_filled (child : list (option nat)) :
  None ∉ child -> exists r : list nat, child = Some <$> r.
Proof.
  induction child as [| slot child IH]; intros Hnone.
  - exists []. reflexivity.
  - apply not_elem_of_cons in Hnone. destruct Hnone as [Hslot Hrest].
    destruct (IH Hrest) as [r ->].
    destruct slot as [x |]; [| contradiction Hslot; reflexivity].
    exists (x :: r). reflexivity.
Qed.

(** While an index below [n] is missing from the child, a slot is free,
    and it is not before [pos]. *)
Lemma free_slot_exists (n : nat) (child : list (option nat)) (pos gene : nat) :
  child_ok n child pos -> (gene < n)%nat -> Some gene ∉ child ->
  exists i, (pos <= i)%nat /\ child !! i = Some None.
Proof.
  intros (Hlen & Hbound & Hinj & Hpos) Hgene Hmissing.
  destruct (decide (None ∈ child)) as [Hfree | Hfull].
  - apply list_elem_of_lookup in Hfree. destruct Hfree as [i Hi].
    exists i. split; [| exact Hi].
    destruct (decide (pos <= i)%nat) as [Hle | Hlt]; [exact Hle |].
    exfalso. apply (Hpos i); [lia | exact Hi].
  - exfalso. destruct (all_filled child Hfull) as [r ->].
    apply Hmissing, list_elem_of_fmap_2.
    apply (is_permutation_elem n r gene); [| exact Hgene].
    apply pigeonhole_permutation.
    + apply NoDup_alt. intros i j x Hi Hj. apply (Hinj i j x);
        rewrite list_lookup_fmap; [rewrite Hi | rewrite Hj]; reflexivity.
    + intros x Hx. apply list_elem_of_lookup in Hx. destruct Hx as [i Hi].
      apply (Hbound i x). rewrite list_lookup_fmap, Hi. reflexivity.
    + rewrite length_fmap in Hlen. exact Hlen.
Qed.

Lemma place_gene_ok (n : nat) (child : list (option nat))
    (pos pos' gene : nat) :
  child_ok n child pos -> (gene < n)%nat -> Some gene ∉ child ->
  (pos <= pos')%nat -> child !! pos' = Some None ->
  (forall k, (pos <= k < pos')%nat -> child !! k <> Some None) ->
  child_ok n (<[pos' := Some gene]> child) pos'.
Proof.
  intros (Hlen & Hbound & Hinj & Hpos) Hgene Hmissing Hle Hfree Hskip.
  assert (Hlook : forall i x,
             <[pos' := Some gene]> child !! i = Some (Some x) ->
             i = pos' /\ x = gene \/ i <> pos' /\ child !! i = Some (Some x)).
  { intros i x. rewrite list_lookup_insert.
    destruct (decide (pos' = i /\ (pos' < length child)%nat)) as [[-> _] |].
    - intros Heq. inversion Heq. left. split; reflexivity.
    - intros Hi. right. split; [| exact Hi].
      intros ->. rewrite Hfree in Hi. discriminate. }
  split; [rewrite length_insert; exact Hlen |].
  split; [| split].
  - intros i x Hi. destruct (Hlook i x Hi) as [[_ ->] | [_ Hold]];
      [exact Hgene | exact (Hbound i x Hold)].
  - intros i j x Hi Hj.
    destruct (Hlook i x Hi) as [[Hip Hxi] | [Hni Holdi]];
      destruct (Hlook j x Hj) as [[Hjp Hxj] | [Hnj Holdj]].
    + congruence.
    + exfalso. subst x. apply Hmissing, list_elem_of_lookup.
      exists j. exact Holdj.
    + exfalso. subst x. apply Hmissing, list_elem_of_lookup.
      exists i. exact Holdi.
    + exact (Hinj i j x Holdi Holdj).
  - intros k Hk. rewrite list_lookup_insert.
    destruct (decide (pos' = k /\ (pos' < length child)%nat)) as [[-> _] |];
      [lia |].
    destruct (decide (k < pos)%nat); [apply Hpos; lia | apply Hskip; lia].
Qed.

(** The filling loop ends without an IndexError, keeps what the child
    holds and leaves every index of the filler in the child. *)
Lemma fill_child_spec (n : nat) (filler : list nat)
    (child : list (option nat)) (pos : nat) :
  child_ok n child pos -> (forall g, g ∈ filler -> (g < n)%nat) ->
  exists child',
    fill_child filler child pos = Some child' /\
    length child' = n /\
    (forall x, Some x ∈ child -> Some x ∈ child') /\
    (forall g, g ∈ filler -> Some g ∈ child').
Proof.
  revert child pos.
  induction filler as [| gene filler IH]; intros child pos Hok Hbound.
  - exists child. split; [reflexivity |]. split; [apply Hok |].
    split; [auto |]. intros g Hg. apply elem_of_nil in Hg. contradiction.
  - assert (Hrest : forall g, g ∈ filler -> (g < n)%nat)
      by (intros g Hg; apply Hbound, elem_of_cons; right; exact Hg).
    assert (Hgene : (gene < n)%nat)
      by (apply Hbound, elem_of_cons; left; reflexivity).
    cbn [fill_child].
    destruct (decide (Some gene ∈ child)) as [Hin | Hmissing].
    + destruct (IH child pos Hok Hrest) as (child' & Hrun & Hlen & Hkeep & Hall).
      exists child'. split; [exact Hrun |]. split; [exact Hlen |].
      split; [exact Hkeep |].
      intros g Hg. apply elem_of_cons in Hg. destruct Hg as [-> | Hg];
        [apply Hkeep, Hin | apply Hall, Hg].
    + destruct (free_slot_exists n child pos gene Hok Hgene Hmissing)
        as (i & Hi & Hfree).
      destruct (next_free_spec child pos i Hi Hfree)
        as (pos' & Hnext & Hle & Hfree' & Hskip).
      rewrite Hnext. cbn [mbind option_bind].
      pose proof (place_gene_ok n child pos pos' gene Hok Hgene Hmissing
                                Hle Hfree' Hskip) as Hok'.
      destruct (IH _ pos' Hok' Hrest) as (child' & Hrun & Hlen & Hkeep & Hall).
      assert (Hplaced : Some gene ∈ <[pos' := Some gene]> child).
      { apply list_elem_of_insert, lookup_lt_is_Some.
        eexists. exact Hfree'. }
      exists child'. split; [exact Hrun |]. split; [exact Hlen |].
      split.
      * intros x Hx. apply Hkeep.
        apply list_elem_of_lookup in Hx. destruct Hx as [k Hk].
        apply list_elem_of_lookup. exists k.
        rewrite list_lookup_insert_ne; [exact Hk |].
        intros ->. rewrite Hfree' in Hk. discriminate.
      * intros g Hg. apply elem_of_cons in Hg. destruct Hg as [-> | Hg];
          [apply Hkeep, Hplaced | apply Hall, Hg].
Qed.

(** One child of the order crossover of two permutations is a
    permutation. *)
Lemma make_child_permutation (n : nat) (donor filler : list nat)
    (point1 point2 : nat) :
  is_permutation n donor -> is_permutation n filler ->
  (point1 <= point2)%nat -> (point2 < n)%nat ->
  exists child,
    make_child donor filler point1 point2 = Some child /\
    is_permutation n child.
Proof.
  intros Hdonor Hfiller H12 H2. unfold make_child.
  destruct (fill_child_spec n filler (seed_child donor point1 point2) 0)
    as (slots & Hrun & Hlen & _ & Hall).
  { apply seed_child_ok; assumption. }
  { intros g Hg. apply (is_permutation_elem n filler g Hfiller), Hg. }
  rewrite Hrun. cbn [mbind option_bind].
  assert (Hcover : forall x, (x < n)%nat -> Some x ∈ slots)
    by (intros x Hx; apply Hall, (is_permutation_elem n filler x Hfiller), Hx).
  assert (Hfull : None ∉ slots).
  { intros Hnone.
    assert (Hperm : Some <$> seq 0 n ≡ₚ slots).
    { apply submseteq_length_Permutation.
      - apply NoDup_submseteq.
        + apply NoDup_fmap_2; [intros x y Hxy; congruence | apply NoDup_seq].
        + intros slot Hslot. apply list_elem_of_fmap in Hslot.
          destruct Hslot as (x & -> & Hx). apply elem_of_seq in Hx.
          apply Hcover. lia.
      - rewrite length_fmap, length_seq. lia. }
    rewrite <- Hperm in Hnone. apply list_elem_of_fmap in Hnone.
    destruct Hnone as (x & Hx & _). discriminate. }
  destruct (all_filled slots Hfull) as [child ->].
  exists child. split.
  - apply mapM_fmap_Some. reflexivity.
  - apply cover_permutation.
    + intros x Hx. specialize (Hcover x Hx).
      apply list_elem_of_fmap in Hcover. destruct Hcover as (y & Hy & Hin).
      inversion Hy. exact Hin.
    + rewrite length_fmap in Hlen. exact Hlen.
Qed.

Lemma crossover_at_permutations (n : nat) (parent1 parent2 : list nat)
    (point1 point2 : nat) :
  is_permutation n parent1 -> is_permutation n parent2 ->
  (point1 < n)%nat -> (point2 < n)%nat ->
  exists child1 child2,
    crossover_at parent1 parent2 point1 point2 = Some (child1, child2) /\
    is_permutation n child1 /\ is_permutation n child2.
Proof.
  intros Hp1 Hp2 H1 H2. unfold crossover_at.
  destruct (Nat.ltb_spec point2 point1) as [Hswap | Hkeep].
  - destruct (make_child_permutation n parent1 parent2 point2 point1)
      as (child1 & Hc1 & Hperm1); [assumption | assumption | lia | lia |].
    destruct (make_child_permutation n parent2 parent1 point2 point1)
      as (child2 & Hc2 & Hperm2); [assumption | assumption | lia | lia |].
    rewrite Hc1, Hc2. exists child1, child2. auto.
  - destruct (make_child_permutation n parent1 parent2 point1 point2)
      as (child1 & Hc1 & Hperm1); [assumption | assumption | lia | lia |].
    destruct (make_child_permutation n parent2 parent1 point1 point2)
      as (child2 & Hc2 & Hperm2); [assumption | assumption | lia | lia |].
    rewrite Hc1, Hc2. exists child1, child2. auto.
Qed.

End CrossoverProperties.

Section SearchMoves.
Context {gen : Type} `{RandomSpec gen}.

Lemma crossover_permutations (n : nat) (crossover_rate : Q)
    (parent1 parent2 : list nat) (g : gen) :
  is_permutation n parent1 -> is_permutation n parent2 ->
  (forall children g',
     GeneticAlgorithm.crossover crossover_rate parent1 parent2 g
     = Some (children, g') ->
     is_permutation n children.1 /\ is_permutation n children.2) /\
  ((1 <= n)%nat ->
   is_Some (GeneticAlgorithm.crossover crossover_rate parent1 parent2 g)).
Proof.
  intros Hp1 Hp2.
  pose proof (is_permutation_length n parent1 Hp1) as Hlen.
  unfold GeneticAlgorithm.crossover, mbind, M_bind, random.
  destruct (rand_float g) as [r g1].
  destruct (Qltb crossover_rate r).
  - split.
    + intros children g' Hrun. inversion Hrun. cbn. auto.
    + intros _. eexists. reflexivity.
  - unfold randint_below. rewrite Hlen.
    destruct n as [| b].
    + split; [discriminate | lia].
    + pose proof (rand_int_range 0 b g1 ltac:(lia)) as Hr1.
      destruct (rand_int 0 b g1) as [point1 g2]. cbn [fst] in Hr1.
      pose proof (rand_int_range 0 b g2 ltac:(lia)) as Hr2.
      destruct (rand_int 0 b g2) as [point2 g3]. cbn [fst] in Hr2.
      destruct (crossover_at_permutations (S b) parent1 parent2 point1 point2)
        as (child1 & child2 & Hrun & Hc1 & Hc2);
        [assumption | assumption | lia | lia |].
      unfold lift. rewrite Hrun. split.
      * intros children g' Heq. inversion Heq. cbn. auto.
      * intros _. eexists. reflexivity.
Qed.

Lemma sample_swap_permutation (n : nat) (a : list nat) (g : gen) :
  is_permutation n a ->
  (forall a' g',
     (sample2 (length a) ≫= fun '(idx1, idx2) => lift (swap a idx1 idx2)) g
     = Some (a', g') ->
     is_permutation n a') /\
  ((2 <= n)%nat ->
   is_Some ((sample2 (length a)
               ≫= fun '(idx1, idx2) => lift (swap a idx1 idx2)) g)).
Proof.
  intros Hperm.
  pose proof (is_permutation_length n a Hperm) as Hlen.
  unfold mbind, M_bind, sample2. rewrite Hlen.
  destruct (Nat.ltb_spec n 2) as [Hsmall | Hbig].
  - split; [discriminate | lia].
  - pose proof (rand_pair_range n g Hbig) as Hpair.
    destruct (rand_pair n g) as [[idx1 idx2] g1]. cbn [fst] in Hpair.
    destruct Hpair as (H1 & H2 & _).
    destruct (swap_total a idx1 idx2) as [a1 Hswap]; [lia | lia |].
    unfold lift. rewrite Hswap. split.
    + intros a' g' [= <- _].
      exact (swap_permutation n a a1 idx1 idx2 Hperm Hswap).
    + intros _. eexists. reflexivity.
Qed.

(** C6.  The move operators keep a route a permutation of the indices
    0..n-1.  For two such permutations and any two cut points, the order
    crossover returns two children that are permutations; whatever the
    generator draws, the children [crossover] returns are permutations, and
    it returns some when there is a location; the output of [mutate] and of
    the neighbour move of the annealing, the swap of two drawn positions,
    is a permutation, and both return one when there are two locations. *)
Theorem search_moves_preserve_permutations
    (n : nat) (crossover_rate mutation_rate : Q)
    (parent1 parent2 individual : list nat) :
  is_permutation n parent1 -> is_permutation n parent2 ->
  is_permutation n individual ->
  (forall point1 point2,
     (point1 < n)%nat -> (point2 < n)%nat ->
     exists child1 child2,
       GeneticAlgorithm.crossover_at parent1 parent2 point1 point2
       = Some (child1, child2) /\
       is_permutation n child1 /\ is_permutation n child2) /\
  (forall g : gen,
     (forall children g',
        GeneticAlgorithm.crossover crossover_rate parent1 parent2 g
        = Some (children, g') ->
        is_permutation n children.1 /\ is_permutation n children.2) /\
     ((1 <= n)%nat ->
      is_Some (GeneticAlgorithm.crossover crossover_rate parent1 parent2 g))) /\
  (forall g : gen,
     (forall mutated g',
        GeneticAlgorithm.mutate mutation_rate individual g
        = Some (mutated, g') ->
        is_permutation n mutated) /\
     ((2 <= n)%nat ->
      is_Some (GeneticAlgorithm.mutate mutation_rate individual g))) /\
  (forall g : gen,
     (forall neighbor g',
        SimulatedAnnealing.get_neighbor individual g = Some (neighbor, g') ->
        is_permutation n neighbor) /\
     ((2 <= n)%nat ->
      is_Some (SimulatedAnnealing.get_neighbor individual g))).
Proof.
  intros Hp1 Hp2 Hind. split; [| split; [| split]].
  - intros point1 point2 H1 H2.
    exact (crossover_at_permutations n parent1 parent2 point1 point2
             Hp1 Hp2 H1 H2).
  - intros g. exact (crossover_permutations n crossover_rate parent1 parent2 g
                       Hp1 Hp2).
  - intros g.
    pose proof (fun g1 => sample_swap_permutation n individual g1 Hind)
      as Hswap.
    unfold GeneticAlgorithm.mutate, random.
    unfold mbind, M_bind in Hswap |- *.
    destruct (rand_float g) as [r g1].
    destruct (Qltb mutation_rate r).
    + split.
      * intros mutated g' [= <- _]. exact Hind.
      * intros _. eexists. reflexivity.
    + exact (Hswap g1).
  - intros g. exact (sample_swap_permutation n individual g Hind).
Qed.

End SearchMoves.

(** The counter answers within the ranges the library promises. *)
Global Instance counter_RandomSpec : RandomSpec nat.
Proof.
  split.
  - intros g.
    change (rand_float g).1 with (inject_Z (Z.of_nat (g mod 10)) / 10).
    pose proof (Nat.mod_upper_bound g 10 ltac:(lia)) as Hlt.
    assert (H0 : 0 <= inject_Z (Z.of_nat (g mod 10)))
      by (change 0 with (inject_Z 0); rewrite <- Zle_Qle; lia).
    assert (H1 : inject_Z (Z.of_nat (g mod 10)) < 10)
      by (change 10 with (inject_Z 10); rewrite <- Zlt_Qlt; lia).
    split.
    + apply Qle_shift_div_l; lra.
    + apply Qlt_shift_div_r; lra.
  - intros a b g Hab.
    change (rand_int a b g).1 with (a + g mod S (b - a))%nat.
    pose proof (Nat.mod_upper_bound g (S (b - a)) ltac:(lia)). lia.
  - intros n g Hn.
    change (rand_pair n g).1 with (g mod n, S (g mod n) mod n)%nat.
    cbv beta iota.
    pose proof (Nat.mod_upper_bound g n ltac:(lia)) as Hi.
    pose proof (Nat.mod_upper_bound (S (g mod n)) n ltac:(lia)) as Hj.
    split; [exact Hi |]. split; [exact Hj |].
    set (i := (g mod n)%nat) in *.
    destruct (decide (S i = n)) as [Heq | Hne].
    + rewrite Heq, Nat.Div0.mod_same. clear Hj. lia.
    + rewrite Nat.mod_small by (clear Hj; lia). lia.
  - intros l g.
    change (rand_shuffle l g).1
      with (drop (g mod S (length l)) l ++ take (g mod S (length l)) l).
    rewrite Permutation_app_comm, take_drop. reflexivity.
Qed.

Lemma search_moves_preserve_permutations_witness :
  exists child1 child2,
    GeneticAlgorithm.crossover_at [0; 1; 2; 3]%nat [3; 1; 0; 2]%nat 1 2
    = Some (child1, child2) /\
    is_permutation 4 child1 /\ is_permutation 4 child2.
Proof.
  destruct (search_moves_preserve_permutations (gen := nat) 4 (4 # 5) (1 # 10)
              [0; 1; 2; 3]%nat [3; 1; 0; 2]%nat [2; 0; 3; 1]%nat)
    as [Hcross _];
    [unfold is_permutation; cbn; solve_Permutation
     | unfold is_permutation; cbn; solve_Permutation
     | unfold is_permutation; cbn; solve_Permutation |].
  apply (Hcross 1%nat 2%nat); lia.
Defined.

(** ** The order of fitness values *)

Lemma xlt_irrefl (a : xfloat) : xlt a a = false.
Proof.
  destruct a as [x |]; [| reflexivity]. cbn. apply Qltb_ge. apply Qle_refl.
Qed.

Lemma xle_refl (a : xfloat) : xle a a = true.
Proof. unfold xle. rewrite xlt_irrefl. reflexivity. Qed.

Lemma xlt_xle (a b : xfloat) : xlt a b = true -> xle a b = true.
Proof.
  unfold xle. destruct a as [x |], b as [y |]; cbn; try discriminate;
    try reflexivity.
  rewrite Qltb_lt, negb_true_iff, Qltb_ge. apply Qlt_le_weak.
Qed.

Lemma xle_trans (a b c : xfloat) :
  xle a b = true -> xle b c = true -> xle a c = true.
Proof.
  unfold xle. destruct a as [x |], b as [y |], c as [z |]; cbn;
    try discriminate; try reflexivity.
  rewrite !negb_true_iff, !Qltb_ge. apply Qle_trans.
Qed.

(** The smaller of a new value and the incumbent, as both searches keep
    it, is below both. *)
Lemma xlt_choice (new old : xfloat) :
  xle (if xlt new old then new else old) new = true /\
  xle (if xlt new old then new else old) old = true.
Proof.
  destruct (xlt new old) eqn:Hlt.
  - split; [apply xle_refl | apply xlt_xle, Hlt].
  - split; [unfold xle; rewrite Hlt; reflexivity | apply xle_refl].
Qed.

(** ** The cooling schedule *)

Section Cooling.
Variable rate floor : Q.
Hypothesis rate_range : 0 <= rate /\ rate < 1.
Hypothesis floor_positive : 0 < floor.

Lemma cooled_nonneg (k : nat) (T : Q) : 0 <= T -> 0 <= cooled rate k T.
Proof.
  revert T. induction k as [| k IH]; intros T HT; cbn [cooled].
  - exact HT.
  - apply IH. apply Qmult_le_0_compat; [exact HT | apply rate_range].
Qed.

Lemma cooled_le (k : nat) (T : Q) : 0 <= T -> cooled rate k T <= T.
Proof.
  revert T. induction k as [| k IH]; intros T HT; cbn [cooled].
  - apply Qle_refl.
  - assert (Hr : 0 <= T * rate)
      by (apply Qmult_le_0_compat; [exact HT | apply rate_range]).
    assert (Hs : 0 <= T * (1 - rate))
      by (apply Qmult_le_0_compat; destruct rate_range; lra).
    specialize (IH (T * rate) Hr). lra.
Qed.

(** Above the floor every cooling step takes off at least
    [floor * (1 - rate)]. *)
Lemma cooled_drop (k : nat) (T : Q) :
  0 <= T ->
  cooled rate k T <= floor \/
  cooled rate k T <= T - inject_Z (Z.of_nat k) * (floor * (1 - rate)).
Proof.
  revert T. induction k as [| k IH]; intros T HT.
  - right. cbn [cooled]. change (inject_Z (Z.of_nat 0)) with 0. lra.
  - cbn [cooled].
    assert (Hr : 0 <= T * rate)
      by (apply Qmult_le_0_compat; [exact HT | apply rate_range]).
    destruct (Qlt_le_dec floor T) as [Hhot | Hcold].
    + destruct (IH (T * rate) Hr) as [Hdone | Hdrop]; [left; exact Hdone |].
      right. rewrite Nat2Z.inj_succ. unfold Z.succ. rewrite inject_Z_plus.
      change (inject_Z 1) with 1.
      assert (Hstep : floor * (1 - rate) <= T * (1 - rate)).
      { apply Qmult_le_compat_r; [apply Qlt_le_weak, Hhot |].
        destruct rate_range. lra. }
      lra.
    + left. pose proof (cooled_le k (T * rate) Hr) as Hle.
      assert (Hs : 0 <= T * (1 - rate))
        by (apply Qmult_le_0_compat; destruct rate_range; lra).
      lra.
Qed.

(** The temperature falls to the floor after finitely many cooling
    steps. *)
Lemma cooled_reaches_floor (T : Q) : exists k, cooled rate k T <= floor.
Proof.
  destruct (Qlt_le_dec T 0) as [Hneg | HT].
  - exists 0%nat. cbn [cooled]. lra.
  - set (delta := floor * (1 - rate)).
    assert (Hdelta : 0 < delta).
    { unfold delta. apply Qmult_lt_0_compat; [exact floor_positive |].
      destruct rate_range. lra. }
    set (x := (T - floor) / delta).
    exists (Z.to_nat (Qceiling x)).
    destruct (cooled_drop (Z.to_nat (Qceiling x)) T HT) as [Hdone | Hdrop];
      [exact Hdone |].
    fold delta in Hdrop.
    pose proof (Qle_ceiling x) as Hceil.
    assert (Hk : inject_Z (Qceiling x) <= inject_Z (Z.of_nat (Z.to_nat (Qceiling x)))).
    { rewrite <- Zle_Qle. lia. }
    assert (Hx : x * delta == T - floor) by (unfold x; field; lra).
    assert (Hmul : x * delta
                   <= inject_Z (Z.of_nat (Z.to_nat (Qceiling x))) * delta).
    { apply Qmult_le_compat_r; [lra | apply Qlt_le_weak, Hdelta]. }
    lra.
Qed.

End Cooling.

(** ** The annealing search *)

Section AnnealingProperties.
Import SimulatedAnnealing.
Context {gen : Type} `{Random gen}.

Variable locations : list Location.
Variable formula : Q -> Q -> Q -> Q -> Q.
Variable avg_speed : Q.
Variable start_time : time.
Variable initial_temperature cooling_rate min_temperature : Q.
Variable iterations_per_temp : nat.
Variable exp : Q -> Q.

Abbreviation step := (step locations formula avg_speed start_time exp).
Abbreviation steps := (steps locations formula avg_speed start_time exp).
Abbreviation anneal :=
  (anneal locations formula avg_speed start_time cooling_rate min_temperature
          iterations_per_temp exp).

(** One iteration replaces the incumbent only by a current solution of
    strictly smaller fitness, and leaves the temperature alone. *)
Lemma step_incumbent (s s' : state) (g g' : gen) :
  step s g = Some (s', g') ->
  temperature s' = temperature s /\
  (best_solution s' = best_solution s \/
   best_solution s' = current_solution s' /\
   xlt (fitness (current_solution s')) (fitness (best_solution s)) = true).
Proof.
  unfold SimulatedAnnealing.step, mbind, M_bind, lift, random.
  destruct (get_neighbor (current_route s) g) as [[neighbor_route g1] |];
    [| discriminate].
  destruct (evaluate_route locations formula avg_speed start_time
              neighbor_route) as [neighbor_solution |]; [| discriminate].
  destruct (acceptance_probability exp _ _ _) as [p |]; [| discriminate].
  destruct (rand_float g1) as [r g2]. cbv zeta.
  destruct (xlt (Fin r) p);
    cbn [current_solution best_solution current_route temperature iteration];
    destruct (xlt _ _) eqn:Hbetter; intros [= <- _];
    cbn [current_solution best_solution temperature];
    (split; [reflexivity |]);
    [right; split; [reflexivity | exact Hbetter] | left; reflexivity
     | right; split; [reflexivity | exact Hbetter] | left; reflexivity].
Qed.

Lemma step_not_worse (s s' : state) (g g' : gen) :
  step s g = Some (s', g') ->
  temperature s' = temperature s /\
  xle (fitness (best_solution s')) (fitness (best_solution s)) = true.
Proof.
  intros Hstep. destruct (step_incumbent s s' g g' Hstep) as [HT Hbest].
  split; [exact HT |].
  destruct Hbest as [-> | [-> Hlt]]; [apply xle_refl | apply xlt_xle, Hlt].
Qed.

Lemma steps_not_worse (count : nat) (s s' : state) (g g' : gen) :
  steps count s g = Some (s', g') ->
  temperature s' = temperature s /\
  xle (fitness (best_solution s')) (fitness (best_solution s)) = true.
Proof.
  revert s g. induction count as [| count IH]; intros s g.
  - intros [= <- _]. split; [reflexivity | apply xle_refl].
  - cbn [SimulatedAnnealing.steps]. unfold mbind, M_bind.
    destruct (step s g) as [[s1 g1] |] eqn:Hstep; [| discriminate].
    intros Hrest.
    destruct (step_not_worse s s1 g g1 Hstep) as [HT1 Hle1].
    destruct (IH s1 g1 Hrest) as [HT2 Hle2].
    split; [congruence | exact (xle_trans _ _ _ Hle2 Hle1)].
Qed.

(** The loop ends only at a temperature not above the minimum, and with an
    incumbent not worse than the one it started from. *)
Lemma anneal_returned (fuel : nat) (s s' : state) (g g' : gen) :
  anneal fuel s g = Returned (s', g') ->
  temperature s' <= min_temperature /\
  xle (fitness (best_solution s')) (fitness (best_solution s)) = true.
Proof.
  revert s g. induction fuel as [| fuel IH]; intros s g;
    cbn [SimulatedAnnealing.anneal];
    destruct (Qltb min_temperature (temperature s)) eqn:Hhot.
  - discriminate.
  - intros [= <- _]. split; [apply Qltb_ge, Hhot | apply xle_refl].
  - destruct (steps iterations_per_temp s g) as [[s1 g1] |] eqn:Hsteps;
      [| discriminate].
    intros Hrest. destruct (IH _ _ Hrest) as [HT Hle].
    split; [exact HT |].
    destruct (steps_not_worse _ _ _ _ _ Hsteps) as [_ Hle1].
    exact (xle_trans _ _ _ Hle Hle1).
  - intros [= <- _]. split; [apply Qltb_ge, Hhot | apply xle_refl].
Qed.

End AnnealingProperties.

Section AnnealingRuns.
Import SimulatedAnnealing.
Context {gen : Type} `{RandomSpec gen}.

Variable locations : list Location.
Variable formula : Q -> Q -> Q -> Q -> Q.
Variable avg_speed : Q.
Variable start_time : time.
Variable initial_temperature cooling_rate min_temperature : Q.
Variable iterations_per_temp : nat.
Variable exp : Q -> Q.

Abbreviation n := (length locations).
Abbreviation evaluate :=
  (ConstraintChecker.evaluate_route locations formula avg_speed start_time).
Abbreviation step := (step locations formula avg_speed start_time exp).
Abbreviation steps := (steps locations formula avg_speed start_time exp).
Abbreviation anneal :=
  (anneal locations formula avg_speed start_time cooling_rate min_temperature
          iterations_per_temp exp).
Abbreviation optimize :=
  (optimize locations formula avg_speed start_time initial_temperature
            cooling_rate min_temperature iterations_per_temp exp).

Hypothesis speed_nonzero : ~ avg_speed == 0.

(** A permutation of the location indices is evaluated without an
    exception. *)
Lemma evaluate_permutation (r : list nat) :
  is_permutation n r -> exists solution, evaluate r = Some solution.
Proof.
  intros Hperm.
  assert (Hvalid : valid_route locations r).
  { apply Forall_forall. intros x Hx.
    apply (is_permutation_elem n r x Hperm), Hx. }
  destruct (simulate_total locations formula avg_speed start_time r
              (ConstraintChecker.mk_sim 0 0 [] 0) Hvalid speed_nonzero)
    as [s Hs].
  destruct r as [| location_idx rest]; [eexists; reflexivity |].
  unfold ConstraintChecker.evaluate_route. rewrite Hs.
  eexists. reflexivity.
Qed.

Lemma acceptance_total (current_fitness new_fitness : xfloat) (T : Q) :
  ~ T == 0 ->
  is_Some (acceptance_probability exp current_fitness new_fitness T).
Proof.
  intros HT. unfold acceptance_probability.
  destruct (xlt new_fitness current_fitness); [eexists; reflexivity |].
  destruct (Qeq_bool T 0) eqn:Hzero;
    [apply Qeq_bool_iff in Hzero; contradiction |].
  destruct new_fitness, current_fitness; try (eexists; reflexivity).
  destruct (Qltb 0 T); eexists; reflexivity.
Qed.

Lemma step_total (s : state) (g : gen) :
  (2 <= n)%nat -> is_permutation n (current_route s) ->
  ~ temperature s == 0 ->
  exists s' g',
    step s g = Some (s', g') /\ is_permutation n (current_route s').
Proof.
  intros Hn Hperm HT.
  destruct (sample_swap_permutation n (current_route s) g Hperm)
    as [Hkeep Hsome].
  destruct (Hsome Hn) as [[neighbor_route g1] Hneighbor].
  pose proof (Hkeep _ _ Hneighbor) as Hperm1.
  change (get_neighbor (current_route s) g = Some (neighbor_route, g1))
    in Hneighbor.
  destruct (evaluate_permutation neighbor_route Hperm1)
    as [neighbor_solution Heval].
  destruct (acceptance_total (fitness (current_solution s))
              (fitness neighbor_solution) (temperature s) HT) as [p Hp].
  unfold SimulatedAnnealing.step, mbind, M_bind, lift, random.
  rewrite Hneighbor. unfold evaluate_route. rewrite Heval, Hp.
  destruct (rand_float g1) as [r g2]. cbv zeta.
  eexists. eexists. split; [reflexivity |].
  destruct (xlt (Fin r) p);
    cbn [current_solution best_solution current_route];
    destruct (xlt _ _); cbn [current_route]; assumption.
Qed.

Lemma steps_total (count : nat) (s : state) (g : gen) :
  (2 <= n)%nat -> is_permutation n (current_route s) ->
  ~ temperature s == 0 ->
  exists s' g',
    steps count s g = Some (s', g') /\ is_permutation n (current_route s').
Proof.
  intros Hn. revert s g.
  induction count as [| count IH]; intros s g Hperm HT.
  - exists s, g. split; [reflexivity | exact Hperm].
  - destruct (step_total s g Hn Hperm HT) as (s1 & g1 & Hstep & Hperm1).
    destruct (step_incumbent _ _ _ _ _ _ _ _ _ Hstep) as [HT1 _].
    destruct (IH s1 g1 Hperm1) as (s' & g' & Hrest & Hperm');
      [rewrite HT1; exact HT |].
    exists s', g'. split; [| exact Hperm'].
    cbn [SimulatedAnnealing.steps]. unfold mbind, M_bind.
    rewrite Hstep. exact Hrest.
Qed.

(** With fuel for as many cooling steps as the schedule needs, the loop
    returns. *)
Lemma anneal_total (k fuel : nat) (s : state) (g : gen) :
  (2 <= n)%nat -> 0 <= min_temperature ->
  is_permutation n (current_route s) ->
  cooled cooling_rate k (temperature s) <= min_temperature ->
  (k <= fuel)%nat ->
  exists s' g', anneal fuel s g = Returned (s', g').
Proof.
  intros Hn Hmin. revert fuel s g.
  induction k as [| k IH]; intros fuel s g Hperm Hcool Hfuel.
  - cbn [cooled] in Hcool.
    assert (Hcold : Qltb min_temperature (temperature s) = false)
      by (apply Qltb_ge; exact Hcool).
    destruct fuel; cbn [SimulatedAnnealing.anneal]; rewrite Hcold;
      eexists; eexists; reflexivity.
  - destruct fuel as [| fuel]; [lia |].
    cbn [SimulatedAnnealing.anneal].
    destruct (Qltb min_temperature (temperature s)) eqn:Hhot;
      [| eexists; eexists; reflexivity].
    apply Qltb_lt in Hhot.
    destruct (steps_total iterations_per_temp s g Hn Hperm)
      as (s1 & g1 & Hsteps & Hperm1); [lra |].
    rewrite Hsteps.
    destruct (steps_not_worse _ _ _ _ _ _ _ _ _ _ Hsteps) as [HT1 _].
    apply IH; [exact Hperm1 | | lia].
    cbn [cool temperature]. rewrite HT1. exact Hcool.
Qed.

Lemma optimize_total (g : gen) :
  (2 <= n)%nat -> 0 <= cooling_rate /\ cooling_rate < 1 ->
  0 < min_temperature ->
  exists k, forall fuel,
    (k <= fuel)%nat ->
    exists solution g', optimize fuel g = Returned (solution, g').
Proof.
  intros Hn Hrate Hmin.
  destruct (cooled_reaches_floor cooling_rate min_temperature Hrate Hmin
              initial_temperature) as [k Hk].
  exists k. intros fuel Hfuel.
  unfold SimulatedAnnealing.optimize, initial_state, mbind, M_bind, lift,
    create_initial_solution, shuffled_range.
  pose proof (rand_shuffle_perm (seq 0 (num_locations locations)) g) as Hperm.
  destruct (rand_shuffle (seq 0 (num_locations locations)) g)
    as [current_route g1].
  cbn [fst] in Hperm.
  destruct (evaluate_permutation current_route Hperm) as [solution Heval].
  unfold evaluate_route. rewrite Heval. cbn [mret M_ret].
  destruct (anneal_total k fuel
              (mk_state current_route solution current_route solution
                        initial_temperature 0) g1)
    as (s' & g' & Hrun);
    [exact Hn | apply Qlt_le_weak, Hmin | exact Hperm | exact Hk
     | exact Hfuel |].
  rewrite Hrun. eexists. eexists. reflexivity.
Qed.

End AnnealingRuns.

Section AnnealingClaim.
Import SimulatedAnnealing.
Context {gen : Type} `{RandomSpec gen}.

Variable locations : list Location.
Variable formula : Q -> Q -> Q -> Q -> Q.
Variable avg_speed : Q.
Variable start_time : time.
Variable initial_temperature cooling_rate min_temperature : Q.
Variable iterations_per_temp : nat.
Variable exp : Q -> Q.

Abbreviation step := (step locations formula avg_speed start_time exp).
Abbreviation steps := (steps locations formula avg_speed start_time exp).
Abbreviation anneal :=
  (anneal locations formula avg_speed start_time cooling_rate min_temperature
          iterations_per_temp exp).
Abbreviation initial_state :=
  (initial_state (gen := gen) locations formula avg_speed start_time
                 initial_temperature).
Abbreviation optimize :=
  (optimize locations formula avg_speed start_time initial_temperature
            cooling_rate min_temperature iterations_per_temp exp).

(** C7.  Whatever the generator draws: an iteration of the annealing loop
    leaves the best-ever solution as it is or replaces it by the current
    solution, and this only when the current fitness is strictly below the
    best-ever fitness; so the best-ever fitness does not increase over an
    iteration, over the iterations at one temperature, or over the whole
    loop.  When [optimize] returns, the loop has ended at a temperature not
    above the minimum and the value returned is the best-ever solution of
    its last state, not worse than the first solution.  With two locations
    or more, a non-zero speed, a cooling rate in [0, 1) and a positive
    minimum temperature, [optimize] returns once it is given fuel for the
    cooling steps the schedule needs. *)
Theorem annealing_keeps_incumbent :
  (forall s g s' g',
     step s g = Some (s', g') ->
     (best_solution s' = best_solution s \/
      best_solution s' = current_solution s' /\
      xlt (fitness (current_solution s')) (fitness (best_solution s)) = true)
     /\
     xle (fitness (best_solution s')) (fitness (best_solution s)) = true) /\
  (forall count s g s' g',
     steps count s g = Some (s', g') ->
     xle (fitness (best_solution s')) (fitness (best_solution s)) = true) /\
  (forall fuel s g s' g',
     anneal fuel s g = Returned (s', g') ->
     temperature s' <= min_temperature /\
     xle (fitness (best_solution s')) (fitness (best_solution s)) = true) /\
  (forall fuel g solution g',
     optimize fuel g = Returned (solution, g') ->
     exists s0 g0 s',
       initial_state g = Some (s0, g0) /\
       anneal fuel s0 g0 = Returned (s', g') /\
       solution = best_solution s' /\
       temperature s' <= min_temperature /\
       xle (fitness solution) (fitness (best_solution s0)) = true) /\
  ((2 <= length locations)%nat -> ~ avg_speed == 0 ->
   0 <= cooling_rate /\ cooling_rate < 1 -> 0 < min_temperature ->
   forall g, exists k, forall fuel,
     (k <= fuel)%nat ->
     exists solution g', optimize fuel g = Returned (solution, g')).
Proof.
  split; [| split; [| split; [| split]]].
  - intros s g s' g' Hstep. split.
    + apply (step_incumbent _ _ _ _ _ _ _ _ _ Hstep).
    + apply (step_not_worse _ _ _ _ _ _ _ _ _ Hstep).
  - intros count s g s' g' Hsteps.
    apply (steps_not_worse _ _ _ _ _ _ _ _ _ _ Hsteps).
  - intros fuel s g s' g' Hrun.
    exact (anneal_returned _ _ _ _ _ _ _ _ _ _ _ _ _ Hrun).
  - intros fuel g solution g'. unfold SimulatedAnnealing.optimize.
    destruct (initial_state g) as [[s0 g0] |]; [| discriminate].
    destruct (anneal fuel s0 g0) as [[s' g''] | |] eqn:Hrun;
      try discriminate.
    intros [= <- <-].
    destruct (anneal_returned _ _ _ _ _ _ _ _ _ _ _ _ _ Hrun) as [HT Hle].
    exists s0, g0, s'. auto.
  - intros Hn Hspeed Hrate Hmin g.
    exact (optimize_total locations formula avg_speed start_time
             initial_temperature cooling_rate min_temperature
             iterations_per_temp exp Hspeed g Hn Hrate Hmin).
Qed.

End AnnealingClaim.

(** ** The genetic search *)

Section RankingProperties.
Import GeneticAlgorithm.

Lemma elem_of_insert_ranked (x z : xfloat * list nat)
    (l : list (xfloat * list nat)) :
  z ∈ insert_ranked x l <-> z = x \/ z ∈ l.
Proof.
  induction l as [| y l IH]; cbn [insert_ranked].
  - rewrite list_elem_of_singleton, elem_of_nil. tauto.
  - destruct (xle x.1 y.1).
    + rewrite elem_of_cons. reflexivity.
    + rewrite !elem_of_cons, IH. tauto.
Qed.

Lemma elem_of_sorted_by_fitness (z : xfloat * list nat)
    (l : list (xfloat * list nat)) :
  z ∈ sorted_by_fitness l <-> z ∈ l.
Proof.
  unfold sorted_by_fitness. induction l as [| x l IH]; cbn [foldr].
  - reflexivity.
  - rewrite elem_of_insert_ranked, elem_of_cons, IH. reflexivity.
Qed.

(** The first entry of the ranking is an entry of the least fitness. *)
Lemma sorted_by_fitness_head (l : list (xfloat * list nat))
    (best : xfloat * list nat) :
  head (sorted_by_fitness l) = Some best ->
  best ∈ l /\ forall z, z ∈ l -> xle best.1 z.1 = true.
Proof.
  revert best. unfold sorted_by_fitness.
  induction l as [| x l IH]; intros best; cbn [foldr]; [discriminate |].
  fold (sorted_by_fitness l) in *.
  destruct (sorted_by_fitness l) as [| y ranked] eqn:Hsorted;
    cbn [insert_ranked].
  - intros [= <-]. split; [apply elem_of_cons; left; reflexivity |].
    intros z Hz. apply elem_of_cons in Hz. destruct Hz as [-> | Hz].
    + apply xle_refl.
    + apply elem_of_sorted_by_fitness in Hz. rewrite Hsorted in Hz.
      apply elem_of_nil in Hz. contradiction.
  - destruct (IH y eq_refl) as [Hy Hmin].
    destruct (xle x.1 y.1) eqn:Hxy; intros [= <-].
    + split; [apply elem_of_cons; left; reflexivity |].
      intros z Hz. apply elem_of_cons in Hz. destruct Hz as [-> | Hz].
      * apply xle_refl.
      * exact (xle_trans _ _ _ Hxy (Hmin z Hz)).
    + split; [apply elem_of_cons; right; exact Hy |].
      intros z Hz. apply elem_of_cons in Hz. destruct Hz as [-> | Hz].
      * apply xlt_xle. unfold xle in Hxy.
        apply negb_false_iff in Hxy. exact Hxy.
      * exact (Hmin z Hz).
Qed.

End RankingProperties.

Section GeneticProperties.
Import GeneticAlgorithm.
Context {gen : Type} `{Random gen}.

Variable locations : list Location.
Variable formula : Q -> Q -> Q -> Q -> Q.
Variable avg_speed : Q.
Variable start_time : time.
Variable population_size generations : nat.
Variable mutation_rate crossover_rate : Q.
Variable elite_size : nat.

Abbreviation evaluate_route :=
  (evaluate_route locations formula avg_speed start_time).
Abbreviation fitness_of := (fitness_of locations formula avg_speed start_time).
Abbreviation rank_population :=
  (rank_population locations formula avg_speed start_time).
Abbreviation evolve :=
  (evolve (gen := gen) locations formula avg_speed start_time population_size
          mutation_rate crossover_rate elite_size).
Abbreviation generation_step :=
  (generation_step (gen := gen) locations formula avg_speed start_time
                   population_size mutation_rate crossover_rate elite_size).
Abbreviation run_generations :=
  (run_generations (gen := gen) locations formula avg_speed start_time
                   population_size mutation_rate crossover_rate elite_size).
Abbreviation evolved_from :=
  (evolved (gen := gen) locations formula avg_speed start_time population_size
           mutation_rate crossover_rate elite_size).

(** The head of the ranking of a population is one of its individuals,
    with its fitness, and no individual has a smaller fitness. *)
Lemma rank_population_head (population : list (list nat))
    (ranked : list (xfloat * list nat)) (f0 : xfloat) (ind0 : list nat) :
  rank_population population = Some ranked ->
  head ranked = Some (f0, ind0) ->
  ind0 ∈ population /\ fitness_of ind0 = Some f0 /\
  forall ind, ind ∈ population ->
              exists f, fitness_of ind = Some f /\ xle f0 f = true.
Proof.
  unfold GeneticAlgorithm.rank_population.
  destruct (mapM _ population) as [results |] eqn:Hmap; [| discriminate].
  cbn [mbind option_bind]. intros [= <-] Hhead.
  apply mapM_Some in Hmap.
  destruct (sorted_by_fitness_head results (f0, ind0) Hhead) as [Hin Hmin].
  assert (Hentry : forall z, z ∈ results ->
                             z.2 ∈ population /\ fitness_of z.2 = Some z.1).
  { intros z Hz. apply list_elem_of_lookup in Hz. destruct Hz as [i Hi].
    destruct (Forall2_lookup_r _ _ _ _ _ Hmap Hi) as (ind & Hind & Hfit).
    destruct (fitness_of ind) as [f |] eqn:Hf; [| discriminate].
    cbn in Hfit. inversion Hfit; subst z. cbn [fst snd].
    split; [| exact Hf]. apply list_elem_of_lookup. exists i. exact Hind. }
  destruct (Hentry (f0, ind0) Hin) as [Hpop Hfit0]. cbn [fst snd] in *.
  split; [exact Hpop |]. split; [exact Hfit0 |].
  intros ind Hind.
  apply list_elem_of_lookup in Hind. destruct Hind as [i Hi].
  destruct (Forall2_lookup_l _ _ _ _ _ Hmap Hi) as (z & Hz & Hfit).
  destruct (fitness_of ind) as [f |] eqn:Hf; [| discriminate].
  cbn in Hfit. inversion Hfit; subst z.
  exists f. split; [reflexivity |].
  apply (Hmin (f, ind)). apply list_elem_of_lookup. exists i. exact Hz.
Qed.

(** One generation: the population is evolved once; the best fitness
    kept is not above the former one nor above the fitness of any
    individual of the new population; and the best solution kept is the
    former one, or the evaluation of an individual of the new population. *)
Lemma generation_step_spec (s s1 : search) (g g1 : gen) :
  generation_step s g = Some (s1, g1) ->
  evolve (cur_population s) g = Some (cur_population s1, g1) /\
  xle (best_fitness s1) (best_fitness s) = true /\
  (forall ind, ind ∈ cur_population s1 ->
               exists f, fitness_of ind = Some f /\
                         xle (best_fitness s1) f = true) /\
  (best_solution s1 = best_solution s /\ best_fitness s1 = best_fitness s \/
   exists ind solution,
     ind ∈ cur_population s1 /\ evaluate_route ind = Some solution /\
     best_solution s1 = Some solution /\
     best_fitness s1 = fitness solution).
Proof.
  unfold GeneticAlgorithm.generation_step, mbind at 1, M_bind at 1.
  destruct (evolve (cur_population s) g) as [[population g2] |];
    [| discriminate].
  unfold mbind at 1, M_bind at 1, lift at 1.
  destruct (rank_population population) as [ranked |] eqn:Hrank;
    [| discriminate].
  unfold mbind at 1, M_bind at 1, lift at 1.
  destruct (head ranked) as [[f0 ind0] |] eqn:Hhead; [| discriminate].
  destruct (rank_population_head population ranked f0 ind0 Hrank Hhead)
    as (Hpop & Hfit0 & Hmin).
  destruct (xlt f0 (best_fitness s)) eqn:Hbetter.
  - unfold mbind, M_bind, lift.
    unfold GeneticAlgorithm.fitness_of in Hfit0.
    destruct (evaluate_route ind0) as [solution |] eqn:Heval;
      [| discriminate].
    cbn in Hfit0. inversion Hfit0 as [Hf0].
    intros [= <- <-]. cbn [cur_population best_fitness best_solution].
    split; [reflexivity |]. split; [apply xlt_xle; rewrite Hf0; exact Hbetter |].
    split; [rewrite Hf0; exact Hmin |].
    right. exists ind0, solution. rewrite Hf0. auto.
  - intros [= <- <-]. cbn [cur_population best_fitness best_solution].
    split; [reflexivity |]. split; [apply xle_refl |].
    split; [| left; split; reflexivity].
    intros ind Hind. destruct (Hmin ind Hind) as (f & Hf & Hle).
    exists f. split; [exact Hf |].
    apply (xle_trans _ f0); [| exact Hle].
    unfold xle. rewrite Hbetter. reflexivity.
Qed.

Lemma evolved_succ (k : nat) (population population1 : list (list nat))
    (g g1 : gen) :
  evolve population g = Some (population1, g1) ->
  evolved_from (S k) population g = evolved_from k population1 g1.
Proof.
  intros Hevolve. cbn [evolved]. unfold mbind, M_bind.
  rewrite Hevolve. reflexivity.
Qed.

(** The loop over the generations. *)
Lemma run_generations_spec (count : nat) (s s' : search) (g g' : gen) :
  run_generations count s g = Some (s', g') ->
  evolved_from count (cur_population s) g = Some (cur_population s', g') /\
  xle (best_fitness s') (best_fitness s) = true /\
  (forall k, (k <= count)%nat ->
             is_Some (evolved_from k (cur_population s) g)) /\
  (forall k population gk ind,
     (1 <= k <= count)%nat ->
     evolved_from k (cur_population s) g = Some (population, gk) ->
     ind ∈ population ->
     exists f, fitness_of ind = Some f /\ xle (best_fitness s') f = true) /\
  (best_solution s' = best_solution s /\ best_fitness s' = best_fitness s \/
   exists k population gk ind solution,
     (1 <= k <= count)%nat /\
     evolved_from k (cur_population s) g = Some (population, gk) /\
     ind ∈ population /\ evaluate_route ind = Some solution /\
     best_solution s' = Some solution /\
     best_fitness s' = fitness solution).
Proof.
  revert s g. induction count as [| count IH]; intros s g.
  - intros [= <- <-].
    split; [reflexivity |]. split; [apply xle_refl |].
    split; [intros k Hk; replace k with 0%nat by lia; eexists; reflexivity |].
    split; [intros k population gk ind Hk; lia |].
    left. split; reflexivity.
  - cbn [GeneticAlgorithm.run_generations]. unfold mbind, M_bind.
    destruct (generation_step s g) as [[s1 g1] |] eqn:Hstep; [| discriminate].
    intros Hrest.
    destruct (generation_step_spec s s1 g g1 Hstep)
      as (Hevolve & Hle1 & Hmin1 & Hbest1).
    destruct (IH s1 g1 Hrest) as (Hpop & Hle & Hdef & Hmin & Hbest).
    split; [rewrite (evolved_succ _ _ _ _ _ Hevolve); exact Hpop |].
    split; [exact (xle_trans _ _ _ Hle Hle1) |].
    split.
    { intros [| k] Hk; [eexists; reflexivity |].
      rewrite (evolved_succ _ _ _ _ _ Hevolve). apply Hdef. lia. }
    split.
    { intros [| k] population gk ind Hk; [lia |].
      rewrite (evolved_succ _ _ _ _ _ Hevolve).
      destruct k as [| k].
      - intros [= <- _] Hind.
        destruct (Hmin1 ind Hind) as (f & Hf & Hlef).
        exists f. split; [exact Hf | exact (xle_trans _ _ _ Hle Hlef)].
      - intros Hk' Hind. apply (Hmin (S k) population gk ind); [lia | | ];
          assumption. }
    destruct Hbest as [[Hsol Hfit] | (k & population & gk & ind & solution
                                       & Hk & Hgen & Hind & Heval & Hsol & Hfit)].
    + destruct Hbest1 as [[Hsol1 Hfit1] | (ind & solution & Hind & Heval
                                            & Hsol1 & Hfit1)].
      * left. split; congruence.
      * right. exists 1%nat, (cur_population s1), g1, ind, solution.
        split; [lia |].
        split; [rewrite (evolved_succ _ _ _ _ _ Hevolve); reflexivity |].
        split; [exact Hind |]. split; [exact Heval |].
        split; congruence.
    + right. exists (S k), population, gk, ind, solution.
      split; [lia |].
      split; [rewrite (evolved_succ _ _ _ _ _ Hevolve); exact Hgen |].
      auto.
Qed.

Abbreviation generation_at :=
  (generation (gen := gen) locations formula avg_speed start_time
              population_size mutation_rate crossover_rate elite_size).
Abbreviation optimize :=
  (optimize (gen := gen) locations formula avg_speed start_time
            population_size generations mutation_rate crossover_rate
            elite_size).

(** When the search runs at least one generation and returns a solution,
    this solution is the evaluation of an individual of one of the
    generations, and no individual of any generation has a smaller
    fitness. *)
Lemma optimize_best_ever
    (g g' : gen) (solution : RouteSolution) :
  (1 <= generations)%nat ->
  optimize g = Some (solution, g') ->
  (forall k,
     (1 <= k <= generations)%nat ->
     exists population gk,
       generation_at k g = Some (population, gk) /\
       forall ind, ind ∈ population ->
         exists f, fitness_of ind = Some f /\
                   xle (fitness solution) f = true) /\
  (exists k population gk ind,
     (1 <= k <= generations)%nat /\
     generation_at k g = Some (population, gk) /\
     ind ∈ population /\ evaluate_route ind = Some solution).
Proof.
  intros Hgen.
  assert (Hcreated : exists population0 g0,
             create_population locations population_size g
             = Some (population0, g0) \/
             optimize g = None).
  { destruct (create_population (gen := gen) locations population_size g)
      as [[population0 g0] |] eqn:Hcreate.
    - exists population0, g0. left. reflexivity.
    - exists [], g. right. unfold GeneticAlgorithm.optimize, mbind, M_bind.
      rewrite Hcreate. reflexivity. }
  destruct Hcreated as (population0 & g0 & [Hcreate | Hnone]);
    [| rewrite Hnone; discriminate].
  assert (Hat : forall k, generation_at k g = evolved_from k population0 g0).
  { intros k. unfold generation, mbind, M_bind. rewrite Hcreate.
    reflexivity. }
  unfold GeneticAlgorithm.optimize. unfold mbind at 1, M_bind at 1.
  rewrite Hcreate. unfold mbind at 1, M_bind at 1.
  destruct (run_generations generations (mk_search population0 None Inf) g0)
    as [[s g1] |] eqn:Hrun; [| discriminate].
  destruct (run_generations_spec _ _ _ _ _ Hrun)
    as (Hlast & _ & Hdef & Hmin & Hbest).
  cbn [cur_population best_solution best_fitness] in Hlast, Hdef, Hmin, Hbest.
  destruct (best_solution s) as [best |] eqn:Hsol.
  - intros [= <- <-].
    destruct Hbest as [[Hnone _] | (k & population & gk & ind & solution
                                     & Hk & Hpop & Hind & Heval & Hsome & Hfit)];
      [discriminate |].
    inversion Hsome; subst solution. split.
    + intros k' Hk'.
      destruct (Hdef k' ltac:(lia)) as [[population' gk'] Hpop'].
      exists population', gk'. split; [rewrite Hat; exact Hpop' |].
      intros ind' Hind'. rewrite <- Hfit.
      exact (Hmin k' population' gk' ind' Hk' Hpop' Hind').
    + exists k, population, gk, ind. rewrite Hat. auto.
  - unfold mbind, M_bind, lift.
    destruct (head (cur_population s)) as [first |] eqn:Hhead;
      [| discriminate].
    destruct (evaluate_route first) as [solution0 |] eqn:Heval;
      [| discriminate].
    intros [= <- <-].
    destruct Hbest as [[_ Hinf] | (k & population & gk & ind & solution
                                    & _ & _ & _ & _ & Hsome & _)];
      [| discriminate].
    cbn in Hinf.
    assert (Hfirst : first ∈ cur_population s).
    { destruct (cur_population s); [discriminate |].
      inversion Hhead. apply elem_of_cons. left. reflexivity. }
    destruct (Hmin generations (cur_population s) g1 first
                ltac:(lia) Hlast Hfirst) as (f & Hf & Hle).
    assert (Hfit : fitness solution0 = Inf).
    { unfold GeneticAlgorithm.fitness_of in Hf. rewrite Heval in Hf.
      cbn in Hf. inversion Hf; subst f. rewrite Hinf in Hle.
      destruct (fitness solution0); [discriminate | reflexivity]. }
    split.
    + intros k' Hk'.
      destruct (Hdef k' ltac:(lia)) as [[population' gk'] Hpop'].
      exists population', gk'. split; [rewrite Hat; exact Hpop' |].
      intros ind' Hind'. rewrite Hfit, <- Hinf.
      exact (Hmin k' population' gk' ind' Hk' Hpop' Hind').
    + exists generations, (cur_population s), g1, first.
      rewrite Hat. split; [lia |]. auto.
Qed.

End GeneticProperties.

(** ** The genetic search returns *)

Lemma foldl_Qplus_grows (l : list Q) (acc : Q) :
  Forall (fun x => 0 < x) l ->
  acc <= foldl Qplus acc l /\ (l <> [] -> acc < foldl Qplus acc l).
Proof.
  revert acc. induction l as [| x l IH]; intros acc Hpos; cbn [foldl].
  - split; [apply Qle_refl | intros Hne; contradiction Hne; reflexivity].
  - apply Forall_cons in Hpos. destruct Hpos as [Hx Hl].
    destruct (IH (acc + x) Hl) as [Hle _].
    split; [lra | intros _; lra].
Qed.

Lemma length_insert_ranked (x : xfloat * list nat)
    (l : list (xfloat * list nat)) :
  length (GeneticAlgorithm.insert_ranked x l) = S (length l).
Proof.
  induction l as [| y l IH]; cbn [GeneticAlgorithm.insert_ranked];
    [reflexivity |].
  destruct (xle x.1 y.1); cbn [length]; [reflexivity | rewrite IH; reflexivity].
Qed.

Lemma length_sorted_by_fitness (l : list (xfloat * list nat)) :
  length (GeneticAlgorithm.sorted_by_fitness l) = length l.
Proof.
  unfold GeneticAlgorithm.sorted_by_fitness.
  induction l as [| x l IH]; cbn [foldr length]; [reflexivity |].
  rewrite length_insert_ranked, IH. reflexivity.
Qed.

Section GeneticRuns.
Import GeneticAlgorithm.
Context {gen : Type} `{RandomSpec gen}.

Variable locations : list Location.
Variable formula : Q -> Q -> Q -> Q -> Q.
Variable avg_speed : Q.
Variable start_time : time.
Variable population_size generations : nat.
Variable mutation_rate crossover_rate : Q.
Variable elite_size : nat.

Hypothesis speed_nonzero : ~ avg_speed == 0.
Hypothesis formula_nonneg :
  forall lat1 lon1 lat2 lon2, 0 <= formula lat1 lon1 lat2 lon2.
Hypothesis two_locations : (2 <= length locations)%nat.

Abbreviation n := (length locations).
Abbreviation simulate :=
  (ConstraintChecker.simulate locations formula avg_speed start_time).
Abbreviation fitness_of := (fitness_of locations formula avg_speed start_time).
Abbreviation rank_population :=
  (rank_population locations formula avg_speed start_time).

Lemma simulate_distance_nonneg (rest : list nat)
    (s s' : ConstraintChecker.sim) :
  simulate rest s = Some s' ->
  0 <= ConstraintChecker.sim_distance s ->
  0 <= ConstraintChecker.sim_distance s'.
Proof.
  revert s. induction rest as [| location_idx rest IH]; intros s.
  - intros [= <-] Hs. exact Hs.
  - cbn [ConstraintChecker.simulate].
    unfold ConstraintChecker.check_time_window.
    destruct (locations !! location_idx) as [location |]; [| discriminate].
    cbn [mbind option_bind].
    destruct (ConstraintChecker.check_window start_time location _)
      as [is_valid actual].
    destruct rest as [| next_idx rest];
      [intros Hrun Hs; exact (IH _ Hrun Hs) |].
    unfold DistanceMatrix.get_travel_time. rewrite get_distance_spec.
    destruct (decide _); [| discriminate].
    destruct (Qeq_bool avg_speed 0); [discriminate |].
    cbn [mbind option_bind]. intros Hrun Hs. apply (IH _ Hrun).
    cbn [ConstraintChecker.sim_distance].
    assert (0 <= DistanceMatrix.entry locations formula location_idx next_idx).
    { unfold DistanceMatrix.entry. destruct (decide _);
        [apply Qle_refl | apply formula_nonneg]. }
    lra.
Qed.

(** The fitness of a route over all locations is finite and not
    negative. *)
Lemma fitness_of_permutation (r : list nat) :
  is_permutation n r -> exists q, fitness_of r = Some (Fin q) /\ 0 <= q.
Proof.
  intros Hperm.
  assert (Hvalid : valid_route locations r).
  { apply Forall_forall. intros x Hx.
    apply (is_permutation_elem n r x Hperm), Hx. }
  destruct (simulate_total locations formula avg_speed start_time r
              (ConstraintChecker.mk_sim 0 0 [] 0) Hvalid speed_nonzero)
    as [s Hs].
  pose proof (simulate_distance_nonneg r _ s Hs (Qle_refl 0)) as Hdist.
  pose proof (is_permutation_length n r Hperm) as Hlen.
  destruct r as [| location_idx rest]; [cbn in Hlen; lia |].
  unfold GeneticAlgorithm.fitness_of, GeneticAlgorithm.evaluate_route,
    ConstraintChecker.evaluate_route.
  rewrite Hs. cbn [mbind option_bind fitness].
  eexists. split; [reflexivity |].
  assert (0 <= inject_Z (Z.of_nat (ConstraintChecker.sim_violations s)))
    by (change 0 with (inject_Z 0); rewrite <- Zle_Qle; lia).
  lra.
Qed.

Lemma rank_population_total (population : list (list nat)) :
  Forall (is_permutation n) population ->
  exists ranked,
    rank_population population = Some ranked /\
    length ranked = length population /\ ranked_ok n ranked.
Proof.
  intros Hpop. unfold GeneticAlgorithm.rank_population.
  destruct (mapM (fun individual =>
                    f ← fitness_of individual; Some (f, individual))
                 population) as [results |] eqn:Hmap.
  - cbn [mbind option_bind]. eexists. split; [reflexivity |].
    apply mapM_Some in Hmap.
    split; [rewrite length_sorted_by_fitness;
            symmetry; exact (Forall2_length _ _ _ Hmap) |].
    apply Forall_forall. intros z Hz.
    rewrite elem_of_sorted_by_fitness in Hz.
    apply list_elem_of_lookup in Hz. destruct Hz as [i Hi].
    destruct (Forall2_lookup_r _ _ _ _ _ Hmap Hi) as (ind & Hind & Hfit).
    assert (Hperm : is_permutation n ind).
    { rewrite Forall_forall in Hpop. apply Hpop.
      apply list_elem_of_lookup. exists i. exact Hind. }
    destruct (fitness_of_permutation ind Hperm) as (q & Hq & Hq0).
    rewrite Hq in Hfit. cbn in Hfit. inversion Hfit; subst z. cbn [fst snd].
    split; [exact Hperm | exists q; split; [reflexivity | exact Hq0]].
  - exfalso.
    assert (Hsome : is_Some (mapM (fun individual =>
                                     f ← fitness_of individual;
                                     Some (f, individual)) population)).
    { apply mapM_is_Some. apply Forall_forall. intros ind Hind.
      rewrite Forall_forall in Hpop.
      destruct (fitness_of_permutation ind (Hpop ind Hind)) as (q & Hq & _).
      cbn. rewrite Hq. eexists. reflexivity. }
    rewrite Hmap in Hsome. destruct Hsome as [? Hsome]. discriminate.
Qed.

Lemma length_cumulate (cumsum : Q) (probabilities : list Q) :
  length (cumulate cumsum probabilities) = length probabilities.
Proof.
  revert cumsum. induction probabilities as [| p rest IH]; intros cumsum;
    cbn [cumulate length]; [reflexivity | rewrite IH; reflexivity].
Qed.

(** The roulette picks an individual of a ranking that is not empty. *)
Lemma selection_total (ranked : list (xfloat * list nat)) (g : gen) :
  ranked_ok n ranked -> ranked <> [] ->
  exists individual g',
    selection ranked g = Some (individual, g') /\
    is_permutation n individual.
Proof.
  intros Hok Hne. unfold ranked_ok in Hok. rewrite Forall_forall in Hok.
  destruct (mapM (fun rank : xfloat * list nat => weight rank.1) ranked)
    as [fitnesses |] eqn:Hweights.
  2:{ exfalso.
      assert (Hsome : is_Some (mapM (fun rank : xfloat * list nat =>
                                       weight rank.1) ranked)).
      { apply mapM_is_Some, Forall_forall. intros z Hz.
        destruct (Hok z Hz) as (_ & q & Hq & Hq0). cbn. rewrite Hq. cbn.
        destruct (Qeq_bool (1 + q) 0) eqn:Hzero;
          [apply Qeq_bool_iff in Hzero; lra | eexists; reflexivity]. }
      rewrite Hweights in Hsome. destruct Hsome as [? Hsome]. discriminate. }
  apply mapM_Some in Hweights.
  pose proof (Forall2_length _ _ _ Hweights) as Hlen.
  assert (Hpos : Forall (fun x => 0 < x) fitnesses).
  { apply Forall_forall. intros x Hx.
    apply list_elem_of_lookup in Hx. destruct Hx as [i Hi].
    destruct (Forall2_lookup_r _ _ _ _ _ Hweights Hi) as (z & Hz & Hw).
    destruct (Hok z) as (_ & q & Hq & Hq0);
      [apply list_elem_of_lookup; exists i; exact Hz |].
    rewrite Hq in Hw. cbn in Hw.
    destruct (Qeq_bool (1 + q) 0); [discriminate |].
    inversion Hw. apply Qlt_shift_div_l; lra. }
  assert (Htotal : 0 < GeneticAlgorithm.sum fitnesses).
  { apply (foldl_Qplus_grows fitnesses 0 Hpos).
    intros ->. destruct ranked; [contradiction | discriminate]. }
  destruct (mapM (fun f => if Qeq_bool (GeneticAlgorithm.sum fitnesses) 0
                           then None
                           else Some (f / GeneticAlgorithm.sum fitnesses))
                 fitnesses) as [probabilities |] eqn:Hprob.
  2:{ exfalso.
      assert (Hsome : is_Some
                (mapM (fun f => if Qeq_bool (GeneticAlgorithm.sum fitnesses) 0
                                then None
                                else Some (f / GeneticAlgorithm.sum fitnesses))
                      fitnesses)).
      { apply mapM_is_Some, Forall_forall. intros f _. cbn.
        destruct (Qeq_bool (GeneticAlgorithm.sum fitnesses) 0) eqn:Hzero;
          [apply Qeq_bool_iff in Hzero; lra | eexists; reflexivity]. }
      rewrite Hprob in Hsome. destruct Hsome as [? Hsome]. discriminate. }
  pose proof (length_mapM _ _ _ Hprob) as Hlenp.
  unfold selection, mbind, M_bind, lift, random.
  rewrite (proj2 (mapM_Some _ _ _) Hweights), Hprob. cbv zeta.
  destruct (rand_float g) as [r g1].
  destruct (list_find _ (cumulate 0 probabilities)) as [[i cum] |] eqn:Hfind.
  - apply list_find_Some in Hfind. destruct Hfind as [Hi _].
    apply lookup_lt_Some in Hi. rewrite length_cumulate in Hi.
    destruct (lookup_lt_is_Some_2 ranked i ltac:(lia)) as [z Hz].
    rewrite Hz. cbn [fmap option_fmap option_map].
    eexists. eexists. split; [reflexivity |].
    apply (Hok z). apply list_elem_of_lookup. exists i. exact Hz.
  - destruct (proj2 (last_is_Some ranked) Hne) as [z Hz].
    rewrite Hz. cbn [fmap option_fmap option_map].
    eexists. eexists. split; [reflexivity |].
    apply (Hok z), last_Some_elem_of, Hz.
Qed.

(** The two offspring of one turn of the breeding loop are permutations,
    and whatever is done with them next is done. *)
Lemma offspring_total {A : Type} (ranked : list (xfloat * list nat))
    (next : list nat -> list nat -> M gen A) (post : A -> Prop) (g : gen) :
  ranked_ok n ranked -> ranked <> [] ->
  (forall child1 child2 g1,
     is_permutation n child1 -> is_permutation n child2 ->
     exists a g', next child1 child2 g1 = Some (a, g') /\ post a) ->
  exists a g',
    (parent1 ← selection ranked;
     parent2 ← selection ranked;
     '(child1, child2) ← crossover crossover_rate parent1 parent2;
     child1 ← mutate mutation_rate child1;
     child2 ← mutate mutation_rate child2;
     next child1 child2) g = Some (a, g') /\ post a.
Proof.
  intros Hok Hne Hnext. unfold mbind, M_bind.
  destruct (selection_total ranked g Hok Hne) as (parent1 & g1 & Hs1 & Hp1).
  rewrite Hs1.
  destruct (selection_total ranked g1 Hok Hne) as (parent2 & g2 & Hs2 & Hp2).
  rewrite Hs2.
  destruct (crossover_permutations n crossover_rate parent1 parent2 g2
              Hp1 Hp2) as [Hkeep Hsome].
  destruct Hsome as [[[child1 child2] g3] Hcross]; [lia |].
  destruct (Hkeep _ _ Hcross) as [Hc1 Hc2]. cbn [fst snd] in Hc1, Hc2.
  rewrite Hcross.
  assert (Hmutate : forall individual g0,
             is_permutation n individual ->
             exists mutated g0',
               mutate mutation_rate individual g0 = Some (mutated, g0') /\
               is_permutation n mutated).
  { intros individual g0 Hind.
    unfold mutate, mbind, M_bind, random.
    destruct (rand_float g0) as [r g0'].
    destruct (Qltb mutation_rate r);
      [eexists; eexists; split; [reflexivity | exact Hind] |].
    destruct (sample_swap_permutation n individual g0' Hind)
      as [Hkeep' Hsome'].
    unfold mbind, M_bind in Hkeep', Hsome'.
    destruct (Hsome' two_locations) as [[mutated g0''] Hrun].
    exists mutated, g0''. split; [exact Hrun | exact (Hkeep' _ _ Hrun)]. }
  destruct (Hmutate child1 g3 Hc1) as (mutated1 & g4 & Hm1 & Hperm1).
  rewrite Hm1.
  destruct (Hmutate child2 g4 Hc2) as (mutated2 & g5 & Hm2 & Hperm2).
  rewrite Hm2.
  exact (Hnext mutated1 mutated2 g5 Hperm1 Hperm2).
Qed.

Abbreviation breed := (breed (gen := gen) mutation_rate crossover_rate).
Abbreviation evolve :=
  (evolve (gen := gen) locations formula avg_speed start_time population_size
          mutation_rate crossover_rate elite_size).
Abbreviation generation_step :=
  (generation_step (gen := gen) locations formula avg_speed start_time
                   population_size mutation_rate crossover_rate elite_size).
Abbreviation run_generations :=
  (run_generations (gen := gen) locations formula avg_speed start_time
                   population_size mutation_rate crossover_rate elite_size).
Abbreviation optimize :=
  (optimize (gen := gen) locations formula avg_speed start_time
            population_size generations mutation_rate crossover_rate
            elite_size).

(** The breeding loop fills the free places with permutations. *)
Lemma breed_total (free : nat) (ranked : list (xfloat * list nat)) :
  ranked_ok n ranked -> ranked <> [] ->
  forall new_population g,
    Forall (is_permutation n) new_population ->
    exists population g',
      breed free ranked new_population g = Some (population, g') /\
      Forall (is_permutation n) population /\
      length population = (length new_population + free)%nat.
Proof.
  intros Hok Hne.
  assert (Hboth :
    (forall new_population g,
       Forall (is_permutation n) new_population ->
       exists population g',
         breed free ranked new_population g = Some (population, g') /\
         Forall (is_permutation n) population /\
         length population = (length new_population + free)%nat) /\
    (forall new_population g,
       Forall (is_permutation n) new_population ->
       exists population g',
         breed (S free) ranked new_population g = Some (population, g') /\
         Forall (is_permutation n) population /\
         length population = (length new_population + S free)%nat)).
  { induction free as [| free [IH0 IH1]].
    - split; intros new_population g Hnew.
      + exists new_population, g. split; [reflexivity |].
        split; [exact Hnew | lia].
      + cbn [GeneticAlgorithm.breed].
        destruct (offspring_total ranked
                    (fun child1 child2 =>
                       mret (new_population ++ [child1]))
                    (fun population =>
                       Forall (is_permutation n) population /\
                       length population
                       = (length new_population + 1)%nat)
                    g Hok Hne) as (population & g' & Hrun & Hpost).
        { intros child1 child2 g1 Hc1 Hc2. eexists. eexists.
          split; [reflexivity |]. split.
          - apply Forall_app. split; [exact Hnew |].
            apply Forall_cons_2; [exact Hc1 | apply Forall_nil_2].
          - rewrite length_app. reflexivity. }
        exists population, g'. split; [exact Hrun | exact Hpost].
    - split; [exact IH1 |]. intros new_population g Hnew.
      cbn [GeneticAlgorithm.breed].
      destruct (offspring_total ranked
                  (fun child1 child2 =>
                     breed free ranked
                       ((new_population ++ [child1]) ++ [child2]))
                  (fun population =>
                     Forall (is_permutation n) population /\
                     length population
                     = (length new_population + S (S free))%nat)
                  g Hok Hne) as (population & g' & Hrun & Hpost).
      { intros child1 child2 g1 Hc1 Hc2.
        destruct (IH0 ((new_population ++ [child1]) ++ [child2]) g1)
          as (population & g' & Hrun & Hperm & Hlen).
        { repeat (apply Forall_app; split); try exact Hnew;
            (apply Forall_cons_2; [assumption | apply Forall_nil_2]). }
        exists population, g'. split; [exact Hrun |].
        split; [exact Hperm |]. rewrite Hlen, !length_app. cbn. lia. }
      exists population, g'. split; [exact Hrun | exact Hpost]. }
  exact (proj1 Hboth).
Qed.

(** A generation of permutations evolves into one, of at least the
    population size. *)
Lemma evolve_total (population : list (list nat)) (g : gen) :
  Forall (is_permutation n) population -> population <> [] ->
  exists population' g',
    evolve population g = Some (population', g') /\
    Forall (is_permutation n) population' /\
    (population_size <= length population')%nat.
Proof.
  intros Hpop Hne.
  destruct (rank_population_total population Hpop)
    as (ranked & Hrank & Hlen & Hok).
  assert (Hranked : ranked <> []).
  { intros ->. destruct population; [contradiction | discriminate]. }
  unfold GeneticAlgorithm.evolve, mbind at 1, M_bind at 1, lift.
  rewrite Hrank. cbv zeta.
  destruct (breed_total (population_size
                         - length (snd <$> take elite_size ranked))
              ranked Hok Hranked (snd <$> take elite_size ranked) g)
    as (population' & g' & Hrun & Hperm & Hlen').
  { apply Forall_fmap, Forall_take.
    unfold ranked_ok in Hok. rewrite Forall_forall in Hok.
    apply Forall_forall. intros z Hz. apply (Hok z Hz). }
  exists population', g'. split; [exact Hrun |].
  split; [exact Hperm | lia].
Qed.

Lemma generation_step_total (s : search) (g : gen) :
  Forall (is_permutation n) (cur_population s) -> cur_population s <> [] ->
  (1 <= population_size)%nat ->
  exists s' g',
    generation_step s g = Some (s', g') /\
    Forall (is_permutation n) (cur_population s') /\
    cur_population s' <> [].
Proof.
  intros Hpop Hne Hsize.
  destruct (evolve_total (cur_population s) g Hpop Hne)
    as (population & g1 & Hevolve & Hperm & Hlen).
  assert (Hne' : population <> [])
    by (intros ->; cbn in Hlen; lia).
  destruct (rank_population_total population Hperm)
    as (ranked & Hrank & Hlenr & Hok).
  destruct ranked as [| [f0 ind0] ranked];
    [destruct population; [contradiction | discriminate] |].
  unfold GeneticAlgorithm.generation_step, mbind at 1, M_bind at 1.
  rewrite Hevolve. unfold mbind at 1, M_bind at 1, lift at 1.
  rewrite Hrank. unfold mbind at 1, M_bind at 1, lift at 1.
  cbn [head].
  destruct (xlt f0 (best_fitness s)).
  - unfold ranked_ok in Hok. apply Forall_cons in Hok.
    destruct Hok as [[Hind0 _] _]. cbn [snd] in Hind0.
    destruct (fitness_of_permutation ind0 Hind0) as (q & Hq & _).
    unfold GeneticAlgorithm.fitness_of in Hq.
    destruct (GeneticAlgorithm.evaluate_route locations formula avg_speed
                start_time ind0) as [solution |] eqn:Heval;
      [| discriminate].
    unfold mbind, M_bind, lift.
    eexists. eexists. split; [reflexivity |]. split; assumption.
  - eexists. eexists. split; [reflexivity |]. split; assumption.
Qed.

Lemma run_generations_total (count : nat) (s : search) (g : gen) :
  Forall (is_permutation n) (cur_population s) -> cur_population s <> [] ->
  (1 <= population_size)%nat ->
  exists s' g',
    run_generations count s g = Some (s', g') /\
    Forall (is_permutation n) (cur_population s') /\
    cur_population s' <> [].
Proof.
  intros Hpop Hne Hsize. revert s g Hpop Hne.
  induction count as [| count IH]; intros s g Hpop Hne.
  - exists s, g. split; [reflexivity |]. split; assumption.
  - destruct (generation_step_total s g Hpop Hne Hsize)
      as (s1 & g1 & Hstep & Hpop1 & Hne1).
    destruct (IH s1 g1 Hpop1 Hne1) as (s' & g' & Hrun & Hpop' & Hne').
    exists s', g'. split; [| split; assumption].
    cbn [GeneticAlgorithm.run_generations]. unfold mbind, M_bind.
    rewrite Hstep. exact Hrun.
Qed.

Lemma create_individuals_total (size : nat) (g : gen) :
  exists population g',
    create_individuals (gen := gen) locations size g = Some (population, g') /\
    Forall (is_permutation n) population /\ length population = size.
Proof.
  revert g. induction size as [| size IH]; intros g.
  - exists [], g. split; [reflexivity |]. split; [apply Forall_nil_2 | reflexivity].
  - cbn [create_individuals].
    unfold mbind, M_bind, create_individual, shuffled_range.
    pose proof (rand_shuffle_perm (seq 0 (num_locations locations)) g)
      as Hperm.
    destruct (rand_shuffle (seq 0 (num_locations locations)) g)
      as [individual g1]. cbn [fst] in Hperm.
    destruct (IH g1) as (others & g' & Hrun & Hok & Hlen).
    rewrite Hrun. eexists. eexists. split; [reflexivity |].
    split; [apply Forall_cons_2; [exact Hperm | exact Hok] |].
    cbn. rewrite Hlen. reflexivity.
Qed.

(** With two locations or more, a non-zero speed, distances that are not
    negative and a population of one individual or more, the genetic
    search returns a solution, whatever the generator draws. *)
Lemma genetic_optimize_total (g : gen) :
  (1 <= population_size)%nat ->
  exists solution g', optimize g = Some (solution, g').
Proof.
  intros Hsize.
  destruct (create_individuals_total population_size g)
    as (population0 & g0 & Hcreate & Hpop0 & Hlen0).
  assert (Hne0 : population0 <> [])
    by (intros ->; cbn in Hlen0; lia).
  destruct (run_generations_total generations
              (mk_search population0 None Inf) g0 Hpop0 Hne0 Hsize)
    as (s & g1 & Hrun & Hpop & Hne).
  unfold GeneticAlgorithm.optimize, create_population.
  unfold mbind at 1, M_bind at 1. rewrite Hcreate.
  unfold mbind at 1, M_bind at 1. rewrite Hrun.
  destruct (best_solution s) as [solution |];
    [eexists; eexists; reflexivity |].
  destruct (cur_population s) as [| first rest] eqn:Hcur;
    [contradiction |].
  apply Forall_cons in Hpop. destruct Hpop as [Hfirst _].
  destruct (fitness_of_permutation first Hfirst) as (q & Hq & _).
  unfold GeneticAlgorithm.fitness_of in Hq.
  destruct (GeneticAlgorithm.evaluate_route locations formula avg_speed
              start_time first) as [solution |] eqn:Heval; [| discriminate].
  unfold mbind, M_bind, lift. cbn [head]. rewrite Heval.
  eexists. eexists. reflexivity.
Qed.

End GeneticRuns.

Section GeneticClaim.
Import GeneticAlgorithm.
Context {gen : Type} `{RandomSpec gen}.

Variable locations : list Location.
Variable formula : Q -> Q -> Q -> Q -> Q.
Variable avg_speed : Q.
Variable start_time : time.
Variable population_size generations : nat.
Variable mutation_rate crossover_rate : Q.
Variable elite_size : nat.

Abbreviation evaluate_route :=
  (evaluate_route locations formula avg_speed start_time).
Abbreviation fitness_of := (fitness_of locations formula avg_speed start_time).
Abbreviation generation_at :=
  (generation (gen := gen) locations formula avg_speed start_time
              population_size mutation_rate crossover_rate elite_size).
Abbreviation optimize :=
  (optimize (gen := gen) locations formula avg_speed start_time
            population_size generations mutation_rate crossover_rate
            elite_size).

(** C8.  Let the genetic search run G >= 1 generations.  Whatever the
    generator draws, a solution it returns is the evaluation of an
    individual of the population of one of the generations 1..G, and its
    fitness is not above the fitness of any individual of the population of
    any of these generations: it is the least of the best fitnesses of all
    generations, not only of the last one.  With two locations or more, a
    non-zero speed, distances that are not negative and a population of one
    individual or more, the search does return a solution. *)
Theorem genetic_returns_best_ever :
  (1 <= generations)%nat ->
  (forall g g' solution,
     optimize g = Some (solution, g') ->
     (forall k,
        (1 <= k <= generations)%nat ->
        exists population gk,
          generation_at k g = Some (population, gk) /\
          forall ind, ind ∈ population ->
            exists f, fitness_of ind = Some f /\
                      xle (fitness solution) f = true) /\
     (exists k population gk ind,
        (1 <= k <= generations)%nat /\
        generation_at k g = Some (population, gk) /\
        ind ∈ population /\ evaluate_route ind = Some solution)) /\
  ((2 <= length locations)%nat -> ~ avg_speed == 0 ->
   (forall lat1 lon1 lat2 lon2, 0 <= formula lat1 lon1 lat2 lon2) ->
   (1 <= population_size)%nat ->
   forall g, exists solution g', optimize g = Some (solution, g')).
Proof.
  intros Hgen. split.
  - intros g g' solution Hrun.
    exact (optimize_best_ever locations formula avg_speed start_time
             population_size generations mutation_rate crossover_rate
             elite_size g g' solution Hgen Hrun).
  - intros Hn Hspeed Hformula Hsize g.
    exact (genetic_optimize_total locations formula avg_speed start_time
             population_size generations mutation_rate crossover_rate
             elite_size Hspeed Hformula Hn g Hsize).
Qed.

End GeneticClaim.

(** ** Examples *)

Lemma example_locations_ok : Forall location_ok example_locations.
Proof.
  unfold example_locations.
  repeat (apply Forall_cons_2;
          [split; intros t Ht; inversion Ht; unfold time_ok; cbn; lia |]).
  apply Forall_nil_2.
Qed.

Lemma evaluate_route_fitness_witness :
  exists solution,
    ConstraintChecker.evaluate_route example_locations example_formula 30
      (mk_time 9 0 0 0) [0; 1; 2]%nat = Some solution /\
    fitness solution
    = Fin (total_distance solution
           + inject_Z (Z.of_nat (violations solution)) * 1000).
Proof.
  destruct (evaluate_route_fitness example_locations example_formula 30
              (mk_time 9 0 0 0) [0; 1; 2]%nat) as [Htotal Hfit];
    [discriminate |].
  destruct Htotal as [solution Hsolution];
    [repeat constructor; cbn; lia | discriminate |].
  exists solution. split; [exact Hsolution |].
  apply (Hfit solution Hsolution).
Defined.

Lemma evaluate_route_visits_all_witness :
  exists solution,
    ConstraintChecker.evaluate_route example_locations example_formula 30
      (mk_time 9 0 0 0) [2; 0; 1]%nat = Some solution /\
    length (arrival_times solution) = 3%nat /\
    violations solution
    = missed_count example_locations (mk_time 9 0 0 0) [2; 0; 1]%nat
        (arrival_times solution).
Proof.
  destruct (evaluate_route_visits_all example_locations example_formula 30
              (mk_time 9 0 0 0) [2; 0; 1]%nat)
    as (solution & Hsolution & _ & Hlen & Hcount & _);
    [exact example_locations_ok | repeat constructor; cbn; lia
     | discriminate |].
  exists solution. split; [exact Hsolution |]. split; assumption.
Defined.

Lemma annealing_keeps_incumbent_witness :
  exists k, forall fuel,
    (k <= fuel)%nat ->
    exists solution g',
      SimulatedAnnealing.optimize example_locations example_formula 30
        (mk_time 9 0 0 0) 1000 (995 # 1000) (1 # 10) 100 example_exp
        fuel 0%nat
      = Returned (solution, g').
Proof.
  destruct (annealing_keeps_incumbent (gen := nat) example_locations
              example_formula 30 (mk_time 9 0 0 0) 1000 (995 # 1000)
              (1 # 10) 100 example_exp) as (_ & _ & _ & _ & Htotal).
  apply Htotal;
    [cbn; lia | discriminate
     | split; [vm_compute; discriminate | reflexivity] | reflexivity].
Defined.

Lemma genetic_returns_best_ever_witness :
  exists solution g',
    GeneticAlgorithm.optimize example_locations example_formula 30
      (mk_time 9 0 0 0) 4 3 (1 # 10) (4 # 5) 1 0%nat
    = Some (solution, g') /\
    exists k population gk ind,
      (1 <= k <= 3)%nat /\
      generation example_locations example_formula 30 (mk_time 9 0 0 0) 4
        (1 # 10) (4 # 5) 1 k 0%nat = Some (population, gk) /\
      ind ∈ population /\
      ConstraintChecker.evaluate_route example_locations example_formula 30
        (mk_time 9 0 0 0) ind = Some solution.
Proof.
  destruct (genetic_returns_best_ever (gen := nat) example_locations
              example_formula 30 (mk_time 9 0 0 0) 4 3 (1 # 10) (4 # 5) 1)
    as [Hbest Htotal]; [lia |].
  destruct (Htotal ltac:(cbn; lia) ltac:(discriminate)) with (g := 0%nat)
    as (solution & g' & Hrun).
  - intros lat1 lon1 lat2 lon2. unfold example_formula.
    pose proof (Qabs_nonneg (lat1 - lat2)).
    pose proof (Qabs_nonneg (lon1 - lon2)). lra.
  - lia.
  - exists solution, g'. split; [exact Hrun |].
    apply (Hbest 0%nat g' solution Hrun).
Defined.

(** * Further properties of the code *)

(** ** Minutes and times of day *)

(** X1.  [minutes_to_time] returns a time the constructor of [time]
    accepts, for every integer, and converting it back gives the minutes
    modulo one day: the minute count wraps at 1440, also below zero. *)
Theorem minutes_to_time_wraps (minutes : Z) :
  time_ok (minutes_to_time minutes) /\
  time_to_minutes (minutes_to_time minutes) = (minutes mod 1440)%Z /\
  second (minutes_to_time minutes) = 0%Z /\
  microsecond (minutes_to_time minutes) = 0%Z.
Proof.
  unfold minutes_to_time, time_to_minutes, time_ok. cbn [hour minute second
    microsecond].
  pose proof (Z.mod_pos_bound (minutes / 60) 24 ltac:(lia)) as Hh.
  pose proof (Z.mod_pos_bound minutes 60 ltac:(lia)) as Hm.
  split; [lia |]. split; [| split; reflexivity].
  apply (Z.mod_unique minutes 1440 (minutes / 60 / 24)); [lia |].
  pose proof (Z.div_mod minutes 60 ltac:(lia)).
  pose proof (Z.div_mod (minutes / 60) 24 ltac:(lia)).
  lia.
Qed.

(** X2.  Converting a time to minutes and back keeps its hour and minute
    and drops its seconds and microseconds. *)
Theorem minutes_to_time_of_time (t : time) :
  time_ok t ->
  minutes_to_time (time_to_minutes t) = mk_time (hour t) (minute t) 0 0.
Proof.
  unfold time_ok, minutes_to_time, time_to_minutes. intros Hok.
  assert (Hdiv : ((hour t * 60 + minute t) / 60 = hour t)%Z).
  { symmetry. apply (Z.div_unique _ 60 (hour t) (minute t)); lia. }
  assert (Hmod : ((hour t * 60 + minute t) mod 60 = minute t)%Z).
  { symmetry. apply (Z.mod_unique _ 60 (hour t) (minute t)); lia. }
  cbv zeta. rewrite Hdiv, Hmod, Z.mod_small by lia. reflexivity.
Qed.

Lemma minutes_to_time_of_time_witness :
  minutes_to_time (time_to_minutes (mk_time 17 45 30 250))
  = mk_time 17 45 0 0.
Proof.
  apply (minutes_to_time_of_time (mk_time 17 45 30 250)).
  unfold time_ok. cbn. lia.
Defined.

(** ** Distances *)

Lemma Qplus_swap (x y : Q) : x + y = y + x.
Proof.
  unfold Qplus. rewrite (Pos.mul_comm (Qden x) (Qden y)). f_equal. lia.
Qed.

(** X3.  The grid distance of a point to itself is 0; the distance does
    not depend on the order of the two points; and it is not negative when
    the cosine of the mean latitude is not. *)
Theorem manhattan_distance_metric (radians cos : Q -> Q)
    (lat1 lon1 lat2 lon2 : Q) :
  manhattan_distance radians cos lat1 lon1 lat1 lon1 == 0 /\
  manhattan_distance radians cos lat1 lon1 lat2 lon2
  == manhattan_distance radians cos lat2 lon2 lat1 lon1 /\
  (0 <= cos (radians ((lat1 + lat2) / 2)) ->
   0 <= manhattan_distance radians cos lat1 lon1 lat2 lon2).
Proof.
  unfold manhattan_distance. cbv zeta. split; [| split].
  - assert (Hlat : Qabs (lat1 - lat1) == 0)
      by (rewrite (Qabs_wd (lat1 - lat1) 0) by ring; reflexivity).
    assert (Hlon : Qabs (lon1 - lon1) == 0)
      by (rewrite (Qabs_wd (lon1 - lon1) 0) by ring; reflexivity).
    rewrite Hlat, Hlon. ring.
  - rewrite (Qplus_swap lat2 lat1).
    rewrite (Qabs_Qminus lat1 lat2), (Qabs_Qminus lon1 lon2). reflexivity.
  - intros Hcos.
    pose proof (Qabs_nonneg (lat1 - lat2)) as Hlat.
    pose proof (Qabs_nonneg (lon1 - lon2)) as Hlon.
    assert (H1 : 0 <= Qabs (lon1 - lon2) * 111)
      by (apply Qmult_le_0_compat; [exact Hlon | discriminate]).
    assert (H2 : 0 <= Qabs (lon1 - lon2) * 111
                      * cos (radians ((lat1 + lat2) / 2)))
      by (apply Qmult_le_0_compat; assumption).
    lra.
Qed.

Section TableProperties.
Import DistanceMatrix.

Variable locations : list Location.
Variable formula : Q -> Q -> Q -> Q -> Q.

Abbreviation get_distance := (get_distance locations formula).
Abbreviation get_travel_time := (get_travel_time locations formula).

(** X4.  The table answers 0 for an index paired with itself, the formula
    on the coordinates of the two locations for two different indices, and
    infinity as soon as one index is not an index of a location. *)
Theorem get_distance_table (from_idx to_idx : nat) :
  ((from_idx < length locations)%nat ->
   get_distance from_idx from_idx = Fin 0) /\
  (forall loc1 loc2,
     locations !! from_idx = Some loc1 -> locations !! to_idx = Some loc2 ->
     from_idx <> to_idx ->
     get_distance from_idx to_idx
     = Fin (formula (latitude loc1) (longitude loc1)
                    (latitude loc2) (longitude loc2))) /\
  ((length locations <= from_idx)%nat \/ (length locations <= to_idx)%nat ->
   get_distance from_idx to_idx = Inf).
Proof.
  split; [| split].
  - intros Hlt. rewrite get_distance_spec, decide_True by lia.
    unfold DistanceMatrix.entry. rewrite decide_True by reflexivity.
    reflexivity.
  - intros loc1 loc2 H1 H2 Hne.
    pose proof (lookup_lt_Some _ _ _ H1). pose proof (lookup_lt_Some _ _ _ H2).
    rewrite get_distance_spec, decide_True by lia.
    unfold DistanceMatrix.entry. rewrite decide_False by exact Hne.
    cbv zeta.
    rewrite (list_lookup_total_correct _ _ _ H1),
      (list_lookup_total_correct _ _ _ H2).
    reflexivity.
  - intros Hout. rewrite get_distance_spec, decide_False by lia. reflexivity.
Qed.

(** X5.  When the formula does not depend on the order of its two points,
    the table is symmetric: the distance from one index to another is the
    distance back, for all indices, in the table or not. *)
Theorem get_distance_symmetric (from_idx to_idx : nat) :
  (forall lat1 lon1 lat2 lon2,
     formula lat1 lon1 lat2 lon2 == formula lat2 lon2 lat1 lon1) ->
  same_float (get_distance from_idx to_idx) (get_distance to_idx from_idx).
Proof.
  intros Hsym. rewrite !get_distance_spec.
  destruct (decide ((from_idx < length locations)%nat
                    /\ (to_idx < length locations)%nat)) as [Hin | Hout].
  - rewrite decide_True by lia. cbn [same_float].
    unfold DistanceMatrix.entry.
    destruct (decide (from_idx = to_idx)) as [-> | Hne].
    + rewrite decide_True by reflexivity. reflexivity.
    + rewrite decide_False by congruence. apply Hsym.
  - rewrite decide_False by lia. exact I.
Qed.

(** X6.  The travel time between two indices of the table is the distance
    divided by the speed, in minutes; it is 0 from a location to itself;
    and the call raises at speed 0. *)
Theorem get_travel_time_table (from_idx to_idx : nat) (avg_speed : Q) :
  (from_idx < length locations)%nat -> (to_idx < length locations)%nat ->
  (avg_speed == 0 -> get_travel_time from_idx to_idx avg_speed = None) /\
  (~ avg_speed == 0 ->
   exists distance,
     get_distance from_idx to_idx = Fin distance /\
     get_travel_time from_idx to_idx avg_speed
     = Some (distance / avg_speed * 60) /\
     (from_idx = to_idx -> distance / avg_speed * 60 == 0)).
Proof.
  intros Hfrom Hto. unfold DistanceMatrix.get_travel_time.
  rewrite get_distance_spec, decide_True by lia. split.
  - intros Hzero. apply Qeq_bool_iff in Hzero. rewrite Hzero. reflexivity.
  - intros Hspeed.
    destruct (Qeq_bool avg_speed 0) eqn:Hzero;
      [apply Qeq_bool_iff in Hzero; contradiction |].
    eexists. split; [reflexivity |]. split; [reflexivity |].
    intros ->. unfold DistanceMatrix.entry.
    rewrite decide_True by reflexivity. field. exact Hspeed.
Qed.

End TableProperties.

Lemma example_formula_symmetric (lat1 lon1 lat2 lon2 : Q) :
  example_formula lat1 lon1 lat2 lon2 == example_formula lat2 lon2 lat1 lon1.
Proof.
  unfold example_formula.
  rewrite (Qabs_Qminus lat1 lat2), (Qabs_Qminus lon1 lon2). reflexivity.
Qed.

Lemma get_distance_symmetric_witness :
  same_float
    (DistanceMatrix.get_distance example_locations example_formula 0 1)
    (DistanceMatrix.get_distance example_locations example_formula 1 0).
Proof.
  apply (get_distance_symmetric example_locations example_formula 0 1).
  exact example_formula_symmetric.
Defined.

Lemma get_travel_time_table_witness :
  exists distance,
    DistanceMatrix.get_distance example_locations example_formula 1 2
    = Fin distance /\
    DistanceMatrix.get_travel_time example_locations example_formula 1 2 30
    = Some (distance / 30 * 60).
Proof.
  destruct (get_travel_time_table example_locations example_formula 1 2 30)
    as [_ Hmoving]; [cbn; lia | cbn; lia |].
  destruct (Hmoving ltac:(discriminate)) as (distance & Hd & Ht & _).
  exists distance. split; assumption.
Defined.

(** ** More on the time-window check *)

Section WindowExtras.
Import ConstraintChecker.

Variable start_time : time.

Abbreviation normalized := (normalized start_time).
Abbreviation check_window := (check_window start_time).

(** X7.  For a location whose times are values of [time], the branch of
    lines 85-91 (the cross-day case) is never taken; a window whose close
    minute is before its open minute goes through the branch of the
    ordinary windows with the close minute moved one day on, and is
    satisfied exactly from its open minute to the end of the day. *)
Theorem cross_day_branch_dead (location : Location) :
  location_ok location ->
  (forall open_minutes close_minutes,
     window_of location <> CrossMidnight open_minutes close_minutes) /\
  (forall ot ct arrival,
     open_time location = Some ot -> close_time location = Some ct ->
     (time_to_minutes ct < time_to_minutes ot)%Z ->
     window_of location
     = NormalWindow (time_to_minutes ot) (time_to_minutes ct + 24 * 60) /\
     ((check_window location arrival).1 = true
      <-> inject_Z (time_to_minutes ot) <= normalized arrival)).
Proof.
  intros [Hoko Hokc]. split.
  - intros o c. exact (window_of_never_cross location o c Hoko Hokc).
  - intros ot ct arrival Hot Hct Hlt. split.
    + exact (window_of_spanning location ot ct Hot Hct
               (Hoko ot Hot) (Hokc ct Hct) Hlt).
    + exact (spanning_window_satisfied start_time location ot ct arrival
               Hot Hct (Hoko ot Hot) (Hokc ct Hct) Hlt).
Qed.

(** X8.  The adjusted arrival is never before the arrival and less than a
    day after it; it is the arrival itself when the check is satisfied;
    and checking again at the adjusted arrival is satisfied without a
    further wait. *)
Theorem check_window_adjusted (location : Location) (arrival : Q) :
  location_ok location ->
  arrival <= (check_window location arrival).2 /\
  (check_window location arrival).2 < arrival + 1440 /\
  ((check_window location arrival).1 = true ->
   (check_window location arrival).2 = arrival) /\
  check_window location (check_window location arrival).2
  = (true, (check_window location arrival).2).
Proof.
  intros [Hoko Hokc].
  destruct (window_of location) as [| o c | o c] eqn:Hw.
  - unfold ConstraintChecker.check_window. rewrite !Hw. cbn [fst snd].
    rewrite ?Hw. repeat split; [apply Qle_refl | lra].
  - destruct (window_of_normal _ _ _ Hw) as (ot & ct & Hot & _ & Ho & Hoc & _).
    assert (Hro : (0 <= o < 24 * 60)%Z)
      by (rewrite Ho; apply time_to_minutes_range, Hoko, Hot).
    destruct (normal_window_spec start_time location o c arrival Hw Hro)
      as (Hsat & Hsame & Hwait).
    destruct (normalized_range start_time arrival) as [Hn0 Hn1].
    assert (Ho0 : 0 <= inject_Z o)
      by (change 0 with (inject_Z 0); rewrite <- Zle_Qle; lia).
    assert (Ho1 : inject_Z o < 1440)
      by (change 1440 with (inject_Z 1440); rewrite <- Zlt_Qlt; lia).
    rewrite Zle_Qle in Hoc.
    assert (Hagain : forall adjusted,
               inject_Z o <= normalized adjusted ->
               normalized adjusted <= inject_Z c ->
               check_window location adjusted = (true, adjusted)).
    { intros adjusted Hlo Hhi.
      unfold ConstraintChecker.check_window. rewrite Hw.
      apply Qle_bool_iff in Hlo, Hhi. rewrite Hlo, Hhi. reflexivity. }
    destruct (check_window location arrival) as [satisfied adjusted] eqn:Hcw.
    cbn [fst snd] in *. destruct satisfied.
    + rewrite (Hsame eq_refl).
      split; [apply Qle_refl |]. split; [lra |]. split; [reflexivity |].
      apply Hagain; apply Hsat; reflexivity.
    + destruct (Hwait eq_refl) as (w & -> & Hpos & Hopen & _ & Hlo & Hhi).
      assert (Hw1440 : w < 1440).
      { destruct (Qlt_le_dec (normalized arrival) (inject_Z o)) as [Hb | Ha].
        - rewrite (Hlo Hb). lra.
        - rewrite (Hhi Ha).
          assert (~ (inject_Z o <= normalized arrival
                     /\ normalized arrival <= inject_Z c))
            by (intros Hin; apply Hsat in Hin; discriminate).
          assert (inject_Z c < normalized arrival)
            by (apply Qnot_le_lt; tauto).
          lra. }
      split; [lra |]. split; [lra |]. split; [discriminate |].
      apply Hagain; rewrite Hopen; [apply Qle_refl | exact Hoc].
  - exfalso. exact (window_of_never_cross location o c Hoko Hokc Hw).
Qed.

(** The minute of the day does not change over whole days. *)
Lemma normalized_period (arrival : Q) (days : Z) :
  normalized (arrival + 1440 * inject_Z days) == normalized arrival.
Proof.
  destruct (normalized_range start_time arrival) as [Hn0 Hn1].
  unfold ConstraintChecker.normalized in *.
  pose proof (fmod_decompose
                (inject_Z (start_time_minutes start_time) + arrival)
                (24 * 60)) as Hd.
  set (f := Qfloor _) in Hd.
  apply (fmod_unique _ _ (f + days)); [lia | exact Hn0 | exact Hn1 |].
  rewrite inject_Z_plus. change (inject_Z (24 * 60)) with 1440 in *. lra.
Qed.

(** X9.  The check depends on the arrival only through its minute of the
    day: an arrival any whole number of days later or earlier has the same
    answer and the same wait. *)
Theorem check_window_daily (location : Location) (arrival : Q) (days : Z) :
  (check_window location (arrival + 1440 * inject_Z days)).1
  = (check_window location arrival).1 /\
  (check_window location (arrival + 1440 * inject_Z days)).2
  == (check_window location arrival).2 + 1440 * inject_Z days.
Proof.
  pose proof (normalized_period arrival days) as Hperiod.
  unfold ConstraintChecker.check_window. cbv zeta.
  destruct (window_of location) as [| o c | o c].
  - split; reflexivity.
  - rewrite (Qleb_comp _ _ (Qeq_refl (inject_Z o)) _ _ Hperiod).
    rewrite (Qleb_comp _ _ Hperiod _ _ (Qeq_refl (inject_Z c))).
    destruct (Qle_bool (inject_Z o) (normalized arrival)
              && Qle_bool (normalized arrival) (inject_Z c));
      [split; reflexivity |].
    unfold Qltb.
    rewrite (Qleb_comp _ _ (Qeq_refl (inject_Z o)) _ _ Hperiod).
    cbn [fst snd]. split; [reflexivity |].
    destruct (negb (Qle_bool (inject_Z o) (normalized arrival)));
      rewrite Hperiod; ring.
  - rewrite (Qleb_comp _ _ (Qeq_refl (inject_Z o)) _ _ Hperiod).
    rewrite (Qleb_comp _ _ Hperiod _ _ (Qeq_refl (inject_Z c))).
    destruct (Qle_bool (inject_Z o) (normalized arrival)
              || Qle_bool (normalized arrival) (inject_Z c));
      [split; reflexivity |].
    cbn [fst snd]. split; [reflexivity |]. rewrite Hperiod. ring.
Qed.

End WindowExtras.

Lemma cross_day_branch_dead_witness :
  window_of (mk_Location 7 "night market" 0 0
               (Some (mk_time 22 0 0 0)) (Some (mk_time 6 0 0 0)) 0 1)
  = NormalWindow 1320 1800.
Proof.
  destruct (cross_day_branch_dead (mk_time 0 0 0 0)
              (mk_Location 7 "night market" 0 0
                 (Some (mk_time 22 0 0 0)) (Some (mk_time 6 0 0 0)) 0 1))
    as [_ Hspan].
  - split; intros t Ht; inversion Ht; unfold time_ok; cbn; lia.
  - destruct (Hspan (mk_time 22 0 0 0) (mk_time 6 0 0 0) 0
                eq_refl eq_refl ltac:(reflexivity)) as [Hw _].
    exact Hw.
Defined.

Lemma check_window_adjusted_witness :
  let museum := mk_Location 1 "museum" 3 4
                  (Some (mk_time 8 30 0 0)) (Some (mk_time 17 0 0 0))
                  180 (3 # 2) in
  ConstraintChecker.check_window (mk_time 9 0 0 0) museum
    (ConstraintChecker.check_window (mk_time 9 0 0 0) museum 600).2
  = (true, (ConstraintChecker.check_window (mk_time 9 0 0 0) museum 600).2).
Proof.
  intros museum.
  destruct (check_window_adjusted (mk_time 9 0 0 0) museum 600)
    as (_ & _ & _ & Hagain); [| exact Hagain].
  split; intros t Ht; inversion Ht; unfold time_ok; cbn; lia.
Defined.

(** ** More on the evaluation of a route *)

Section EvaluatorExtras.
Import ConstraintChecker.

Variable locations : list Location.
Variable formula : Q -> Q -> Q -> Q -> Q.
Variable avg_speed : Q.
Variable start_time : time.

Abbreviation simulate := (simulate locations formula avg_speed start_time).
Abbreviation evaluate_route :=
  (evaluate_route locations formula avg_speed start_time).
Abbreviation check_window := (check_window start_time).

Lemma valid_route_cons (location_idx : nat) (rest : list nat) :
  valid_route locations (location_idx :: rest)
  <-> (location_idx < length locations)%nat /\ valid_route locations rest.
Proof. unfold valid_route. rewrite Forall_cons. reflexivity. Qed.

(** The loop raises exactly on an index that is not an index of a location,
    or at speed 0 when there is a leg to travel. *)
Lemma simulate_none_iff (rest : list nat) (s : sim) :
  simulate rest s = None
  <-> ~ valid_route locations rest
      \/ ((2 <= length rest)%nat /\ avg_speed == 0).
Proof.
  revert s. induction rest as [| location_idx rest IH]; intros s.
  - cbn. split; [discriminate |].
    intros [Hbad | [Hlen _]]; [| lia]. contradiction Hbad. apply Forall_nil_2.
  - cbn [ConstraintChecker.simulate]. unfold check_time_window.
    rewrite valid_route_cons.
    destruct (locations !! location_idx) as [location |] eqn:Hloc.
    2:{ apply lookup_ge_None in Hloc. split; [| reflexivity].
        intros _. left. intros [Hidx _]. lia. }
    apply lookup_lt_Some in Hloc. cbn [mbind option_bind].
    destruct (check_window location (sim_time s)) as [is_valid actual].
    destruct rest as [| next_idx rest].
    + cbn. split; [discriminate |].
      intros [Hbad | [Hlen _]]; [| lia].
      contradiction Hbad. split; [exact Hloc | apply Forall_nil_2].
    + unfold DistanceMatrix.get_travel_time. rewrite get_distance_spec.
      rewrite valid_route_cons in *.
      destruct (decide ((location_idx < length locations)%nat
                        /\ (next_idx < length locations)%nat))
        as [[_ Hnext] | Hout].
      * destruct (Qeq_bool avg_speed 0) eqn:Hzero.
        -- apply Qeq_bool_iff in Hzero. split; [| reflexivity].
           intros _. right. split; [cbn; lia | exact Hzero].
        -- apply Qeq_bool_neq in Hzero. cbn [mbind option_bind].
           rewrite IH. rewrite valid_route_cons. split.
           ++ intros [Hbad | [_ Hz]]; [| contradiction].
              left. intros [_ Hvalid]. apply Hbad. exact Hvalid.
           ++ intros [Hbad | [_ Hz]]; [| contradiction].
              left. intros Hvalid. apply Hbad. split; assumption.
      * split; [| reflexivity]. intros _. left.
        intros [_ [Hnext _]]. apply Hout. split; assumption.
Qed.

(** X10.  [evaluate_route] raises in exactly two cases: the route holds an
    index that is not an index of a location, or the speed is 0 and the
    route has two stops or more.  The empty route and a route of one valid
    stop are evaluated at any speed. *)
Theorem evaluate_route_raises_iff (route : list nat) :
  evaluate_route route = None
  <-> ~ valid_route locations route
      \/ ((2 <= length route)%nat /\ avg_speed == 0).
Proof.
  destruct route as [| location_idx rest].
  - cbn. split; [discriminate |].
    intros [Hbad | [Hlen _]]; [| lia]. contradiction Hbad. apply Forall_nil_2.
  - rewrite <- (simulate_none_iff (location_idx :: rest) (mk_sim 0 0 [] 0)).
    unfold ConstraintChecker.evaluate_route.
    destruct (simulate (location_idx :: rest) (mk_sim 0 0 [] 0));
      cbn [mbind option_bind]; split; intros Heq;
      try discriminate; reflexivity.
Qed.

(** The distance the loop adds is the length of the path. *)
Lemma simulate_distance (rest : list nat) (s s' : sim) :
  simulate rest s = Some s' ->
  sim_distance s' == sim_distance s + path_length locations formula rest.
Proof.
  revert s. induction rest as [| location_idx rest IH]; intros s.
  - intros [= <-]. cbn. ring.
  - cbn [ConstraintChecker.simulate]. unfold check_time_window.
    destruct (locations !! location_idx) as [location |]; [| discriminate].
    cbn [mbind option_bind].
    destruct (check_window location (sim_time s)) as [is_valid actual].
    destruct rest as [| next_idx rest].
    + intros [= <-]. cbn. ring.
    + unfold DistanceMatrix.get_travel_time. rewrite get_distance_spec.
      destruct (decide _); [| discriminate].
      destruct (Qeq_bool avg_speed 0); [discriminate |].
      cbn [mbind option_bind]. intros Hrun.
      rewrite (IH _ Hrun). cbn [sim_distance].
      change (path_length locations formula
                (location_idx :: next_idx :: rest))
        with (DistanceMatrix.entry locations formula location_idx next_idx
              + path_length locations formula (next_idx :: rest)).
      ring.
Qed.

(** X11.  The total distance of a solution is the sum of the table
    distances of the consecutive stops of its route, and its route is the
    route that was evaluated: the distance depends neither on the start
    time nor on the speed nor on the time windows. *)
Theorem evaluate_route_distance (stops : list nat)
    (solution : RouteSolution) :
  evaluate_route stops = Some solution ->
  route solution = stops /\
  total_distance solution == path_length locations formula stops.
Proof.
  destruct stops as [| location_idx rest].
  - intros [= <-]. split; reflexivity.
  - unfold ConstraintChecker.evaluate_route.
    destruct (simulate (location_idx :: rest) (mk_sim 0 0 [] 0))
      as [s |] eqn:Hs; [| discriminate].
    cbn [mbind option_bind]. intros [= <-].
    split; [reflexivity |]. cbn [total_distance].
    rewrite (simulate_distance _ _ _ Hs). cbn [sim_distance]. ring.
Qed.

Lemma no_window_satisfied (location : Location) (a : Q) :
  open_time location = None \/ close_time location = None ->
  check_window location a = (true, a).
Proof.
  intros Hnone. unfold ConstraintChecker.check_window, window_of.
  destruct Hnone as [-> | ->]; [reflexivity |].
  destruct (open_time location); reflexivity.
Qed.

Lemma missed_count_no_windows (stops : list nat) (arrivals : list Q) :
  Forall (fun location =>
            open_time location = None \/ close_time location = None)
         locations ->
  missed_count locations start_time stops arrivals = 0%nat.
Proof.
  intros Hnone. rewrite Forall_forall in Hnone.
  revert arrivals. induction stops as [| location_idx rest IH];
    intros [| a arrivals]; try reflexivity.
  specialize (IH arrivals). unfold missed_count in *.
  cbn [zip zip_with]. rewrite filter_cons.
  destruct (decide _) as [Hmissed | _]; [| exact IH].
  exfalso. unfold missed_window in Hmissed. cbn [fst snd] in Hmissed.
  destruct (locations !! location_idx) as [location |] eqn:Hloc;
    [| discriminate].
  rewrite no_window_satisfied in Hmissed; [discriminate |].
  apply Hnone, list_elem_of_lookup. exists location_idx. exact Hloc.
Qed.

(** X12.  When no location has a time window (an open time and a close
    time), a non-empty route is evaluated without a violation and without
    a wait: its fitness is its total distance, and each arrival is the
    previous arrival plus the stay and the travel time. *)
Theorem evaluate_route_without_windows (stops : list nat)
    (solution : RouteSolution) :
  Forall (fun location =>
            open_time location = None \/ close_time location = None)
         locations ->
  stops <> [] ->
  evaluate_route stops = Some solution ->
  violations solution = 0%nat /\
  same_float (fitness solution) (Fin (total_distance solution)) /\
  (forall i location_idx next_idx a,
     stops !! i = Some location_idx -> stops !! S i = Some next_idx ->
     arrival_times solution !! i = Some a ->
     exists location distance,
       locations !! location_idx = Some location /\
       DistanceMatrix.get_distance locations formula location_idx next_idx
       = Fin distance /\
       arrival_times solution !! S i
       = Some (a + inject_Z (stay_duration location)
               + (distance / avg_speed) * 60)).
Proof.
  intros Hnone Hne Hsol.
  destruct (evaluate_route_cases locations formula avg_speed start_time
              stops solution Hne Hsol) as (s & Hs & ->).
  destruct (simulate_spec locations formula avg_speed start_time _ _ _ Hs)
    as (new & Hnew & _ & Hcount & _ & Hpairs & _).
  cbn [sim_arrivals sim_violations app] in Hnew, Hcount.
  rewrite (missed_count_no_windows stops new Hnone) in Hcount.
  cbn [violations fitness total_distance arrival_times].
  rewrite Hcount, Hnew. split; [reflexivity |]. split.
  - cbn. ring.
  - intros i location_idx next_idx a Hi Hsi Ha.
    destruct (Hpairs i location_idx next_idx a Hi Hsi Ha)
      as (location & distance & Hloc & Hd & Hnext).
    exists location, distance. split; [exact Hloc |]. split; [exact Hd |].
    rewrite no_window_satisfied in Hnext; [exact Hnext |].
    rewrite Forall_forall in Hnone. apply Hnone.
    apply list_elem_of_lookup. exists location_idx. exact Hloc.
Qed.

Lemma check_window_not_earlier (location : Location) (a : Q) :
  location_ok location -> a <= (check_window location a).2.
Proof.
  intros [Hoko Hokc].
  destruct (window_of location) as [| o c | o c] eqn:Hw.
  - unfold ConstraintChecker.check_window. rewrite Hw. apply Qle_refl.
  - destruct (window_of_normal _ _ _ Hw) as (ot & ct & Hot & _ & Ho & _).
    assert (Hro : (0 <= o < 24 * 60)%Z)
      by (rewrite Ho; apply time_to_minutes_range, Hoko, Hot).
    destruct (normal_window_spec start_time location o c a Hw Hro)
      as (_ & Hsame & Hwait).
    destruct (check_window location a) as [[|] adjusted]; cbn [fst snd] in *.
    + rewrite (Hsame eq_refl). apply Qle_refl.
    + destruct (Hwait eq_refl) as (w & -> & Hpos & _). lra.
  - exfalso. exact (window_of_never_cross location o c Hoko Hokc Hw).
Qed.

Lemma adjacent_le_all (l : list Q) :
  (forall i a a', l !! i = Some a -> l !! S i = Some a' -> a <= a') ->
  forall i j a b, (i <= j)%nat -> l !! i = Some a -> l !! j = Some b ->
                  a <= b.
Proof.
  intros Hadj i j. revert i.
  induction j as [| j IH]; intros i a b Hij Ha Hb.
  - replace i with 0%nat in Ha by lia. rewrite Ha in Hb.
    inversion Hb. apply Qle_refl.
  - destruct (decide (i = S j)) as [-> | Hne].
    + rewrite Ha in Hb. inversion Hb. apply Qle_refl.
    + destruct (lookup_lt_is_Some_2 l j) as [c Hc].
      { apply lookup_lt_Some in Hb. lia. }
      apply (Qle_trans _ c); [apply (IH i a c); [lia | exact Ha | exact Hc] |].
      exact (Hadj j c b Hc Hb).
Qed.

(** X13.  With stays that are not negative, distances that are not
    negative and a positive speed, the clock of a route never runs back:
    every arrival is at or after 0 and at or after the arrivals before it,
    and the total time is at or after every arrival. *)
Theorem evaluate_route_clock_monotone (stops : list nat)
    (solution : RouteSolution) :
  Forall location_ok locations ->
  Forall (fun location => (0 <= stay_duration location)%Z) locations ->
  (forall lat1 lon1 lat2 lon2, 0 <= formula lat1 lon1 lat2 lon2) ->
  0 < avg_speed ->
  evaluate_route stops = Some solution ->
  (forall i j a b,
     (i <= j)%nat ->
     arrival_times solution !! i = Some a ->
     arrival_times solution !! j = Some b -> a <= b) /\
  (forall i a,
     arrival_times solution !! i = Some a ->
     0 <= a /\ a <= total_time solution).
Proof.
  intros Hok Hstay Hformula Hspeed Hsol.
  rewrite Forall_forall in Hok, Hstay.
  destruct stops as [| location_idx rest] eqn:Hstops.
  { inversion Hsol. cbn. split.
    - intros i j a b _ Ha. rewrite lookup_nil in Ha. discriminate.
    - intros i a Ha. rewrite lookup_nil in Ha. discriminate. }
  rewrite <- Hstops in *.
  assert (Hne : stops <> []) by (rewrite Hstops; discriminate).
  destruct (evaluate_route_cases locations formula avg_speed start_time
              stops solution Hne Hsol) as (s & Hs & ->).
  destruct (simulate_spec locations formula avg_speed start_time _ _ _ Hs)
    as (new & Hnew & Hlen & _ & Hhead & Hpairs & _ & Hend).
  cbn [sim_arrivals sim_time app] in Hnew, Hhead.
  cbn [arrival_times total_time]. rewrite Hnew.
  assert (Hadj : forall i a a',
             new !! i = Some a -> new !! S i = Some a' -> a <= a').
  { intros i a a' Ha Ha'.
    destruct (lookup_lt_is_Some_2 stops i) as [idx Hidx];
      [rewrite <- Hlen; exact (lookup_lt_Some _ _ _ Ha) |].
    destruct (lookup_lt_is_Some_2 stops (S i)) as [next Hnext];
      [rewrite <- Hlen; exact (lookup_lt_Some _ _ _ Ha') |].
    destruct (Hpairs i idx next a Hidx Hnext Ha)
      as (location & distance & Hloc & Hd & Hnexta).
    rewrite Ha' in Hnexta. inversion Hnexta as [Heq].
    assert (Hin : location ∈ locations)
      by (apply list_elem_of_lookup; exists idx; exact Hloc).
    pose proof (check_window_not_earlier location a (Hok _ Hin)) as Hadjust.
    assert (Hs0 : 0 <= inject_Z (stay_duration location)).
    { change 0 with (inject_Z 0). rewrite <- Zle_Qle. exact (Hstay _ Hin). }
    assert (Hd0 : 0 <= distance).
    { rewrite get_distance_spec in Hd. destruct (decide _); [| discriminate].
      inversion Hd. unfold DistanceMatrix.entry.
      destruct (decide _); [apply Qle_refl | apply Hformula]. }
    assert (Htravel : 0 <= distance / avg_speed * 60).
    { apply Qmult_le_0_compat; [| discriminate].
      apply Qle_shift_div_l; [exact Hspeed | lra]. }
    lra. }
  pose proof (adjacent_le_all new Hadj) as Hall.
  split; [exact Hall |].
  intros i a Ha.
  assert (H0 : new !! 0%nat = Some 0)
    by (rewrite <- head_lookup; apply Hhead, Hne).
  split; [exact (Hall 0%nat i 0 a ltac:(lia) H0 Ha) |].
  destruct (last stops) as [last_idx |] eqn:Hlast;
    [| apply last_None in Hlast; contradiction].
  destruct (Hend last_idx eq_refl) as (location & b & Hloc & Hlastb & Htime).
  rewrite Htime. rewrite last_lookup in Hlastb.
  assert (Hin : location ∈ locations)
    by (apply list_elem_of_lookup; exists last_idx; exact Hloc).
  pose proof (check_window_not_earlier location b (Hok _ Hin)) as Hadjust.
  assert (Hs0 : 0 <= inject_Z (stay_duration location)).
  { change 0 with (inject_Z 0). rewrite <- Zle_Qle. exact (Hstay _ Hin). }
  assert (Hab : a <= b).
  { apply (Hall i (Init.Nat.pred (length new)) a b); [| exact Ha | exact Hlastb].
    apply lookup_lt_Some in Ha. lia. }
  lra.
Qed.

End EvaluatorExtras.

Lemma evaluate_route_distance_witness :
  exists solution,
    ConstraintChecker.evaluate_route example_locations example_formula 30
      (mk_time 9 0 0 0) [1; 0; 2]%nat = Some solution /\
    total_distance solution == 13.
Proof.
  destruct (ConstraintChecker.evaluate_route example_locations example_formula
              30 (mk_time 9 0 0 0) [1; 0; 2]%nat) as [solution |] eqn:Hsol;
    [| vm_compute in Hsol; discriminate].
  exists solution. split; [reflexivity |].
  destruct (evaluate_route_distance example_locations example_formula 30
              (mk_time 9 0 0 0) [1; 0; 2]%nat solution Hsol) as [_ Hd].
  rewrite Hd. vm_compute. reflexivity.
Defined.

Lemma evaluate_route_without_windows_witness :
  let stops := [ mk_Location 0 "a" 0 0 None None 10 1;
                 mk_Location 1 "b" 3 4 None None 20 1 ] in
  exists solution,
    ConstraintChecker.evaluate_route stops example_formula 30
      (mk_time 9 0 0 0) [1; 0]%nat = Some solution /\
    violations solution = 0%nat.
Proof.
  intros stops.
  destruct (ConstraintChecker.evaluate_route stops example_formula 30
              (mk_time 9 0 0 0) [1; 0]%nat) as [solution |] eqn:Hsol;
    [| vm_compute in Hsol; discriminate].
  exists solution. split; [reflexivity |].
  destruct (evaluate_route_without_windows stops example_formula 30
              (mk_time 9 0 0 0) [1; 0]%nat solution) as [Hv _];
    [repeat (apply Forall_cons_2; [left; reflexivity |]); apply Forall_nil_2
     | discriminate | exact Hsol | exact Hv].
Defined.

Lemma example_formula_nonneg (lat1 lon1 lat2 lon2 : Q) :
  0 <= example_formula lat1 lon1 lat2 lon2.
Proof.
  unfold example_formula.
  pose proof (Qabs_nonneg (lat1 - lat2)).
  pose proof (Qabs_nonneg (lon1 - lon2)). lra.
Qed.

Lemma evaluate_route_clock_monotone_witness :
  exists solution,
    ConstraintChecker.evaluate_route example_locations example_formula 30
      (mk_time 9 0 0 0) [2; 1; 0]%nat = Some solution /\
    forall i a, arrival_times solution !! i = Some a ->
                0 <= a /\ a <= total_time solution.
Proof.
  destruct (ConstraintChecker.evaluate_route example_locations example_formula
              30 (mk_time 9 0 0 0) [2; 1; 0]%nat) as [solution |] eqn:Hsol;
    [| vm_compute in Hsol; discriminate].
  exists solution. split; [reflexivity |].
  destruct (evaluate_route_clock_monotone example_locations example_formula 30
              (mk_time 9 0 0 0) [2; 1; 0]%nat solution) as [_ Hall];
    [exact example_locations_ok
     | repeat (apply Forall_cons_2; [cbn; lia |]); apply Forall_nil_2
     | exact example_formula_nonneg | reflexivity | exact Hsol | exact Hall].
Defined.

(** ** More on the genetic search *)

Section RankingExtras.
Import GeneticAlgorithm.

Abbreviation by_fitness :=
  (fun a b : xfloat * list nat => xle a.1 b.1 = true).

Lemma insert_ranked_permutation (x : xfloat * list nat)
    (l : list (xfloat * list nat)) :
  insert_ranked x l ≡ₚ x :: l.
Proof.
  induction l as [| y l IH]; cbn [insert_ranked]; [reflexivity |].
  destruct (xle x.1 y.1); [reflexivity |].
  rewrite IH. apply perm_swap.
Qed.

Lemma sorted_by_fitness_permutation (l : list (xfloat * list nat)) :
  sorted_by_fitness l ≡ₚ l.
Proof.
  unfold sorted_by_fitness. induction l as [| x l IH]; cbn [foldr];
    [reflexivity |].
  rewrite insert_ranked_permutation, IH. reflexivity.
Qed.

Lemma insert_ranked_sorted (x : xfloat * list nat)
    (l : list (xfloat * list nat)) :
  StronglySorted by_fitness l -> StronglySorted by_fitness (insert_ranked x l).
Proof.
  induction 1 as [| y l Hsorted IH Hall]; cbn [insert_ranked].
  - apply SSorted_cons; [apply SSorted_nil | apply Forall_nil_2].
  - destruct (xle x.1 y.1) eqn:Hxy.
    + apply SSorted_cons; [apply SSorted_cons; assumption |].
      apply Forall_cons_2; [exact Hxy |].
      apply Forall_forall. intros z Hz. rewrite Forall_forall in Hall.
      exact (xle_trans _ _ _ Hxy (Hall z Hz)).
    + apply SSorted_cons; [exact IH |].
      apply Forall_forall. intros z Hz.
      apply elem_of_insert_ranked in Hz. destruct Hz as [-> | Hz].
      * apply xlt_xle. unfold xle in Hxy. apply negb_false_iff in Hxy.
        exact Hxy.
      * rewrite Forall_forall in Hall. exact (Hall z Hz).
Qed.

Lemma sorted_by_fitness_sorted (l : list (xfloat * list nat)) :
  StronglySorted by_fitness (sorted_by_fitness l).
Proof.
  unfold sorted_by_fitness. induction l as [| x l IH]; cbn [foldr].
  - apply SSorted_nil.
  - apply insert_ranked_sorted, IH.
Qed.

Lemma strongly_sorted_lookup (l : list (xfloat * list nat)) :
  StronglySorted by_fitness l ->
  forall i j x y, (i <= j)%nat -> l !! i = Some x -> l !! j = Some y ->
                  xle x.1 y.1 = true.
Proof.
  induction 1 as [| z l Hsorted IH Hall]; intros i j x y Hij Hi Hj.
  - rewrite lookup_nil in Hi. discriminate.
  - destruct i as [| i], j as [| j]; cbn in Hi, Hj.
    + inversion Hi; subst. inversion Hj; subst. apply xle_refl.
    + inversion Hi; subst. rewrite Forall_forall in Hall. apply Hall.
      apply list_elem_of_lookup. exists j. exact Hj.
    + lia.
    + apply (IH i j); [lia | assumption | assumption].
Qed.

End RankingExtras.

Section GeneticExtras.
Import GeneticAlgorithm.
Context {gen : Type} `{Random gen}.

Variable locations : list Location.
Variable formula : Q -> Q -> Q -> Q -> Q.
Variable avg_speed : Q.
Variable start_time : time.

Abbreviation evaluate_route :=
  (evaluate_route locations formula avg_speed start_time).
Abbreviation fitness_of := (fitness_of locations formula avg_speed start_time).
Abbreviation rank_population :=
  (rank_population locations formula avg_speed start_time).

(** X14.  The ranking of a population holds the individuals of the
    population, each once more than it is repeated there and each with its
    own fitness, in ascending order of fitness; [rank_population] raises
    exactly when the evaluation of one of the individuals raises. *)
Theorem rank_population_sorted (population : list (list nat)) :
  (rank_population population = None
   <-> exists individual,
         individual ∈ population /\ evaluate_route individual = None) /\
  (forall ranked,
     rank_population population = Some ranked ->
     ranked.*2 ≡ₚ population /\
     (forall f individual,
        (f, individual) ∈ ranked -> fitness_of individual = Some f) /\
     (forall i j x y,
        (i <= j)%nat -> ranked !! i = Some x -> ranked !! j = Some y ->
        xle x.1 y.1 = true)).
Proof.
  unfold GeneticAlgorithm.rank_population.
  destruct (mapM (fun individual =>
                    f ← fitness_of individual; Some (f, individual))
                 population) as [results |] eqn:Hmap.
  - cbn [mbind option_bind]. apply mapM_Some in Hmap. split.
    + split; [discriminate |].
      intros (individual & Hin & Hnone). exfalso.
      apply list_elem_of_lookup in Hin. destruct Hin as [i Hi].
      destruct (Forall2_lookup_l _ _ _ _ _ Hmap Hi) as (z & _ & Hz).
      unfold GeneticAlgorithm.fitness_of in Hz. rewrite Hnone in Hz.
      discriminate.
    + intros ranked [= <-].
      assert (Hsnd : results.*2 = population).
      { clear -Hmap. induction Hmap as [| ind z l k Hz _ IH]; [reflexivity |].
        destruct (fitness_of ind); [| discriminate].
        cbn in Hz. inversion Hz. cbn. rewrite IH. reflexivity. }
      split; [rewrite sorted_by_fitness_permutation, Hsnd; reflexivity |].
      split.
      * intros f individual Hin.
        rewrite sorted_by_fitness_permutation in Hin.
        apply list_elem_of_lookup in Hin. destruct Hin as [i Hi].
        destruct (Forall2_lookup_r _ _ _ _ _ Hmap Hi) as (ind & _ & Hz).
        destruct (fitness_of ind) as [f' |] eqn:Hf; [| discriminate].
        cbn in Hz. inversion Hz; subst. exact Hf.
      * apply strongly_sorted_lookup, sorted_by_fitness_sorted.
  - split; [| discriminate]. split; [| reflexivity]. intros _.
    destruct (decide (Forall (fun individual =>
                                is_Some (evaluate_route individual))
                             population)) as [Hall | Hsome].
    + exfalso.
      assert (Hok : is_Some (mapM (fun individual =>
                                     f ← fitness_of individual;
                                     Some (f, individual)) population)).
      { apply mapM_is_Some. apply Forall_forall. intros ind Hind.
        rewrite Forall_forall in Hall. destruct (Hall ind Hind) as [sol Hsol].
        cbn. unfold GeneticAlgorithm.fitness_of. rewrite Hsol.
        eexists. reflexivity. }
      rewrite Hmap in Hok. destruct Hok as [? Hok]. discriminate.
    + apply not_Forall_Exists in Hsome; [| intros x; apply _].
      apply Exists_exists in Hsome. destruct Hsome as (ind & Hind & Hnone).
      exists ind. split; [exact Hind |].
      destruct (evaluate_route ind) as [solution |] eqn:Hsol;
        [| reflexivity].
      exfalso. apply Hnone. rewrite Hsol. eexists. reflexivity.
Qed.

(** X15.  The roulette draws one number and returns an individual of the
    ranking it is given; on an empty ranking it raises. *)
Theorem selection_picks_ranked (ranked : list (xfloat * list nat)) (g : gen) :
  selection ranked g = None \/
  exists individual,
    selection ranked g = Some (individual, (rand_float g).2) /\
    individual ∈ ranked.*2 /\ ranked <> [].
Proof.
  unfold selection, mbind, M_bind, lift, random.
  destruct (mapM _ ranked) as [fitnesses |]; [| left; reflexivity].
  destruct (mapM _ fitnesses) as [probabilities |]; [| left; reflexivity].
  cbv zeta. destruct (rand_float g) as [r g1]. cbn [snd].
  destruct (list_find _ _) as [[i cum] |].
  - destruct (ranked !! i) as [z |] eqn:Hz; [| left; reflexivity].
    right. exists z.2. cbn. split; [reflexivity |]. split.
    + apply list_elem_of_fmap. exists z. split; [reflexivity |].
      apply list_elem_of_lookup. exists i. exact Hz.
    + intros ->. rewrite lookup_nil in Hz. discriminate.
  - destruct (last ranked) as [z |] eqn:Hz; [| left; reflexivity].
    right. exists z.2. cbn. split; [reflexivity |]. split.
    + apply list_elem_of_fmap. exists z. split; [reflexivity |].
      apply last_Some_elem_of, Hz.
    + intros ->. discriminate.
Qed.

End GeneticExtras.

(** ** The order crossover *)

Section CrossoverExtras.
Import GeneticAlgorithm.

Lemma filter_ext_elem {A : Type} (P1 P2 : A -> Prop)
    `{!forall x, Decision (P1 x)} `{!forall x, Decision (P2 x)}
    (l : list A) :
  (forall x, x ∈ l -> P1 x <-> P2 x) -> filter P1 l = filter P2 l.
Proof.
  induction l as [| x l IH]; intros Hiff; [reflexivity |].
  assert (Hrest : filter P1 l = filter P2 l).
  { apply IH. intros y Hy. apply Hiff, elem_of_cons. right. exact Hy. }
  assert (Hx : P1 x <-> P2 x)
    by (apply Hiff, elem_of_cons; left; reflexivity).
  destruct (decide (P1 x)) as [Hyes | Hno].
  - rewrite !filter_cons_True by tauto. rewrite Hrest. reflexivity.
  - rewrite !filter_cons_False by tauto. exact Hrest.
Qed.

Lemma fill_free_nil (child : list (option nat)) : fill_free child [] = child.
Proof.
  induction child as [| [x |] child IH]; cbn [fill_free];
    [reflexivity | rewrite IH; reflexivity | reflexivity].
Qed.

Lemma fill_free_first (child : list (option nat)) (k gene : nat)
    (genes : list nat) :
  list_find (fun slot : option nat => slot = None) child = Some (k, None) ->
  fill_free child (gene :: genes)
  = fill_free (<[k := Some gene]> child) genes.
Proof.
  revert k. induction child as [| [x |] child IH]; intros k Hfind.
  - discriminate.
  - cbn in Hfind.
    destruct (list_find (fun slot : option nat => slot = None) child)
      as [[k' slot] |] eqn:Hrest; [| discriminate].
    cbn in Hfind. inversion Hfind; subst.
    cbn [fill_free]. rewrite (IH k' eq_refl). reflexivity.
  - cbn in Hfind. inversion Hfind; subst. reflexivity.
Qed.

Lemma next_free_Some (child : list (option nat)) (pos pos' : nat) :
  next_free child pos = Some pos' ->
  (pos <= pos')%nat /\ child !! pos' = Some None /\
  (forall k, (pos <= k < pos')%nat -> child !! k <> Some None).
Proof.
  unfold next_free.
  destruct (list_find (fun slot => slot = None) (drop pos child))
    as [[k slot] |] eqn:Hfind; [| discriminate].
  cbn. intros [= <-].
  apply list_find_Some in Hfind. destruct Hfind as (Hk & -> & Hmin).
  rewrite lookup_drop in Hk.
  split; [lia |]. split; [exact Hk |].
  intros j Hj Hnone.
  apply (Hmin (j - pos)%nat None); [| lia | reflexivity].
  rewrite lookup_drop. replace (pos + (j - pos))%nat with j by lia.
  exact Hnone.
Qed.

Lemma next_free_first (child : list (option nat)) (pos pos' : nat) :
  (forall k, (k < pos)%nat -> child !! k <> Some None) ->
  next_free child pos = Some pos' ->
  list_find (fun slot : option nat => slot = None) child = Some (pos', None).
Proof.
  intros Hfilled Hnext.
  destruct (next_free_Some child pos pos' Hnext) as (Hle & Hfree & Hskip).
  apply list_find_Some. split; [exact Hfree |]. split; [reflexivity |].
  intros j y Hj Hlt ->.
  destruct (decide (j < pos)%nat) as [Hbefore | Hafter].
  - exact (Hfilled j Hbefore Hj).
  - apply (Hskip j); [lia | exact Hj].
Qed.

(** The filling loop fills the free slots, from the left, with the indices
    of the filler that the child does not hold, in the order of the
    filler. *)
Lemma fill_child_fill_free (n : nat) (filler : list nat)
    (child child' : list (option nat)) (pos : nat) :
  child_ok n child pos -> NoDup filler ->
  (forall g, g ∈ filler -> (g < n)%nat) ->
  fill_child filler child pos = Some child' ->
  child' = fill_free child (filter (fun g => Some g ∉ child) filler).
Proof.
  revert child pos.
  induction filler as [| gene filler IH];
    intros child pos Hok Hnodup Hbound Hrun.
  - inversion Hrun. rewrite filter_nil, fill_free_nil. reflexivity.
  - apply NoDup_cons in Hnodup. destruct Hnodup as [Hfresh Hnodup].
    assert (Hrest : forall g, g ∈ filler -> (g < n)%nat)
      by (intros g Hg; apply Hbound, elem_of_cons; right; exact Hg).
    assert (Hgene : (gene < n)%nat)
      by (apply Hbound, elem_of_cons; left; reflexivity).
    cbn [fill_child] in Hrun.
    destruct (decide (Some gene ∈ child)) as [Hin | Hmissing].
    + rewrite filter_cons_False by (intros Hno; exact (Hno Hin)).
      exact (IH child pos Hok Hnodup Hrest Hrun).
    + rewrite filter_cons_True by exact Hmissing.
      destruct (next_free child pos) as [pos' |] eqn:Hnext; [| discriminate].
      cbn [mbind option_bind] in Hrun.
      destruct (next_free_Some child pos pos' Hnext) as (Hle & Hfree & Hskip).
      pose proof (place_gene_ok n child pos pos' gene Hok Hgene Hmissing
                                Hle Hfree Hskip) as Hok'.
      rewrite (IH _ pos' Hok' Hnodup Hrest Hrun).
      rewrite (fill_free_first child pos' gene).
      2:{ apply (next_free_first child pos); [apply Hok | exact Hnext]. }
      f_equal. apply filter_ext_elem.
      intros g Hg.
      assert (Hne : g <> gene) by (intros ->; contradiction).
      rewrite !list_elem_of_lookup. split; intros Hno [k Hk]; apply Hno;
        exists k.
      * rewrite list_lookup_insert_ne; [exact Hk |].
        intros ->. rewrite Hfree in Hk. discriminate.
      * rewrite list_lookup_insert in Hk.
        destruct (decide _) as [[-> _] |]; [congruence | exact Hk].
Qed.

Lemma fill_free_filled (segment : list nat) (child : list (option nat))
    (genes : list nat) :
  fill_free ((Some <$> segment) ++ child) genes
  = (Some <$> segment) ++ fill_free child genes.
Proof.
  induction segment as [| x segment IH]; cbn; [reflexivity |].
  cbn in IH. rewrite IH. reflexivity.
Qed.

Lemma fill_free_replicate (a : nat) (child : list (option nat))
    (genes : list nat) :
  (a <= length genes)%nat ->
  fill_free (replicate a None ++ child) genes
  = (Some <$> take a genes) ++ fill_free child (drop a genes).
Proof.
  revert genes. induction a as [| a IH]; intros genes Hlen.
  - rewrite take_0, drop_0. reflexivity.
  - destruct genes as [| gene genes]; [cbn in Hlen; lia |].
    cbn. cbn in IH. rewrite IH by (cbn in Hlen; lia). reflexivity.
Qed.

(** The indices of a permutation outside a segment of another one are as
    many as the slots outside the segment. *)
Lemma length_filter_outside (n : nat) (segment filler : list nat) :
  NoDup segment -> (forall x, x ∈ segment -> x ∈ filler) -> NoDup filler ->
  (length (filter (fun g => g ∉ segment) filler) + length segment)%nat
  = length filler.
Proof.
  intros Hseg Hsub Hfiller.
  rewrite <- (Permutation_length
                (filter_app_complement (fun g => g ∈ segment) filler)).
  rewrite length_app.
  assert (Hinside : filter (fun g => g ∈ segment) filler ≡ₚ segment).
  { apply NoDup_Permutation; [apply NoDup_filter, Hfiller | exact Hseg |].
    intros x. rewrite list_elem_of_filter. split; [tauto |].
    intros Hx. split; [exact Hx | apply Hsub, Hx]. }
  rewrite (Permutation_length Hinside). lia.
Qed.

(** X16.  The child of the order crossover of two permutations keeps the
    segment of the donor between the two cut points in its place; its
    other slots hold, from the left, the indices of the other parent that
    are not in the segment, in the order the other parent visits them. *)
Theorem order_crossover_child (n : nat) (donor filler : list nat)
    (point1 point2 : nat) :
  is_permutation n donor -> is_permutation n filler ->
  (point1 <= point2)%nat -> (point2 < n)%nat ->
  let segment := take (S point2 - point1) (drop point1 donor) in
  let others := filter (fun g => g ∉ segment) filler in
  make_child donor filler point1 point2
  = Some (take point1 others ++ segment ++ drop point1 others).
Proof.
  intros Hdonor Hfiller H12 H2 segment others.
  pose proof (is_permutation_length n donor Hdonor) as Hlen.
  pose proof (is_permutation_length n filler Hfiller) as Hlenf.
  assert (Hnd : NoDup donor)
    by (unfold is_permutation in Hdonor; rewrite Hdonor; apply NoDup_seq).
  assert (Hnf : NoDup filler)
    by (unfold is_permutation in Hfiller; rewrite Hfiller; apply NoDup_seq).
  assert (Hsub : segment `sublist_of` donor).
  { unfold segment. etransitivity; [apply sublist_take | apply sublist_drop]. }
  assert (Hseglen : length segment = (S point2 - point1)%nat).
  { unfold segment. rewrite length_take, length_drop. lia. }
  assert (Hothers : (length others + length segment)%nat = n).
  { rewrite <- Hlenf. apply (length_filter_outside n).
    - exact (sublist_NoDup _ _ Hnd Hsub).
    - intros x Hx. apply (is_permutation_elem n filler x Hfiller).
      apply (is_permutation_elem n donor x Hdonor).
      exact (elem_of_sublist _ _ _ Hx Hsub).
    - exact Hnf. }
  assert (Hseed : seed_child donor point1 point2
                  = replicate point1 None ++ (Some <$> segment)
                    ++ replicate (n - S point2) None).
  { unfold seed_child. cbv zeta.
    rewrite take_replicate, drop_replicate, Hlen.
    replace (point1 `min` n)%nat with point1 by lia. reflexivity. }
  unfold make_child.
  destruct (fill_child_spec n filler (seed_child donor point1 point2) 0)
    as (slots & Hrun & _).
  { apply seed_child_ok; assumption. }
  { intros g Hg. apply (is_permutation_elem n filler g Hfiller), Hg. }
  rewrite Hrun. cbn [mbind option_bind].
  rewrite (fill_child_fill_free n filler _ slots 0
             (seed_child_ok n donor point1 point2 Hdonor H12 H2) Hnf
             (fun g Hg => proj1 (is_permutation_elem n filler g Hfiller) Hg)
             Hrun).
  assert (Hfilter : filter (fun g => Some g ∉ seed_child donor point1 point2)
                           filler = others).
  { unfold others. apply list_filter_iff. intros g.
    rewrite Hseed, !elem_of_app, list_elem_of_fmap. split.
    - intros Hno Hg. apply Hno. right. left. exists g. auto.
    - intros Hno [Hrep | [(x & Hx & Hin) | Hrep]].
      + apply elem_of_replicate in Hrep. destruct Hrep; discriminate.
      + inversion Hx; subst. contradiction.
      + apply elem_of_replicate in Hrep. destruct Hrep; discriminate. }
  rewrite Hfilter, Hseed.
  rewrite fill_free_replicate by lia.
  rewrite fill_free_filled.
  rewrite <- (app_nil_r (replicate (n - S point2) None)).
  rewrite fill_free_replicate by (rewrite length_drop; lia).
  cbn [fill_free]. rewrite app_nil_r.
  rewrite (take_ge (drop point1 others)) by (rewrite length_drop; lia).
  rewrite <- !fmap_app. apply mapM_fmap_Some. reflexivity.
Qed.

End CrossoverExtras.

Lemma order_crossover_child_witness :
  GeneticAlgorithm.make_child [0; 1; 2; 3; 4]%nat [4; 3; 2; 1; 0]%nat 1 2
  = Some [4; 1; 2; 3; 0]%nat.
Proof.
  apply (order_crossover_child 5 [0; 1; 2; 3; 4]%nat [4; 3; 2; 1; 0]%nat 1 2);
    [unfold is_permutation; cbn; solve_Permutation
     | unfold is_permutation; cbn; solve_Permutation | lia | lia].
Defined.

(** ** The swap of two positions *)

Lemma swap_lookup (a a' : list nat) (i j : nat) :
  swap a i j = Some a' ->
  (i < length a)%nat /\ (j < length a)%nat /\ length a' = length a /\
  a' !! i = a !! j /\ a' !! j = a !! i /\
  (forall k, k <> i -> k <> j -> a' !! k = a !! k).
Proof.
  unfold swap.
  destruct (a !! j) as [x |] eqn:Hj; [| discriminate].
  destruct (a !! i) as [y |] eqn:Hi; [| discriminate].
  cbn [mbind option_bind]. intros [= <-].
  pose proof (lookup_lt_Some _ _ _ Hi) as Hlti.
  pose proof (lookup_lt_Some _ _ _ Hj) as Hltj.
  split; [exact Hlti |]. split; [exact Hltj |].
  split; [rewrite !length_insert; reflexivity |].
  split; [| split].
  - destruct (decide (i = j)) as [-> | Hne].
    + rewrite list_lookup_insert_eq by (rewrite length_insert; exact Hltj).
      congruence.
    + rewrite list_lookup_insert_ne by congruence.
      apply list_lookup_insert_eq. exact Hlti.
  - apply list_lookup_insert_eq. rewrite length_insert. exact Hltj.
  - intros k Hki Hkj. rewrite !list_lookup_insert_ne by congruence.
    reflexivity.
Qed.

(** X17.  The exchange [a[i], a[j] = a[j], a[i]] is made exactly when both
    positions are positions of the list.  It keeps the length, puts each of
    the two entries at the position of the other, leaves every other
    position as it was, and made a second time gives the first list
    back. *)
Theorem swap_exchanges (a : list nat) (i j : nat) :
  (is_Some (swap a i j) <-> (i < length a)%nat /\ (j < length a)%nat) /\
  (forall a',
     swap a i j = Some a' ->
     length a' = length a /\ a' !! i = a !! j /\ a' !! j = a !! i /\
     (forall k, k <> i -> k <> j -> a' !! k = a !! k) /\
     swap a' i j = Some a).
Proof.
  split.
  - split.
    + intros [a' Hswap].
      destruct (swap_lookup a a' i j Hswap) as (Hi & Hj & _). auto.
    + intros [Hi Hj]. apply swap_total; assumption.
  - intros a' Hswap.
    destruct (swap_lookup a a' i j Hswap) as (Hi & Hj & Hlen & Hai & Haj & Hk).
    split; [exact Hlen |]. split; [exact Hai |]. split; [exact Haj |].
    split; [exact Hk |].
    destruct (swap_total a' i j) as [a'' Hback];
      [rewrite Hlen; exact Hi | rewrite Hlen; exact Hj |].
    rewrite Hback. f_equal.
    destruct (swap_lookup a' a'' i j Hback)
      as (_ & _ & Hlen' & Hbi & Hbj & Hbk).
    apply list_eq. intros k.
    destruct (decide (k = i)) as [-> | Hki]; [congruence |].
    destruct (decide (k = j)) as [-> | Hkj]; [congruence |].
    rewrite (Hbk k Hki Hkj). apply Hk; assumption.
Qed.

Section MoveExtras.
Context {gen : Type} `{RandomSpec gen}.

(** The exchange at two drawn positions of a route that visits no location
    twice gives another route. *)
Lemma sample_swap_exchanged (n : nat) (a : list nat) (g : gen) :
  is_permutation n a -> (2 <= n)%nat ->
  exists idx1 idx2 a',
    (sample2 (length a) ≫= fun '(idx1, idx2) => lift (swap a idx1 idx2)) g
    = Some (a', (rand_pair n g).2) /\
    (rand_pair n g).1 = (idx1, idx2) /\
    exchanged a a' idx1 idx2 /\ a' <> a.
Proof.
  intros Hperm Hn.
  pose proof (is_permutation_length n a Hperm) as Hlen.
  assert (Hnodup : NoDup a)
    by (unfold is_permutation in Hperm; rewrite Hperm; apply NoDup_seq).
  unfold mbind, M_bind, sample2. rewrite Hlen.
  destruct (Nat.ltb_spec n 2) as [Hsmall | _]; [lia |].
  pose proof (rand_pair_range n g Hn) as Hpair.
  destruct (rand_pair n g) as [[idx1 idx2] g1]. cbn [fst snd] in Hpair |- *.
  destruct Hpair as (H1 & H2 & Hne).
  destruct (swap_total a idx1 idx2) as [a' Hswap]; [lia | lia |].
  unfold lift. rewrite Hswap.
  destruct (swap_lookup a a' idx1 idx2 Hswap) as (_ & _ & _ & Hi & Hj & Hk).
  exists idx1, idx2, a'. split; [reflexivity |]. split; [reflexivity |].
  split; [split; [exact Hne | auto] |].
  intros ->.
  destruct (lookup_lt_is_Some_2 a idx1) as [x Hx]; [lia |].
  apply Hne. apply (NoDup_lookup a idx1 idx2 x Hnodup Hx). congruence.
Qed.

(** X18.  The neighbour of a route that visits each of two or more
    locations once is the route with the stops at two different positions
    exchanged: it differs from the route at these two positions and
    nowhere else, so it is never the route itself. *)
Theorem get_neighbor_exchanges (n : nat) (itinerary : list nat) (g : gen) :
  is_permutation n itinerary -> (2 <= n)%nat ->
  exists idx1 idx2 neighbor g',
    SimulatedAnnealing.get_neighbor itinerary g = Some (neighbor, g') /\
    exchanged itinerary neighbor idx1 idx2 /\
    neighbor <> itinerary.
Proof.
  intros Hperm Hn.
  destruct (sample_swap_exchanged n itinerary g Hperm Hn)
    as (idx1 & idx2 & neighbor & Hrun & _ & Hex & Hne).
  exists idx1, idx2, neighbor, (rand_pair n g).2.
  split; [exact Hrun |]. split; assumption.
Qed.

(** X19.  [mutate] on a route that visits each of two or more locations
    once returns, after one draw [r]: the route itself when [r] is above
    the mutation rate; otherwise the route with the stops at two different
    positions exchanged, which is another route.  So a rate of 1 or more
    changes every individual and a negative rate none. *)
Theorem mutate_cases (n : nat) (mutation_rate : Q) (individual : list nat)
    (g : gen) :
  is_permutation n individual -> (2 <= n)%nat ->
  exists mutated g',
    GeneticAlgorithm.mutate mutation_rate individual g = Some (mutated, g') /\
    (mutation_rate < (rand_float g).1 /\ mutated = individual \/
     (rand_float g).1 <= mutation_rate /\ mutated <> individual /\
     exists idx1 idx2, exchanged individual mutated idx1 idx2) /\
    (1 <= mutation_rate -> mutated <> individual) /\
    (mutation_rate < 0 -> mutated = individual).
Proof.
  intros Hperm Hn.
  pose proof (rand_float_range g) as [Hr0 Hr1].
  unfold GeneticAlgorithm.mutate, random, mbind at 1, M_bind at 1.
  destruct (rand_float g) as [r g1]. cbn [fst] in *.
  destruct (Qltb mutation_rate r) eqn:Hdraw.
  - apply Qltb_lt in Hdraw.
    exists individual, g1. split; [reflexivity |].
    split; [left; split; [exact Hdraw | reflexivity] |].
    split; [intros Hrate; lra | reflexivity].
  - apply Qltb_ge in Hdraw.
    destruct (sample_swap_exchanged n individual g1 Hperm Hn)
      as (idx1 & idx2 & mutated & Hrun & _ & Hex & Hne).
    exists mutated, (rand_pair n g1).2. split; [exact Hrun |].
    split; [right; split; [exact Hdraw | split; [exact Hne |]] |].
    + exists idx1, idx2. exact Hex.
    + split; [intros _; exact Hne | intros Hrate; lra].
Qed.

End MoveExtras.

Lemma get_neighbor_exchanges_witness :
  exists idx1 idx2 neighbor g',
    SimulatedAnnealing.get_neighbor [2; 0; 1]%nat 4%nat
    = Some (neighbor, g') /\
    exchanged [2; 0; 1]%nat neighbor idx1 idx2 /\
    neighbor <> [2; 0; 1]%nat.
Proof.
  apply (get_neighbor_exchanges (gen := nat) 3 [2; 0; 1]%nat 4%nat);
    [unfold is_permutation; cbn; solve_Permutation | lia].
Defined.

Lemma mutate_cases_witness :
  exists mutated g',
    GeneticAlgorithm.mutate 1 [2; 0; 1]%nat 7%nat = Some (mutated, g') /\
    mutated <> [2; 0; 1]%nat.
Proof.
  destruct (mutate_cases (gen := nat) 3 1 [2; 0; 1]%nat 7%nat)
    as (mutated & g' & Hrun & _ & Hchange & _);
    [unfold is_permutation; cbn; solve_Permutation | lia |].
  exists mutated, g'. split; [exact Hrun | apply Hchange; discriminate].
Defined.

(** ** A generation of the genetic search *)

Lemma M_bind_Some {gen A B : Type} (c : M gen A) (k : A -> M gen B)
    (g g' : gen) (b : B) :
  (c ≫= k) g = Some (b, g') ->
  exists a g1, c g = Some (a, g1) /\ k a g1 = Some (b, g').
Proof.
  unfold mbind, M_bind. destruct (c g) as [[a g1] |]; [| discriminate].
  intros Hk. exists a, g1. split; [reflexivity | exact Hk].
Qed.

Section EvolveExtras.
Import GeneticAlgorithm.
Context {gen : Type} `{Random gen}.

Variable locations : list Location.
Variable formula : Q -> Q -> Q -> Q -> Q.
Variable avg_speed : Q.
Variable start_time : time.
Variable population_size : nat.
Variable mutation_rate crossover_rate : Q.
Variable elite_size : nat.

Abbreviation fitness_of := (fitness_of locations formula avg_speed start_time).
Abbreviation rank_population :=
  (rank_population locations formula avg_speed start_time).
Abbreviation breed := (breed (gen := gen) mutation_rate crossover_rate).
Abbreviation evolve :=
  (evolve (gen := gen) locations formula avg_speed start_time population_size
          mutation_rate crossover_rate elite_size).

Lemma rank_population_length (population : list (list nat))
    (ranked : list (xfloat * list nat)) :
  rank_population population = Some ranked ->
  length ranked = length population.
Proof.
  unfold GeneticAlgorithm.rank_population.
  destruct (mapM _ population) as [results |] eqn:Hmap; [| discriminate].
  cbn [mbind option_bind]. intros [= <-].
  rewrite length_sorted_by_fitness. symmetry.
  exact (length_mapM _ _ _ Hmap).
Qed.

(** The breeding loop appends one child for each free place. *)
Lemma breed_extends (free : nat) (ranked : list (xfloat * list nat)) :
  forall new_population g population g',
    breed free ranked new_population g = Some (population, g') ->
    exists children,
      population = new_population ++ children /\ length children = free.
Proof.
  assert (Hboth :
    (forall new_population g population g',
       breed free ranked new_population g = Some (population, g') ->
       exists children,
         population = new_population ++ children /\
         length children = free) /\
    (forall new_population g population g',
       breed (S free) ranked new_population g = Some (population, g') ->
       exists children,
         population = new_population ++ children /\
         length children = S free)).
  { induction free as [| free [IH0 IH1]].
    - split; intros new_population g population g' Hrun.
      + inversion Hrun. exists []. rewrite app_nil_r. auto.
      + cbn [GeneticAlgorithm.breed] in Hrun.
        apply M_bind_Some in Hrun. destruct Hrun as (parent1 & g1 & _ & Hrun).
        apply M_bind_Some in Hrun. destruct Hrun as (parent2 & g2 & _ & Hrun).
        apply M_bind_Some in Hrun.
        destruct Hrun as ([child1 child2] & g3 & _ & Hrun).
        apply M_bind_Some in Hrun. destruct Hrun as (child1' & g4 & _ & Hrun).
        apply M_bind_Some in Hrun. destruct Hrun as (child2' & g5 & _ & Hrun).
        inversion Hrun. exists [child1']. auto.
    - split; [exact IH1 |].
      intros new_population g population g' Hrun.
      cbn [GeneticAlgorithm.breed] in Hrun.
      apply M_bind_Some in Hrun. destruct Hrun as (parent1 & g1 & _ & Hrun).
      apply M_bind_Some in Hrun. destruct Hrun as (parent2 & g2 & _ & Hrun).
      apply M_bind_Some in Hrun.
      destruct Hrun as ([child1 child2] & g3 & _ & Hrun).
      apply M_bind_Some in Hrun. destruct Hrun as (child1' & g4 & _ & Hrun).
      apply M_bind_Some in Hrun. destruct Hrun as (child2' & g5 & _ & Hrun).
      destruct (IH0 _ _ _ _ Hrun) as (children & -> & Hlen).
      exists (child1' :: child2' :: children).
      rewrite <- !app_assoc. cbn. split; [reflexivity | lia]. }
  exact (proj1 Hboth).
Qed.

Lemma evolve_elite (population population' : list (list nat)) (g g' : gen) :
  evolve population g = Some (population', g') ->
  exists ranked children,
    rank_population population = Some ranked /\
    population' = (take elite_size ranked).*2 ++ children /\
    length children
    = (population_size - elite_size `min` length population)%nat.
Proof.
  unfold GeneticAlgorithm.evolve. intros Hrun.
  apply M_bind_Some in Hrun. destruct Hrun as (ranked & g1 & Hrank & Hrun).
  unfold lift in Hrank.
  destruct (rank_population population) as [ranked0 |] eqn:Hranked;
    [| discriminate].
  inversion Hrank; subst ranked0 g1. cbv zeta in Hrun.
  destruct (breed_extends _ _ _ _ _ _ Hrun) as (children & Hpop & Hlen).
  exists ranked, children. split; [reflexivity |]. split; [exact Hpop |].
  rewrite Hlen, length_fmap, length_take.
  rewrite (rank_population_length population ranked Hranked). reflexivity.
Qed.

(** X20.  When [evolve] returns, the new population begins with the
    [elite_size] best individuals of the old one, in the order of their
    rank (all of them when the old population has fewer), and goes on with
    one child for each place left up to the population size.  So the new
    population has [population_size] individuals, or as many as there are
    elite individuals when these are more. *)
Theorem evolve_keeps_elite (population population' : list (list nat))
    (g g' : gen) :
  evolve population g = Some (population', g') ->
  exists ranked children,
    rank_population population = Some ranked /\
    population' = (take elite_size ranked).*2 ++ children /\
    length children
    = (population_size - elite_size `min` length population)%nat /\
    length population'
    = (population_size `max` (elite_size `min` length population))%nat.
Proof.
  intros Hrun.
  destruct (evolve_elite population population' g g' Hrun)
    as (ranked & children & Hrank & Hpop & Hlen).
  exists ranked, children. split; [exact Hrank |]. split; [exact Hpop |].
  split; [exact Hlen |].
  rewrite Hpop, length_app, Hlen, length_fmap, length_take.
  rewrite (rank_population_length population ranked Hrank). lia.
Qed.

(** X21.  With an elite of one individual or more, the best fitness of a
    population does not get worse over a generation: the best fitness of
    the population [evolve] returns is not above the best fitness of the
    population it was given. *)
Theorem evolve_best_not_worse (population population' : list (list nat))
    (g g' : gen) (ranked ranked' : list (xfloat * list nat))
    (best : xfloat * list nat) :
  (1 <= elite_size)%nat ->
  evolve population g = Some (population', g') ->
  rank_population population = Some ranked -> head ranked = Some best ->
  rank_population population' = Some ranked' ->
  exists best', head ranked' = Some best' /\ xle best'.1 best.1 = true.
Proof.
  intros Helite Hrun Hrank Hbest Hrank'.
  destruct (evolve_elite population population' g g' Hrun)
    as (ranked0 & children & Hrank0 & Hpop & _).
  rewrite Hrank in Hrank0. inversion Hrank0; subst ranked0.
  destruct ranked as [| first ranked]; [discriminate |].
  cbn [head] in Hbest. inversion Hbest; subst first.
  destruct elite_size as [| elite']; [lia |].
  cbn [take fmap list_fmap] in Hpop.
  assert (Hin : best.2 ∈ population')
    by (rewrite Hpop; apply elem_of_cons; left; reflexivity).
  destruct ranked' as [| [f' ind'] ranked'].
  - apply rank_population_length in Hrank'. rewrite Hpop in Hrank'.
    discriminate.
  - exists (f', ind'). split; [reflexivity |]. cbn [fst].
    destruct (rank_population_head locations formula avg_speed start_time
                population' _ f' ind' Hrank' eq_refl) as (_ & _ & Hmin).
    destruct (Hmin best.2 Hin) as (f & Hf & Hle).
    destruct best as [f0 ind0].
    destruct (rank_population_head locations formula avg_speed start_time
                population _ f0 ind0 Hrank eq_refl) as (_ & Hf0 & _).
    cbn [fst snd] in *. rewrite Hf0 in Hf. inversion Hf; subst f.
    exact Hle.
Qed.

End EvolveExtras.

Lemma example_population_ok :
  Forall (is_permutation (length example_locations))
         [[0; 1; 2]; [2; 0; 1]]%nat.
Proof.
  repeat (apply Forall_cons_2;
          [unfold is_permutation; cbn; solve_Permutation |]).
  apply Forall_nil_2.
Qed.

Lemma evolve_keeps_elite_witness :
  exists population' g' ranked children,
    GeneticAlgorithm.evolve example_locations example_formula 30
      (mk_time 9 0 0 0) 4 (1 # 10) (4 # 5) 1 [[0; 1; 2]; [2; 0; 1]]%nat 0%nat
    = Some (population', g') /\
    GeneticAlgorithm.rank_population example_locations example_formula 30
      (mk_time 9 0 0 0) [[0; 1; 2]; [2; 0; 1]]%nat = Some ranked /\
    population' = (take 1 ranked).*2 ++ children /\
    length children = 3%nat /\ length population' = 4%nat.
Proof.
  destruct (evolve_total (gen := nat) example_locations example_formula 30
              (mk_time 9 0 0 0) 4 (1 # 10) (4 # 5) 1 ltac:(discriminate)
              example_formula_nonneg ltac:(cbn; lia)
              [[0; 1; 2]; [2; 0; 1]]%nat 0%nat example_population_ok
              ltac:(discriminate))
    as (population' & g' & Hrun & _).
  destruct (evolve_keeps_elite example_locations example_formula 30
              (mk_time 9 0 0 0) 4 (1 # 10) (4 # 5) 1 _ _ _ _ Hrun)
    as (ranked & children & Hrank & Hpop & Hlen & Hsize).
  exists population', g', ranked, children. auto.
Defined.

Lemma evolve_best_not_worse_witness :
  exists population' g' ranked ranked' best best',
    GeneticAlgorithm.evolve example_locations example_formula 30
      (mk_time 9 0 0 0) 4 (1 # 10) (4 # 5) 1 [[0; 1; 2]; [2; 0; 1]]%nat 0%nat
    = Some (population', g') /\
    GeneticAlgorithm.rank_population example_locations example_formula 30
      (mk_time 9 0 0 0) [[0; 1; 2]; [2; 0; 1]]%nat = Some ranked /\
    head ranked = Some best /\
    GeneticAlgorithm.rank_population example_locations example_formula 30
      (mk_time 9 0 0 0) population' = Some ranked' /\
    head ranked' = Some best' /\ xle best'.1 best.1 = true.
Proof.
  destruct (evolve_total (gen := nat) example_locations example_formula 30
              (mk_time 9 0 0 0) 4 (1 # 10) (4 # 5) 1 ltac:(discriminate)
              example_formula_nonneg ltac:(cbn; lia)
              [[0; 1; 2]; [2; 0; 1]]%nat 0%nat example_population_ok
              ltac:(discriminate))
    as (population' & g' & Hrun & Hperm' & _).
  destruct (rank_population_total example_locations example_formula 30
              (mk_time 9 0 0 0) ltac:(discriminate) example_formula_nonneg
              ltac:(cbn; lia) _ example_population_ok)
    as (ranked & Hrank & Hlen & _).
  destruct ranked as [| best ranked]; [discriminate Hlen |].
  destruct (rank_population_total example_locations example_formula 30
              (mk_time 9 0 0 0) ltac:(discriminate) example_formula_nonneg
              ltac:(cbn; lia) _ Hperm')
    as (ranked' & Hrank' & _).
  destruct (evolve_best_not_worse example_locations example_formula 30
              (mk_time 9 0 0 0) 4 (1 # 10) (4 # 5) 1 _ _ _ _ _ ranked' best
              ltac:(lia) Hrun Hrank eq_refl Hrank')
    as (best' & Hhead' & Hle).
  exists population', g', (best :: ranked), ranked', best, best'. auto 10.
Defined.

(** ** The result of the genetic search *)

Lemma evaluate_route_keeps_route (locations : list Location)
    (formula : Q -> Q -> Q -> Q -> Q) (avg_speed : Q) (start_time : time)
    (stops : list nat) (solution : RouteSolution) :
  ConstraintChecker.evaluate_route locations formula avg_speed start_time stops
  = Some solution ->
  route solution = stops.
Proof.
  destruct stops as [| location_idx rest].
  - intros [= <-]. reflexivity.
  - intros Heval.
    destruct (evaluate_route_cases locations formula avg_speed start_time
                (location_idx :: rest) solution ltac:(discriminate) Heval)
      as (s & _ & ->).
    reflexivity.
Qed.

Section GeneticResult.
Import GeneticAlgorithm.
Context {gen : Type} `{RandomSpec gen}.

Variable locations : list Location.
Variable formula : Q -> Q -> Q -> Q -> Q.
Variable avg_speed : Q.
Variable start_time : time.
Variable population_size generations : nat.
Variable mutation_rate crossover_rate : Q.
Variable elite_size : nat.

Abbreviation n := (length locations).
Abbreviation evaluate_route :=
  (evaluate_route locations formula avg_speed start_time).
Abbreviation generation_step :=
  (generation_step (gen := gen) locations formula avg_speed start_time
                   population_size mutation_rate crossover_rate elite_size).
Abbreviation run_generations :=
  (run_generations (gen := gen) locations formula avg_speed start_time
                   population_size mutation_rate crossover_rate elite_size).
Abbreviation optimize :=
  (optimize (gen := gen) locations formula avg_speed start_time
            population_size generations mutation_rate crossover_rate
            elite_size).

(** X22.  The initial population has [population_size] routes, and each of
    them visits every location once. *)
Theorem create_population_permutations (g : gen) :
  exists population g',
    create_population locations population_size g = Some (population, g') /\
    length population = population_size /\
    Forall (is_permutation n) population.
Proof.
  destruct (create_individuals_total locations population_size g)
    as (population & g' & Hrun & Hperm & Hlen).
  exists population, g'. split; [exact Hrun |]. split; assumption.
Qed.

Hypothesis speed_nonzero : ~ avg_speed == 0.
Hypothesis formula_nonneg :
  forall lat1 lon1 lat2 lon2, 0 <= formula lat1 lon1 lat2 lon2.
Hypothesis two_locations : (2 <= length locations)%nat.
Hypothesis one_individual : (1 <= population_size)%nat.

Abbreviation best_is_route :=
  (best_is_route locations formula avg_speed start_time).

Lemma run_generations_route (count : nat) (s : search) (g : gen) :
  Forall (is_permutation n) (cur_population s) -> cur_population s <> [] ->
  best_is_route s ->
  exists s' g',
    run_generations count s g = Some (s', g') /\
    Forall (is_permutation n) (cur_population s') /\
    cur_population s' <> [] /\ best_is_route s'.
Proof.
  revert s g. induction count as [| count IH]; intros s g Hpop Hne Hbest.
  - exists s, g. split; [reflexivity |]. auto.
  - destruct (generation_step_total locations formula avg_speed start_time
                population_size mutation_rate crossover_rate elite_size
                speed_nonzero formula_nonneg two_locations s g Hpop Hne
                one_individual)
      as (s1 & g1 & Hstep & Hpop1 & Hne1).
    assert (Hbest1 : best_is_route s1).
    { destruct (generation_step_spec locations formula avg_speed start_time
                  population_size mutation_rate crossover_rate elite_size
                  s s1 g g1 Hstep) as (_ & _ & _ & Hcases).
      intros solution Hsolution.
      destruct Hcases as [[Hsame _] | (ind & solution1 & Hin & Heval & Hs1 & _)].
      - apply Hbest. rewrite <- Hsame. exact Hsolution.
      - rewrite Hs1 in Hsolution. inversion Hsolution; subst solution1.
        exists ind. split; [| exact Heval].
        rewrite Forall_forall in Hpop1. apply Hpop1, Hin. }
    destruct (IH s1 g1 Hpop1 Hne1 Hbest1) as (s' & g' & Hrun & Hrest).
    exists s', g'. split; [| exact Hrest].
    cbn [GeneticAlgorithm.run_generations]. unfold mbind, M_bind.
    rewrite Hstep. exact Hrun.
Qed.

(** X23.  With two locations or more, a non-zero speed, distances that are
    not negative and a population of one individual or more, the genetic
    search returns, for any number of generations and whatever the
    generator draws, a solution whose route visits every location once,
    that is the evaluation of this route, and whose fitness is a finite
    number that is not negative. *)
Theorem genetic_result_is_route (g : gen) :
  exists solution g',
    optimize g = Some (solution, g') /\
    is_permutation n (route solution) /\
    evaluate_route (route solution) = Some solution /\
    exists q, fitness solution = Fin q /\ 0 <= q.
Proof.
  destruct (create_individuals_total locations population_size g)
    as (population0 & g0 & Hcreate & Hpop0 & Hlen0).
  assert (Hne0 : population0 <> [])
    by (intros ->; cbn in Hlen0; lia).
  destruct (run_generations_route generations
              (mk_search population0 None Inf) g0 Hpop0 Hne0)
    as (s & g1 & Hrun & Hpop & Hne & Hbest); [intros solution; discriminate |].
  assert (Hfinal : exists individual solution,
            optimize g = Some (solution, g1) /\
            is_permutation n individual /\
            evaluate_route individual = Some solution).
  { unfold GeneticAlgorithm.optimize, create_population.
    unfold mbind at 1, M_bind at 1. rewrite Hcreate.
    unfold mbind at 1, M_bind at 1. rewrite Hrun.
    destruct (best_solution s) as [solution |] eqn:Hkept.
    - destruct (Hbest solution Hkept) as (individual & Hperm & Heval).
      exists individual, solution. auto.
    - destruct (cur_population s) as [| first rest] eqn:Hcur;
        [contradiction |].
      apply Forall_cons in Hpop. destruct Hpop as [Hfirst _].
      destruct (evaluate_permutation locations formula avg_speed start_time
                  speed_nonzero first Hfirst) as [solution Heval].
      exists first, solution.
      unfold mbind, M_bind, lift. cbn [head].
      unfold GeneticAlgorithm.evaluate_route. rewrite Heval. auto. }
  destruct Hfinal as (individual & solution & Hopt & Hperm & Heval).
  pose proof (evaluate_route_keeps_route _ _ _ _ _ _ Heval) as Hroute.
  exists solution, g1. split; [exact Hopt |]. rewrite Hroute.
  split; [exact Hperm |]. split; [exact Heval |].
  destruct (fitness_of_permutation locations formula avg_speed start_time
              speed_nonzero formula_nonneg two_locations individual Hperm)
    as (q & Hq & Hq0).
  unfold GeneticAlgorithm.fitness_of, GeneticAlgorithm.evaluate_route in Hq.
  unfold GeneticAlgorithm.evaluate_route in Heval.
  rewrite Heval in Hq. cbn in Hq. inversion Hq as [Hfit].
  exists q. split; [exact Hfit | exact Hq0].
Qed.

End GeneticResult.

Lemma create_population_permutations_witness :
  exists population g',
    GeneticAlgorithm.create_population example_locations 4 0%nat
    = Some (population, g') /\
    length population = 4%nat /\
    Forall (is_permutation 3) population.
Proof.
  exact (create_population_permutations (gen := nat) example_locations 4
           0%nat).
Defined.

Lemma genetic_result_is_route_witness :
  exists solution g',
    GeneticAlgorithm.optimize example_locations example_formula 30
      (mk_time 9 0 0 0) 4 3 (1 # 10) (4 # 5) 1 0%nat
    = Some (solution, g') /\
    is_permutation 3 (route solution) /\
    ConstraintChecker.evaluate_route example_locations example_formula 30
      (mk_time 9 0 0 0) (route solution) = Some solution /\
    exists q, fitness solution = Fin q /\ 0 <= q.
Proof.
  apply (genetic_result_is_route (gen := nat) example_locations
           example_formula 30 (mk_time 9 0 0 0) 4 3 (1 # 10) (4 # 5) 1);
    [discriminate | exact example_formula_nonneg | cbn; lia | lia].
Defined.

(** X24.  With a population size of zero the genetic search raises, for
    any number of generations and any elite size: the first generation has
    no best individual, and without generations there is no first
    individual to evaluate. *)
Theorem optimize_empty_population_raises {gen : Type} `{Random gen}
    (locations : list Location) (formula : Q -> Q -> Q -> Q -> Q)
    (avg_speed : Q) (start_time : time) (generations : nat)
    (mutation_rate crossover_rate : Q) (elite_size : nat) (g : gen) :
  GeneticAlgorithm.optimize locations formula avg_speed start_time 0
    generations mutation_rate crossover_rate elite_size g = None.
Proof.
  destruct generations, elite_size; reflexivity.
Qed.

(** ** More on the annealing search *)

Section AnnealingExtras.
Import SimulatedAnnealing.
Context {gen : Type} `{Random gen}.

Variable locations : list Location.
Variable formula : Q -> Q -> Q -> Q -> Q.
Variable avg_speed : Q.
Variable start_time : time.
Variable initial_temperature cooling_rate min_temperature : Q.
Variable iterations_per_temp : nat.
Variable exp : Q -> Q.

Abbreviation step := (step locations formula avg_speed start_time exp).
Abbreviation steps := (steps locations formula avg_speed start_time exp).
Abbreviation anneal :=
  (anneal locations formula avg_speed start_time cooling_rate min_temperature
          iterations_per_temp exp).

Lemma step_clock (s s' : state) (g g' : gen) :
  step s g = Some (s', g') ->
  temperature s' = temperature s /\ iteration s' = iteration s.
Proof.
  unfold SimulatedAnnealing.step, mbind, M_bind, lift, random.
  destruct (get_neighbor (current_route s) g) as [[neighbor_route g1] |];
    [| discriminate].
  destruct (evaluate_route locations formula avg_speed start_time
              neighbor_route) as [neighbor_solution |]; [| discriminate].
  destruct (acceptance_probability exp _ _ _) as [p |]; [| discriminate].
  destruct (rand_float g1) as [r g2]. cbv zeta.
  destruct (xlt (Fin r) p);
    cbn [current_solution best_solution current_route temperature iteration];
    destruct (xlt _ _); intros [= <- _]; split; reflexivity.
Qed.

Lemma steps_clock (count : nat) (s s' : state) (g g' : gen) :
  steps count s g = Some (s', g') ->
  temperature s' = temperature s /\ iteration s' = iteration s.
Proof.
  revert s g. induction count as [| count IH]; intros s g.
  - intros [= <- _]. split; reflexivity.
  - cbn [SimulatedAnnealing.steps]. intros Hrun.
    apply M_bind_Some in Hrun. destruct Hrun as (s1 & g1 & Hstep & Hrest).
    destruct (step_clock s s1 g g1 Hstep) as [HT1 Hi1].
    destruct (IH s1 g1 Hrest) as [HT2 Hi2].
    split; congruence.
Qed.

(** X25.  When the annealing loop returns, it has made some number [k] of
    cooling steps: the counter has advanced by [k], the temperature is the
    first one multiplied [k] times by the cooling rate, this temperature is
    not above the minimum, and the temperature after each smaller number
    of cooling steps was above it. *)
Theorem annealing_schedule (fuel : nat) (s s' : state) (g g' : gen) :
  anneal fuel s g = Returned (s', g') ->
  exists k,
    (k <= fuel)%nat /\
    iteration s' = (iteration s + k)%nat /\
    temperature s' = cooled cooling_rate k (temperature s) /\
    cooled cooling_rate k (temperature s) <= min_temperature /\
    forall j, (j < k)%nat ->
              min_temperature < cooled cooling_rate j (temperature s).
Proof.
  revert s g. induction fuel as [| fuel IH]; intros s g;
    cbn [SimulatedAnnealing.anneal];
    destruct (Qltb min_temperature (temperature s)) eqn:Hhot;
    try discriminate.
  - intros [= <- _]. exists 0%nat. cbn [cooled].
    split; [lia |]. split; [lia |]. split; [reflexivity |].
    split; [apply Qltb_ge, Hhot | intros j Hj; lia].
  - destruct (steps iterations_per_temp s g) as [[s1 g1] |] eqn:Hsteps;
      [| discriminate].
    intros Hrest.
    destruct (steps_clock _ _ _ _ _ Hsteps) as [HT1 Hi1].
    destruct (IH _ _ Hrest) as (k & Hk & Hiter & Htemp & Hcold & Hleast).
    cbn [cool temperature iteration] in Hiter, Htemp, Hcold, Hleast.
    rewrite HT1 in Htemp, Hcold, Hleast. rewrite Hi1 in Hiter.
    exists (S k). cbn [cooled].
    split; [lia |]. split; [lia |]. split; [exact Htemp |].
    split; [exact Hcold |].
    intros [| j] Hj; cbn [cooled]; [apply Qltb_lt, Hhot | apply Hleast; lia].
  - intros [= <- _]. exists 0%nat. cbn [cooled].
    split; [lia |]. split; [lia |]. split; [reflexivity |].
    split; [apply Qltb_ge, Hhot | intros j Hj; lia].
Qed.

End AnnealingExtras.

Section AnnealingResult.
Import SimulatedAnnealing.
Context {gen : Type} `{RandomSpec gen}.

Variable locations : list Location.
Variable formula : Q -> Q -> Q -> Q -> Q.
Variable avg_speed : Q.
Variable start_time : time.
Variable initial_temperature cooling_rate min_temperature : Q.
Variable iterations_per_temp : nat.
Variable exp : Q -> Q.

Abbreviation n := (length locations).
Abbreviation evaluate :=
  (ConstraintChecker.evaluate_route locations formula avg_speed start_time).
Abbreviation consistent :=
  (state_ok locations formula avg_speed start_time).
Abbreviation step := (step locations formula avg_speed start_time exp).
Abbreviation steps := (steps locations formula avg_speed start_time exp).
Abbreviation anneal :=
  (anneal locations formula avg_speed start_time cooling_rate min_temperature
          iterations_per_temp exp).
Abbreviation initial_state :=
  (initial_state (gen := gen) locations formula avg_speed start_time
                 initial_temperature).
Abbreviation optimize :=
  (optimize locations formula avg_speed start_time initial_temperature
            cooling_rate min_temperature iterations_per_temp exp).

Lemma step_state_ok (s s' : state) (g g' : gen) :
  step s g = Some (s', g') -> consistent s -> consistent s'.
Proof.
  intros Hstep (Hcur & Hcur_eval & Hbest & Hbest_eval).
  unfold SimulatedAnnealing.step in Hstep.
  apply M_bind_Some in Hstep.
  destruct Hstep as (neighbor_route & g1 & Hneighbor & Hstep).
  pose proof (proj1 (sample_swap_permutation n (current_route s) g Hcur)
                neighbor_route g1 Hneighbor) as Hperm.
  apply M_bind_Some in Hstep.
  destruct Hstep as (neighbor_solution & g2 & Heval & Hstep).
  unfold lift, evaluate_route in Heval.
  destruct (evaluate neighbor_route) as [solution |] eqn:Hsolution;
    [| discriminate].
  inversion Heval; subst solution g2.
  apply M_bind_Some in Hstep. destruct Hstep as (p & g3 & _ & Hstep).
  apply M_bind_Some in Hstep. destruct Hstep as (r & g4 & _ & Hstep).
  cbv zeta in Hstep. revert Hstep. unfold state_ok, mret, M_ret.
  destruct (xlt (Fin r) p);
    cbn [current_solution best_solution current_route best_route];
    destruct (xlt _ _); intros [= <- _];
    cbn [current_solution best_solution current_route best_route]; auto.
Qed.

Lemma steps_state_ok (count : nat) (s s' : state) (g g' : gen) :
  steps count s g = Some (s', g') -> consistent s -> consistent s'.
Proof.
  revert s g. induction count as [| count IH]; intros s g.
  - intros [= <- _] Hok. exact Hok.
  - cbn [SimulatedAnnealing.steps]. intros Hrun Hok.
    apply M_bind_Some in Hrun. destruct Hrun as (s1 & g1 & Hstep & Hrest).
    exact (IH s1 g1 Hrest (step_state_ok s s1 g g1 Hstep Hok)).
Qed.

Lemma anneal_state_ok (fuel : nat) (s s' : state) (g g' : gen) :
  anneal fuel s g = Returned (s', g') -> consistent s -> consistent s'.
Proof.
  revert s g. induction fuel as [| fuel IH]; intros s g;
    cbn [SimulatedAnnealing.anneal];
    destruct (Qltb min_temperature (temperature s));
    try discriminate; try (intros [= <- _] Hok; exact Hok).
  destruct (steps iterations_per_temp s g) as [[s1 g1] |] eqn:Hsteps;
    [| discriminate].
  intros Hrest Hok. apply (IH _ _ Hrest).
  exact (steps_state_ok _ _ _ _ _ Hsteps Hok).
Qed.

Lemma initial_state_ok (s : state) (g g' : gen) :
  initial_state g = Some (s, g') ->
  consistent s /\ temperature s = initial_temperature /\
  current_route s = (rand_shuffle (seq 0 n) g).1 /\
  best_solution s = current_solution s /\
  g' = (rand_shuffle (seq 0 n) g).2.
Proof.
  unfold SimulatedAnnealing.initial_state, create_initial_solution,
    shuffled_range, mbind, M_bind, lift, num_locations, evaluate_route.
  pose proof (rand_shuffle_perm (seq 0 n) g) as Hperm.
  destruct (rand_shuffle (seq 0 n) g) as [current g1]. cbn [fst snd] in *.
  destruct (evaluate current) as [solution |] eqn:Heval; [| discriminate].
  intros [= <- <-]. unfold state_ok.
  cbn [current_route current_solution best_route best_solution temperature].
  auto 10.
Qed.

(** X26.  Whatever the generator draws, a solution the annealing search
    returns has a route that visits every location once, and is the
    evaluation of this route. *)
Theorem annealing_result_is_route (fuel : nat) (g g' : gen)
    (solution : RouteSolution) :
  optimize fuel g = Returned (solution, g') ->
  is_permutation n (route solution) /\
  evaluate (route solution) = Some solution.
Proof.
  unfold SimulatedAnnealing.optimize.
  destruct (initial_state g) as [[s0 g0] |] eqn:Hinit; [| discriminate].
  destruct (anneal fuel s0 g0) as [[s' g''] | |] eqn:Hrun; try discriminate.
  intros [= <- <-].
  destruct (initial_state_ok s0 g g0 Hinit) as (Hok0 & _).
  destruct (anneal_state_ok fuel s0 s' g0 g'' Hrun Hok0)
    as (_ & _ & Hbest & Heval).
  rewrite (evaluate_route_keeps_route _ _ _ _ _ _ Heval).
  split; assumption.
Qed.

(** X27.  A neighbour whose fitness is strictly below the current one is
    always taken, at any temperature, zero included: after the iteration
    it is the current route, with its evaluation as the current solution,
    and it is the best route too when its fitness is strictly below the
    best one. *)
Theorem step_accepts_improvement (s : state) (g g1 : gen)
    (neighbor_route : list nat) (neighbor_solution : RouteSolution) :
  get_neighbor (current_route s) g = Some (neighbor_route, g1) ->
  evaluate neighbor_route = Some neighbor_solution ->
  xlt (fitness neighbor_solution) (fitness (current_solution s)) = true ->
  exists s',
    step s g = Some (s', (rand_float g1).2) /\
    current_route s' = neighbor_route /\
    current_solution s' = neighbor_solution /\
    (xlt (fitness neighbor_solution) (fitness (best_solution s)) = true ->
     best_route s' = neighbor_route /\
     best_solution s' = neighbor_solution) /\
    (xlt (fitness neighbor_solution) (fitness (best_solution s)) = false ->
     best_route s' = best_route s /\ best_solution s' = best_solution s).
Proof.
  intros Hneighbor Heval Hbetter.
  pose proof (rand_float_range g1) as [_ Hr1].
  unfold SimulatedAnnealing.step, mbind, M_bind, lift, random.
  rewrite Hneighbor. unfold evaluate_route. rewrite Heval.
  unfold acceptance_probability. rewrite Hbetter.
  destruct (rand_float g1) as [r g2]. cbn [fst snd] in *. cbv zeta.
  assert (Haccept : xlt (Fin r) (Fin 1) = true)
    by (cbn [xlt]; apply Qltb_lt; exact Hr1).
  rewrite Haccept.
  cbn [current_solution best_solution current_route best_route].
  destruct (xlt (fitness neighbor_solution) (fitness (best_solution s)));
    eexists; (split; [reflexivity |]);
    cbn [current_solution best_solution current_route best_route];
    (split; [reflexivity |]); (split; [reflexivity |]);
    split; intros Hcase; try discriminate; split; reflexivity.
Qed.

(** X28.  When the initial temperature is not above the minimum, the loop
    is not entered: for any fuel the search returns the evaluation of the
    shuffled initial route, when this route has one. *)
Theorem annealing_cold_start (fuel : nat) (g : gen) :
  ~ avg_speed == 0 -> initial_temperature <= min_temperature ->
  exists solution,
    evaluate (rand_shuffle (seq 0 n) g).1 = Some solution /\
    optimize fuel g = Returned (solution, (rand_shuffle (seq 0 n) g).2).
Proof.
  intros Hspeed Hcold.
  pose proof (rand_shuffle_perm (seq 0 n) g) as Hperm.
  destruct (evaluate_permutation locations formula avg_speed start_time
              Hspeed _ Hperm) as [solution Heval].
  exists solution. split; [exact Heval |].
  unfold SimulatedAnnealing.optimize, SimulatedAnnealing.initial_state,
    create_initial_solution, shuffled_range, mbind, M_bind, lift,
    num_locations, evaluate_route.
  destruct (rand_shuffle (seq 0 n) g) as [current g1]. cbn [fst snd] in *.
  rewrite Heval. cbn [mret M_ret].
  apply Qltb_ge in Hcold.
  destruct fuel; cbn [SimulatedAnnealing.anneal temperature];
    rewrite Hcold; reflexivity.
Qed.

(** X29.  With fewer than two locations the annealing search raises as
    soon as the loop is entered with an iteration to make: no two
    positions can be drawn from the route. *)
Theorem annealing_needs_two_locations (fuel : nat) (g : gen) :
  (n < 2)%nat -> min_temperature < initial_temperature ->
  (1 <= iterations_per_temp)%nat ->
  optimize (S fuel) g = Raised.
Proof.
  intros Hn Hhot Hiter.
  unfold SimulatedAnnealing.optimize.
  destruct (initial_state g) as [[s0 g0] |] eqn:Hinit; [| reflexivity].
  destruct (initial_state_ok s0 g g0 Hinit) as ((Hperm & _) & HT & _).
  cbn [SimulatedAnnealing.anneal]. rewrite HT.
  apply Qltb_lt in Hhot. rewrite Hhot.
  destruct iterations_per_temp as [| count]; [lia |].
  cbn [SimulatedAnnealing.steps].
  unfold mbind at 1, M_bind at 1.
  unfold SimulatedAnnealing.step, mbind at 1, M_bind at 1.
  unfold get_neighbor, mbind at 1, M_bind at 1, sample2.
  rewrite (is_permutation_length n _ Hperm).
  destruct (Nat.ltb_spec n 2) as [_ | Hbig]; [reflexivity | lia].
Qed.

End AnnealingResult.

Lemma annealing_schedule_witness :
  exists s' g' k,
    SimulatedAnnealing.anneal example_locations example_formula 30
      (mk_time 9 0 0 0) (1 # 2) (1 # 5) 2 example_exp 5
      (SimulatedAnnealing.mk_state [0; 1; 2]%nat
         (mk_RouteSolution [0; 1; 2]%nat 0 0 Inf 0 []) [0; 1; 2]%nat
         (mk_RouteSolution [0; 1; 2]%nat 0 0 Inf 0 []) 1 0) 0%nat
    = Returned (s', g') /\
    (k <= 5)%nat /\
    SimulatedAnnealing.iteration s' = (0 + k)%nat /\
    SimulatedAnnealing.temperature s' = cooled (1 # 2) k 1.
Proof.
  destruct (anneal_total (gen := nat) example_locations example_formula 30
              (mk_time 9 0 0 0) (1 # 2) (1 # 5) 2 example_exp
              ltac:(discriminate) 3 5
              (SimulatedAnnealing.mk_state [0; 1; 2]%nat
                 (mk_RouteSolution [0; 1; 2]%nat 0 0 Inf 0 []) [0; 1; 2]%nat
                 (mk_RouteSolution [0; 1; 2]%nat 0 0 Inf 0 []) 1 0) 0%nat)
    as (s' & g' & Hrun);
    [cbn; lia | discriminate
     | unfold is_permutation; cbn; solve_Permutation
     | vm_compute; discriminate | lia |].
  destruct (annealing_schedule example_locations example_formula 30
              (mk_time 9 0 0 0) (1 # 2) (1 # 5) 2 example_exp 5 _ s' 0%nat g'
              Hrun) as (k & Hk & Hiter & Htemp & _).
  exists s', g', k. auto.
Defined.

Lemma annealing_result_is_route_witness :
  exists k, forall fuel,
    (k <= fuel)%nat ->
    exists solution g',
      SimulatedAnnealing.optimize example_locations example_formula 30
        (mk_time 9 0 0 0) 1000 (995 # 1000) (1 # 10) 100 example_exp
        fuel 0%nat
      = Returned (solution, g') /\
      is_permutation 3 (route solution) /\
      ConstraintChecker.evaluate_route example_locations example_formula 30
        (mk_time 9 0 0 0) (route solution) = Some solution.
Proof.
  destruct (optimize_total (gen := nat) example_locations example_formula 30
              (mk_time 9 0 0 0) 1000 (995 # 1000) (1 # 10) 100 example_exp
              ltac:(discriminate) 0%nat)
    as [k Hk];
    [cbn; lia | split; [vm_compute; discriminate | reflexivity]
     | reflexivity |].
  exists k. intros fuel Hfuel.
  destruct (Hk fuel Hfuel) as (solution & g' & Hrun).
  exists solution, g'. split; [exact Hrun |].
  exact (annealing_result_is_route (gen := nat) example_locations
           example_formula 30 (mk_time 9 0 0 0) 1000 (995 # 1000) (1 # 10)
           100 example_exp fuel 0%nat g' solution Hrun).
Defined.

Lemma step_accepts_improvement_witness :
  exists s',
    SimulatedAnnealing.step example_locations example_formula 30
      (mk_time 9 0 0 0) example_exp
      (SimulatedAnnealing.mk_state [0; 1; 2]%nat
         (mk_RouteSolution [0; 1; 2]%nat 0 0 Inf 0 []) [0; 1; 2]%nat
         (mk_RouteSolution [0; 1; 2]%nat 0 0 Inf 0 []) 0 0) 0%nat
    = Some (s', 2%nat) /\
    SimulatedAnnealing.current_route s' = [1; 0; 2]%nat /\
    SimulatedAnnealing.best_route s' = [1; 0; 2]%nat.
Proof.
  destruct (ConstraintChecker.evaluate_route example_locations
              example_formula 30 (mk_time 9 0 0 0) [1; 0; 2]%nat)
    as [neighbor_solution |] eqn:Heval; [| vm_compute in Heval; discriminate].
  assert (Hbetter : xlt (fitness neighbor_solution) Inf = true).
  { vm_compute in Heval. inversion Heval. reflexivity. }
  assert (Hneighbor : SimulatedAnnealing.get_neighbor [0; 1; 2]%nat 0%nat
                      = Some ([1; 0; 2]%nat, 1%nat)) by reflexivity.
  destruct (step_accepts_improvement (gen := nat) example_locations
              example_formula 30 (mk_time 9 0 0 0) example_exp
              (SimulatedAnnealing.mk_state [0; 1; 2]%nat
                 (mk_RouteSolution [0; 1; 2]%nat 0 0 Inf 0 []) [0; 1; 2]%nat
                 (mk_RouteSolution [0; 1; 2]%nat 0 0 Inf 0 []) 0 0)
              0%nat 1%nat [1; 0; 2]%nat neighbor_solution
              Hneighbor Heval Hbetter)
    as (s' & Hstep & Hcur & _ & Hbest & _).
  exists s'. split; [exact Hstep |]. split; [exact Hcur |].
  apply (Hbest Hbetter).
Defined.

Lemma annealing_cold_start_witness :
  exists solution,
    SimulatedAnnealing.optimize example_locations example_formula 30
      (mk_time 9 0 0 0) 1 (995 # 1000) 2 100 example_exp 0 0%nat
    = Returned (solution, 1%nat).
Proof.
  destruct (annealing_cold_start (gen := nat) example_locations
              example_formula 30 (mk_time 9 0 0 0) 1 (995 # 1000) 2 100
              example_exp 0 0%nat)
    as (solution & _ & Hrun); [discriminate | discriminate |].
  exists solution. exact Hrun.
Defined.

Lemma annealing_needs_two_locations_witness :
  SimulatedAnnealing.optimize (take 1 example_locations) example_formula 30
    (mk_time 9 0 0 0) 1000 (995 # 1000) (1 # 10) 100 example_exp 1 0%nat
  = Raised.
Proof.
  apply (annealing_needs_two_locations (gen := nat)
           (take 1 example_locations) example_formula 30 (mk_time 9 0 0 0)
           1000 (995 # 1000) (1 # 10) 100 example_exp 0 0%nat);
    [cbn; lia | reflexivity | lia].
Defined.
